(** * HARK.ConsumptionSaving.ConsPortfolioModelALT

    A shallow embedding of the portfolio-choice solver of
    [ConsPortfolioModelALT.py]: the solution record [PortfolioSolution], the
    terminal solution built by [updateSolutionTerminal], and the one-period
    solver [solveConsPortfolio].

    Numbers.  A numpy [float64] is modelled without rounding: a finite value
    is an exact rational, and the three special values of IEEE arithmetic
    (+inf, -inf, nan) are kept together with the IEEE rules that produce and
    propagate them (0/0 = nan, x/0 = +-inf, 0*inf = nan, inf-inf = nan, every
    comparison with nan false).  Signed zeros are not told apart: a zero
    divisor counts as +0.  The power operator [**] is applied to arbitrary
    real exponents by the solver, so it is a parameter [pw] of the
    development; the concrete runs use [npow_int], which is exact for the
    integer exponents they need. *)

From Stdlib Require Import QArith Qcanon Lia Lqa.
From stdpp Require Import base option list gmap strings.

Set Default Proof Using "Type".

(* ================================================================== *)
(** ** Numbers *)
(* ================================================================== *)

Inductive num : Type :=
| Fin (q : Qc)
| PInf
| NInf
| NaN.

Declare Scope num_scope.
Delimit Scope num_scope with num.
Bind Scope num_scope with num.

Definition zero : num := Fin (Q2Qc 0).
Definition one : num := Fin (Q2Qc 1).
Definition of_Z (z : Z) : num := Fin (Q2Qc (inject_Z z)).
Definition of_frac (n : Z) (d : positive) : num := Fin (Q2Qc (n # d)).

Definition Qc_eqb (a b : Qc) : bool :=
  match (a ?= b)%Qc with Eq => true | _ => false end.
Definition Qc_ltb (a b : Qc) : bool :=
  match (a ?= b)%Qc with Lt => true | _ => false end.
Definition Qc_leb (a b : Qc) : bool :=
  match (a ?= b)%Qc with Gt => false | _ => true end.

(** The infinity with the sign of a comparison against zero; nan for zero. *)
Definition inf_of_sign (c : comparison) : num :=
  match c with Gt => PInf | Lt => NInf | Eq => NaN end.

Definition nopp (x : num) : num :=
  match x with
  | Fin a => Fin (- a)%Qc
  | PInf => NInf
  | NInf => PInf
  | NaN => NaN
  end.

Definition nadd (x y : num) : num :=
  match x, y with
  | NaN, _ | _, NaN => NaN
  | Fin a, Fin b => Fin (a + b)%Qc
  | PInf, NInf | NInf, PInf => NaN
  | PInf, _ | _, PInf => PInf
  | NInf, _ | _, NInf => NInf
  end.

Definition nsub (x y : num) : num := nadd x (nopp y).

Definition nmul (x y : num) : num :=
  match x, y with
  | NaN, _ | _, NaN => NaN
  | Fin a, Fin b => Fin (a * b)%Qc
  | Fin a, PInf | PInf, Fin a => inf_of_sign (a ?= Q2Qc 0)%Qc
  | Fin a, NInf | NInf, Fin a => inf_of_sign (Q2Qc 0 ?= a)%Qc
  | PInf, PInf | NInf, NInf => PInf
  | PInf, NInf | NInf, PInf => NInf
  end.

Definition ndiv (x y : num) : num :=
  match x, y with
  | NaN, _ | _, NaN => NaN
  | Fin a, Fin b =>
      if Qc_eqb b (Q2Qc 0) then inf_of_sign (a ?= Q2Qc 0)%Qc
      else Fin (a / b)%Qc
  | Fin _, (PInf | NInf) => zero
  | PInf, Fin b => if Qc_ltb b (Q2Qc 0) then NInf else PInf
  | NInf, Fin b => if Qc_ltb b (Q2Qc 0) then PInf else NInf
  | (PInf | NInf), (PInf | NInf) => NaN
  end.

Infix "+" := nadd : num_scope.
Infix "-" := nsub : num_scope.
Infix "*" := nmul : num_scope.
Infix "/" := ndiv : num_scope.
Notation "- x" := (nopp x) : num_scope.

(** Ordered comparison; [None] when one side is nan. *)
Definition ncmp (x y : num) : option comparison :=
  match x, y with
  | NaN, _ | _, NaN => None
  | Fin a, Fin b => Some (a ?= b)%Qc
  | PInf, PInf | NInf, NInf => Some Eq
  | PInf, _ | _, NInf => Some Gt
  | NInf, _ | _, PInf => Some Lt
  end.

Definition nlt (x y : num) : bool :=
  match ncmp x y with Some Lt => true | _ => false end.
Definition ngt (x y : num) : bool :=
  match ncmp x y with Some Gt => true | _ => false end.
Definition nle (x y : num) : bool :=
  match ncmp x y with Some Lt | Some Eq => true | _ => false end.
Definition nge (x y : num) : bool :=
  match ncmp x y with Some Gt | Some Eq => true | _ => false end.
Definition neqb (x y : num) : bool :=
  match ncmp x y with Some Eq => true | _ => false end.
(** Python's [!=]: true also when a side is nan. *)
Definition nneb (x y : num) : bool := negb (neqb x y).

Definition is_fin (x : num) : bool :=
  match x with Fin _ => true | _ => false end.

(** Integer powers, exactly: [npow_pos a n = a^n]. *)
Definition npow_pos (a : Qc) (n : positive) : Qc :=
  Pos.iter (fun r => (r * a)%Qc) (Q2Qc 1) n.

(** [x ** y] for an integer-valued [y], with numpy's special cases
    ([x ** 0 = 1] for every [x], [0 ** -n = inf]).  Outside the integer
    exponents the value is not representable here and nan stands for it. *)
Definition npow_int (x y : num) : num :=
  match y with
  | Fin e =>
      match this e with
      | Qmake 0 1 => one
      | Qmake (Zpos n) 1 =>
          match x with
          | Fin a => Fin (npow_pos a n)
          | PInf => PInf
          | NInf => match n with xO _ => PInf | _ => NInf end
          | NaN => NaN
          end
      | Qmake (Zneg n) 1 =>
          match x with
          | Fin a =>
              if Qc_eqb a (Q2Qc 0) then PInf
              else Fin (/ npow_pos a n)%Qc
          | PInf | NInf => zero
          | NaN => NaN
          end
      | _ => NaN
      end
  | _ => NaN
  end.

(** numpy arrays of one, two and three dimensions, row-major. *)
Abbreviation arr1 := (list num).
Abbreviation arr2 := (list (list num)).
Abbreviation arr3 := (list (list (list num))).

(* ================================================================== *)
(** ** Exceptions and results *)
(* ================================================================== *)

(** The exceptions a call of the solver can end with. *)
Inductive exn : Type :=
| AttributeError_BoroCnstArt  (* 'PortfolioConsumerType must have BoroCnstArt=0.0!' *)
| ValueError_reshape          (* np.reshape on an array of the wrong size *)
| IndexError                  (* an index out of bounds *)
| TypeError_arguments         (* a function object called with the wrong arity *)
| NullFunc_invoked            (* the undefined-function placeholder was called *)
| AttributeError_missing      (* an object without the attribute asked for *)
| TypeError_object.           (* an object of another kind than the one used *)

Inductive outcome (A : Type) : Type :=
| Ok (a : A)
| Raise (e : exn).
Arguments Ok {A} a.
Arguments Raise {A} e.

Definition obind {A B} (m : outcome A) (k : A -> outcome B) : outcome B :=
  match m with
  | Ok a => k a
  | Raise e => Raise e
  end.

Notation "x <-! m ;; k" := (obind m (fun x => k))
  (at level 100, m at next level, right associativity).

Fixpoint mapM_out {A B} (f : A -> outcome B) (l : list A) : outcome (list B) :=
  match l with
  | [] => Ok []
  | a :: l' =>
      b <-! f a ;;
      bs <-! mapM_out f l' ;;
      Ok (b :: bs)
  end.

(** What the solver prints: 'No optimal controls found for a=' + str(a). *)
Inductive message : Type :=
| NoOptimalControls (a : num).

(* ================================================================== *)
(** ** Function objects *)
(* ================================================================== *)

(** The callables stored in a solution, as data: the constructor and the
    arguments it was built with. *)
#[warnings="-register-all"]
Inductive func : Type :=
| NullFunc
| IdentityFunction (i_dim n_dims : nat)
| ConstantFunction (value : num)
| LinearInterp (x_list y_list : list num)
               (intercept_limit slope_limit : option num)
| LinearInterpOnInterp1D (xInterpolators : list func) (y_values : list num)
| MargValueFunc (cFunc : func) (CRRA : num)
| ValueFunc (cFunc : func) (CRRA : num)
| MargValueFunc2D (cFunc : func) (CRRA : num)
| ValueFunc2D (cFunc : func) (CRRA : num).

(** The line through (x0,y0) and (x1,y1), at x. *)
Definition lin (x0 y0 x1 y1 x : num) : num :=
  let alpha := ((x - x0) / (x1 - x0))%num in
  ((one - alpha) * y0 + alpha * y1)%num.

(** Modelled from the spec: the evaluation of [LinearInterp]
    (HARK.interpolation is not part of the sources).  A piecewise-linear
    interpolant over the knots: [x] is located in the first segment whose
    right end is not below it, the last segment also serving beyond the
    last knot. *)
Fixpoint interp_from (x0 y0 : num) (xs ys : list num) (x : num) : num :=
  match xs, ys with
  | x1 :: xs', y1 :: ys' =>
      match xs' with
      | [] => lin x0 y0 x1 y1 x
      | _ :: _ =>
          if nle x x1 then lin x0 y0 x1 y1 x
          else interp_from x1 y1 xs' ys' x
      end
  | _, _ => y0
  end.

(** Modelled from the spec: with a limiting intercept and slope given, the
    extrapolation beyond the last knot is the line with that slope and
    intercept. *)
Definition LinearInterp_eval (x_list y_list : list num)
    (intercept_limit slope_limit : option num) (x : num) : num :=
  match x_list, y_list with
  | x0 :: xs, y0 :: ys =>
      match intercept_limit, slope_limit with
      | Some icpt, Some slp =>
          if ngt x (default x0 (last x_list)) then (icpt + slp * x)%num
          else interp_from x0 y0 xs ys x
      | _, _ => interp_from x0 y0 xs ys x
      end
  | _, _ => NaN
  end.

Section Solver.

(** numpy's power operator on floats. *)
Variable pw : num -> num -> num.

(** Modelled from the spec: CRRA utility [u(c) = c^(1-CRRA)/(1-CRRA)] and
    its derivative (HARK.utilities is not part of the sources). *)
Definition utility (c gam : num) : num :=
  (pw c (one - gam) / (one - gam))%num.
Definition utilityP (c gam : num) : num := pw c (- gam)%num.

(** Modelled from the spec: calling a function object on the coordinates of
    one point.  [NullFunc] raises when invoked; [IdentityFunction] projects
    on one argument; [ConstantFunction] ignores its arguments;
    [LinearInterpOnInterp1D] is linear between the interpolants of the two
    adjacent levels of its second argument; the value and marginal value
    functions apply utility and marginal utility to a consumption
    function. *)
Fixpoint call (f : func) (args : list num) : outcome num :=
  match f with
  | NullFunc => Raise NullFunc_invoked
  | IdentityFunction i_dim _ =>
      match args !! i_dim with
      | Some v => Ok v
      | None => Raise IndexError
      end
  | ConstantFunction value => Ok value
  | LinearInterp xl yl il sl =>
      match args with
      | [x] => Ok (LinearInterp_eval xl yl il sl x)
      | _ => Raise TypeError_arguments
      end
  | LinearInterpOnInterp1D fs ys =>
      match args with
      | [x; y] =>
          (fix level (fs : list func) (ys : list num) {struct fs}
             : outcome num :=
             match fs, ys with
             | f0 :: fs', y0 :: ys' =>
                 match fs', ys' with
                 | f1 :: fs'', y1 :: _ =>
                     let here :=
                       v0 <-! call f0 [x] ;;
                       v1 <-! call f1 [x] ;;
                       Ok (lin y0 v0 y1 v1 y) in
                     match fs'' with
                     | [] => here
                     | _ :: _ => if nle y y1 then here else level fs' ys'
                     end
                 | _, _ => call f0 [x]
                 end
             | _, _ => Raise IndexError
             end) fs ys
      | _ => Raise TypeError_arguments
      end
  | MargValueFunc cFunc CRRA =>
      match args with
      | [m] => c <-! call cFunc [m] ;; Ok (utilityP c CRRA)
      | _ => Raise TypeError_arguments
      end
  | ValueFunc cFunc CRRA =>
      match args with
      | [m] => c <-! call cFunc [m] ;; Ok (utility c CRRA)
      | _ => Raise TypeError_arguments
      end
  | MargValueFunc2D cFunc CRRA =>
      match args with
      | [m; s] => c <-! call cFunc [m; s] ;; Ok (utilityP c CRRA)
      | _ => Raise TypeError_arguments
      end
  | ValueFunc2D cFunc CRRA =>
      match args with
      | [m; s] => c <-! call cFunc [m; s] ;; Ok (utility c CRRA)
      | _ => Raise TypeError_arguments
      end
  end.


(* ================================================================== *)
(** ** PortfolioSolution *)
(* ================================================================== *)

Record PortfolioSolution : Type := mkPortfolioSolution {
  cFuncAdj : func;
  ShareFuncAdj : func;
  vFuncAdj : func;
  vPfuncAdj : func;
  cFuncFxd : func;
  ShareFuncFxd : func;
  vFuncFxd : func;
  dvdmFuncFxd : func;
  dvdsFuncFxd : func
}.

(** [PortfolioSolution.__init__]: a missing argument becomes [NullFunc]. *)
Definition PortfolioSolution_init
    (cFuncAdj' ShareFuncAdj' vFuncAdj' vPfuncAdj' cFuncFxd' ShareFuncFxd'
     vFuncFxd' dvdmFuncFxd' dvdsFuncFxd' : option func) : PortfolioSolution :=
  {| cFuncAdj := default NullFunc cFuncAdj';
     ShareFuncAdj := default NullFunc ShareFuncAdj';
     vFuncAdj := default NullFunc vFuncAdj';
     vPfuncAdj := default NullFunc vPfuncAdj';
     cFuncFxd := default NullFunc cFuncFxd';
     ShareFuncFxd := default NullFunc ShareFuncFxd';
     vFuncFxd := default NullFunc vFuncFxd';
     dvdmFuncFxd := default NullFunc dvdmFuncFxd';
     dvdsFuncFxd := default NullFunc dvdsFuncFxd' |}.

(** [PortfolioConsumerType.updateSolutionTerminal], as a function of the
    agent's [CRRA]; the result is what the method stores in
    [self.solution_terminal]. *)
Definition updateSolutionTerminal (CRRA : num) : PortfolioSolution :=
  let cFuncAdj_terminal := IdentityFunction 0 1 in
  let cFuncFxd_terminal := IdentityFunction 0 2 in
  let ShareFuncAdj_terminal := ConstantFunction zero in
  let ShareFuncFxd_terminal := IdentityFunction 1 2 in
  let vFuncAdj_terminal := ValueFunc cFuncAdj_terminal CRRA in
  let vFuncFxd_terminal := ValueFunc2D cFuncFxd_terminal CRRA in
  let vPfuncAdj_terminal := MargValueFunc cFuncAdj_terminal CRRA in
  let dvdmFuncFxd_terminal := MargValueFunc2D cFuncFxd_terminal CRRA in
  let dvdsFuncFxd_terminal := ConstantFunction zero in
  PortfolioSolution_init
    (Some cFuncAdj_terminal) (Some ShareFuncAdj_terminal)
    (Some vFuncAdj_terminal) (Some vPfuncAdj_terminal)
    (Some cFuncFxd_terminal) (Some ShareFuncFxd_terminal)
    (Some vFuncFxd_terminal) (Some dvdmFuncFxd_terminal)
    (Some dvdsFuncFxd_terminal).

(* ================================================================== *)
(** ** Arrays *)
(* ================================================================== *)

(** Elementwise operations on arrays of one shape. *)
Definition map2d {A B} (f : A -> B) (X : list (list A)) : list (list B) :=
  map (map f) X.
Definition map3d {A B} (f : A -> B) (X : list (list (list A)))
    : list (list (list B)) :=
  map (map (map f)) X.
Definition zip3d {A B C} (f : A -> B -> C)
    (X : list (list (list A))) (Y : list (list (list B)))
    : list (list (list C)) :=
  zip_with (zip_with (zip_with f)) X Y.

(** [np.sum] of a vector, and [np.sum(_, axis=2)]. *)
Definition nsum (l : arr1) : num := foldl nadd zero l.
Definition sum_axis2 (X : arr3) : arr2 := map2d nsum X.

(** [np.reshape(x, (1,1,N))]: fails unless [x] has [N] entries. *)
Definition reshape_shock (x : arr1) (N : nat) : outcome arr1 :=
  if decide (length x = N) then Ok x else Raise ValueError_reshape.

(** [X[:, -1]]: the last column; an IndexError when there is no column. *)
Definition last_col (X : arr2) : outcome arr1 :=
  mapM_out (fun row => match last row with
                       | Some x => Ok x
                       | None => Raise IndexError
                       end) X.

(** [X[:, j]] for [j] within the shape. *)
Definition column (j : nat) (X : arr2) : arr1 :=
  map (fun row => default NaN (row !! j)) X.

(** A function object called on a three-dimensional array (one argument),
    or on two such arrays of one shape (two arguments). *)
Definition call_on1 (f : func) (M : arr3) : outcome arr3 :=
  match f with
  | NullFunc => Raise NullFunc_invoked
  | _ => mapM_out (mapM_out (mapM_out (fun m => call f [m]))) M
  end.
Definition call_on2 (f : func) (M S : arr3) : outcome arr3 :=
  match f with
  | NullFunc => Raise NullFunc_invoked
  | _ => mapM_out (mapM_out (mapM_out (fun ms : num * num =>
                                          call f [ms.1; ms.2])))
                  (zip3d pair M S)
  end.

(** [np.argwhere(c)[-1][0]]: the index of the last true entry. *)
Fixpoint argwhere_last_from (i : nat) (c : list bool) (found : option nat)
    : option nat :=
  match c with
  | [] => found
  | b :: c' => argwhere_last_from (S i) c' (if b then Some i else found)
  end.
Definition argwhere_last (c : list bool) : option nat :=
  argwhere_last_from 0 c None.


(* ================================================================== *)
(** ** solveConsPortfolio *)
(* ================================================================== *)

(** [ShockDstn]: the list of four arrays the solver unpacks. *)
Record ShockDstn_t : Type := mkShockDstn {
  ShockPrbs : arr1;
  PermShks : arr1;
  TranShks : arr1;
  Risky : arr1
}.

(** The arrays the expectation step ends with (lines 445-456). *)
Record EndOfPrd_t : Type := mkEndOfPrd {
  EndOfPrddvda : arr2;
  EndOfPrddvdaNvrs : arr2;
  EndOfPrdv : arr2;
  EndOfPrddvds : arr2
}.

(** [BoroCnstArt != 0.0], for a float or [None]. *)
Definition BoroCnstArt_ne_0 (BoroCnstArt : option num) : bool :=
  match BoroCnstArt with
  | Some b => nneb b zero
  | None => true
  end.

Section OnePeriod.

Variable solution_next : PortfolioSolution.
Variable ShockDstn : ShockDstn_t.
Variables LivPrb DiscFac CRRA Rfree PermGroFac : num.
Variable BoroCnstArt : option num.
Variables aXtraGrid ShareGrid : arr1.
Variable vFuncBool : bool.
Variables AdjustPrb ShareLimit : num.

(** Line 402: an asset point at exactly zero is added. *)
Definition aNrmGrid : arr1 := zero :: aXtraGrid.
Definition aNrm_N : nat := length aNrmGrid.
Definition Share_N : nat := length ShareGrid.
Definition Shock_N : nat := length (ShockPrbs ShockDstn).

(** Lines 406-407: the grids tiled over (mNrm, Share, shock). *)
Definition aNrm_tiled : arr3 :=
  map (fun a => replicate Share_N (replicate Shock_N a)) aNrmGrid.
Definition Share_tiled : arr3 :=
  replicate aNrm_N (map (fun s => replicate Shock_N s) ShareGrid).
(** Lines 408-411: a shock array tiled over the two grids. *)
Definition tile_shock (x : arr1) : arr3 :=
  replicate aNrm_N (replicate Share_N x).

(** Lines 414-415. *)
Definition Rport_of (Risky_tiled : arr3) : arr3 :=
  zip3d nadd (map3d (fun s => (one - s) * Rfree)%num Share_tiled)
             (zip3d nmul Share_tiled Risky_tiled).
Definition mNrm_next_of (Rport PermShks_tiled TranShks_tiled : arr3) : arr3 :=
  zip3d nadd
    (zip3d ndiv (zip3d nmul Rport aNrm_tiled)
                (map3d (fun p => p * PermGroFac)%num PermShks_tiled))
    TranShks_tiled.

(** Lines 418-432: next period's marginal value, the adjusting and the
    fixed case combined by the adjustment probability. *)
Definition combine (adj fxd : arr3) : arr3 :=
  zip3d nadd (map3d (fun x => AdjustPrb * x)%num adj)
             (map3d (fun x => (one - AdjustPrb) * x)%num fxd).

Definition dvdm_next_of (mNrm_next Share_next : arr3) : outcome arr3 :=
  dvdmAdj_next <-! call_on1 (vPfuncAdj solution_next) mNrm_next ;;
  if nlt AdjustPrb one then
    dvdmFxd_next <-! call_on2 (dvdmFuncFxd solution_next) mNrm_next Share_next ;;
    Ok (combine dvdmAdj_next dvdmFxd_next)
  else Ok dvdmAdj_next.

Definition dvds_next_of (mNrm_next Share_next : arr3) : outcome arr3 :=
  let dvdsAdj_next := map3d (fun _ => zero) mNrm_next in
  if nlt AdjustPrb one then
    dvdsFxd_next <-! call_on2 (dvdsFuncFxd solution_next) mNrm_next Share_next ;;
    Ok (combine dvdsAdj_next dvdsFxd_next)
  else Ok dvdsAdj_next.

(** Lines 434-443. *)
Definition v_next_of (mNrm_next Share_next dvdm_next : arr3) : outcome arr3 :=
  if vFuncBool then
    vAdj_next <-! call_on1 (vFuncAdj solution_next) mNrm_next ;;
    if nlt AdjustPrb one then
      vFxd_next <-! call_on2 (vFuncFxd solution_next) mNrm_next Share_next ;;
      Ok (combine vAdj_next vFxd_next)
    else Ok vAdj_next
  else Ok (map3d (fun _ => zero) dvdm_next).

(** Lines 418-443: next period's marginal values and value at the future
    realizations. *)
Definition next_values (mNrm_next Share_next : arr3)
    : outcome (arr3 * arr3 * arr3) :=
  dvdm_next <-! dvdm_next_of mNrm_next Share_next ;;
  dvds_next <-! dvds_next_of mNrm_next Share_next ;;
  v_next <-! v_next_of mNrm_next Share_next dvdm_next ;;
  Ok (dvdm_next, dvds_next, v_next).

(** The general formula [AdjustPrb*adjusting + (1-AdjustPrb)*fixed] of the
    specification, which evaluates the fixed-case functions whatever
    [AdjustPrb] is; the solver's [next_values] is compared with it. *)
Definition next_values_blended (mNrm_next Share_next : arr3)
    : outcome (arr3 * arr3 * arr3) :=
  dvdmAdj_next <-! call_on1 (vPfuncAdj solution_next) mNrm_next ;;
  dvdmFxd_next <-! call_on2 (dvdmFuncFxd solution_next) mNrm_next Share_next ;;
  let dvdm_next := combine dvdmAdj_next dvdmFxd_next in
  let dvdsAdj_next := map3d (fun _ => zero) mNrm_next in
  dvdsFxd_next <-! call_on2 (dvdsFuncFxd solution_next) mNrm_next Share_next ;;
  let dvds_next := combine dvdsAdj_next dvdsFxd_next in
  if vFuncBool then
    vAdj_next <-! call_on1 (vFuncAdj solution_next) mNrm_next ;;
    vFxd_next <-! call_on2 (vFuncFxd solution_next) mNrm_next Share_next ;;
    Ok (dvdm_next, dvds_next, combine vAdj_next vFxd_next)
  else Ok (dvdm_next, dvds_next, map3d (fun _ => zero) dvdm_next).

(** Lines 414-415 on the tiled shocks: the future market resources. *)
Definition mNrm_next_grid : arr3 :=
  mNrm_next_of (Rport_of (tile_shock (Risky ShockDstn)))
               (tile_shock (PermShks ShockDstn))
               (tile_shock (TranShks ShockDstn)).

(** Lines 396-456: the tiled arrays and the expectations over the shocks,
    for a given way [next] of evaluating next period's functions. *)
Definition expectations_with
    (next : arr3 -> arr3 -> outcome (arr3 * arr3 * arr3))
    : outcome EndOfPrd_t :=
  let ShockPrbs_next := ShockPrbs ShockDstn in
  let PermShks_next := PermShks ShockDstn in
  let TranShks_next := TranShks ShockDstn in
  let Risky_next := Risky ShockDstn in
  ShockPrbs_r <-! reshape_shock ShockPrbs_next Shock_N ;;
  PermShks_r <-! reshape_shock PermShks_next Shock_N ;;
  TranShks_r <-! reshape_shock TranShks_next Shock_N ;;
  Risky_r <-! reshape_shock Risky_next Shock_N ;;
  let ShockPrbs_tiled := tile_shock ShockPrbs_r in
  let PermShks_tiled := tile_shock PermShks_r in
  let TranShks_tiled := tile_shock TranShks_r in
  let Risky_tiled := tile_shock Risky_r in
  let Rport := Rport_of Risky_tiled in
  let mNrm_next := mNrm_next_of Rport PermShks_tiled TranShks_tiled in
  let Share_next := Share_tiled in
  nxt <-! next mNrm_next Share_next ;;
  let dvdm_next := nxt.1.1 in
  let dvds_next := nxt.1.2 in
  let v_next := nxt.2 in
  let temp_fac_A :=
    map3d (fun p => pw (p * PermGroFac) (- CRRA))%num PermShks_tiled in
  let EndOfPrddvda :=
    map2d (nmul DiscFac)
      (sum_axis2
         (zip3d nmul (zip3d nmul (zip3d nmul ShockPrbs_tiled Rport) temp_fac_A)
                     dvdm_next)) in
  let EndOfPrddvdaNvrs :=
    map2d (fun x => pw x ((- one) / CRRA)%num) EndOfPrddvda in
  let temp_fac_B :=
    map3d (fun p => pw (p * PermGroFac) (one - CRRA))%num PermShks_tiled in
  let EndOfPrdv :=
    map2d (nmul DiscFac)
      (sum_axis2 (zip3d nmul (zip3d nmul ShockPrbs_tiled temp_fac_B) v_next)) in
  let Rxs := map3d (fun r => r - Rfree)%num Rport in
  let EndOfPrddvds :=
    map2d (nmul DiscFac)
      (sum_axis2
         (zip3d nmul ShockPrbs_tiled
            (zip3d nadd
               (zip3d nmul (zip3d nmul (zip3d nmul Rxs aNrm_tiled) temp_fac_A)
                           dvdm_next)
               (zip3d nmul temp_fac_B dvds_next)))) in
  Ok (mkEndOfPrd EndOfPrddvda EndOfPrddvdaNvrs EndOfPrdv EndOfPrddvds).

(** The expectations of the solver, and those of the general formula. *)
Definition expectations : outcome EndOfPrd_t :=
  expectations_with next_values.
Definition expectations_blended : outcome EndOfPrd_t :=
  expectations_with next_values_blended.

(** The two arrays the share loop updates in place, and what it printed. *)
Record controls : Type := mkControls {
  Share_now : arr1;
  cNrmAdj_now : arr1;
  stdout : list message
}.

(** Line 469, one row: [crossing[j,i]] holds when the first-order condition
    is non-negative at share [i] and non-positive at share [i+1]. *)
Definition crossing_row (FOC_row : arr1) : list bool :=
  zip_with (fun hi lo => nle hi zero && nge lo zero) (tail FOC_row) FOC_row.

(** Lines 473-482, the body of the [try]: the bracketing pair and the two
    interpolated controls; [None] when a statement of the body raises. *)
Definition interior_controls (FOC_row Nvrs_row : arr1) : option (num * num) :=
  idx ← argwhere_last (crossing_row FOC_row);
  bot_s ← ShareGrid !! idx;
  top_s ← ShareGrid !! S idx;
  bot_f ← FOC_row !! idx;
  top_f ← FOC_row !! S idx;
  bot_c ← Nvrs_row !! idx;
  top_c ← Nvrs_row !! S idx;
  let alpha := (one - top_f / (top_f - bot_f))%num in
  Some (((one - alpha) * bot_s + alpha * top_s)%num,
        ((one - alpha) * bot_c + alpha * top_c)%num).

(** Lines 471-484: one pass of the loop over the asset grid. *)
Definition share_loop_body (E : EndOfPrd_t) (st : controls) (j : nat)
    : controls :=
  match Share_now st !! j with
  | Some sh =>
      if neqb sh zero then
        match (FOC_row ← EndOfPrddvds E !! j;
               Nvrs_row ← EndOfPrddvdaNvrs E !! j;
               interior_controls FOC_row Nvrs_row) with
        | Some (share, c) =>
            mkControls (<[j := share]> (Share_now st))
                       (<[j := c]> (cNrmAdj_now st))
                       (stdout st)
        | None =>
            mkControls (Share_now st) (cNrmAdj_now st)
                       (stdout st ++
                        [NoOptimalControls (default NaN (aNrmGrid !! j))])
        end
      else st
  | None => st
  end.

(** Lines 458-484: the share-constrained levels, then the loop. *)
Definition share_selection (E : EndOfPrd_t) : outcome controls :=
  let FOC_s := EndOfPrddvds E in
  let Share_now0 := replicate aNrm_N zero in
  let cNrmAdj_now0 := replicate aNrm_N zero in
  FOC_last <-! last_col FOC_s ;;
  let constrained := map (fun f => ngt f zero) FOC_last in
  let Share_now1 :=
    zip_with (fun (c : bool) s => if c then one else s)
             constrained Share_now0 in
  let Share_now2 := <[0%nat := one]> Share_now1 in
  dvda_last <-! last_col (EndOfPrddvda E) ;;
  let cNrmAdj_now1 :=
    zip_with (fun (cd : bool * num) c =>
                if cd.1 then pw cd.2 ((- one) / CRRA)%num else c)
             (zip constrained dvda_last) cNrmAdj_now0 in
  dvda_0 <-! match dvda_last !! 0%nat with
             | Some d => Ok d
             | None => Raise IndexError
             end ;;
  let cNrmAdj_now2 :=
    <[0%nat := pw dvda_0 ((- one) / CRRA)%num]> cNrmAdj_now1 in
  Ok (foldl (share_loop_body E)
            (mkControls Share_now2 cNrmAdj_now2 [])
            (seq 0 aNrm_N)).

(** Lines 486-526: the interpolants and the solution returned. *)
Definition build_solution (E : EndOfPrd_t) (st : controls)
    : PortfolioSolution :=
  let mNrmAdj_now := zero :: zip_with nadd aNrmGrid (cNrmAdj_now st) in
  let cNrmAdj_now' := zero :: cNrmAdj_now st in
  let Share_now' := one :: Share_now st in
  let cFuncAdj_now := LinearInterp mNrmAdj_now cNrmAdj_now' None None in
  let ShareFuncAdj_now :=
    LinearInterp mNrmAdj_now Share_now' (Some ShareLimit) (Some zero) in
  let vPfuncAdj_now := MargValueFunc cFuncAdj_now CRRA in
  let cFuncFxd_by_Share :=
    map (fun j =>
           let cNrmFxd_temp := column j (EndOfPrddvdaNvrs E) in
           let mNrmFxd_temp := zip_with nadd aNrmGrid cNrmFxd_temp in
           LinearInterp (zero :: mNrmFxd_temp) (zero :: cNrmFxd_temp)
                        None None)
        (seq 0 Share_N) in
  let dvdsFuncFxd_by_Share :=
    map (fun j =>
           let cNrmFxd_temp := column j (EndOfPrddvdaNvrs E) in
           let mNrmFxd_temp := zip_with nadd aNrmGrid cNrmFxd_temp in
           let dvds_col := column j (EndOfPrddvds E) in
           LinearInterp (zero :: mNrmFxd_temp)
                        (default NaN (dvds_col !! 0%nat) :: dvds_col)
                        None None)
        (seq 0 Share_N) in
  let cFuncFxd_now := LinearInterpOnInterp1D cFuncFxd_by_Share ShareGrid in
  let dvdsFuncFxd_now :=
    LinearInterpOnInterp1D dvdsFuncFxd_by_Share ShareGrid in
  let ShareFuncFxd_now := IdentityFunction 1 2 in
  let dvdmFuncFxd_now := MargValueFunc2D cFuncFxd_now CRRA in
  PortfolioSolution_init
    (Some cFuncAdj_now) (Some ShareFuncAdj_now) None (Some vPfuncAdj_now)
    (Some cFuncFxd_now) (Some ShareFuncFxd_now) None
    (Some dvdmFuncFxd_now) (Some dvdsFuncFxd_now).

End OnePeriod.

(** The one-period solver: the solution of the period and the lines printed
    while solving, or the exception the call ends with. *)
Definition solveConsPortfolio (solution_next : PortfolioSolution)
    (ShockDstn : ShockDstn_t) (LivPrb DiscFac CRRA Rfree PermGroFac : num)
    (BoroCnstArt : option num) (aXtraGrid ShareGrid : arr1)
    (vFuncBool : bool) (AdjustPrb ShareLimit : num)
    : outcome (PortfolioSolution * list message) :=
  if BoroCnstArt_ne_0 BoroCnstArt then Raise AttributeError_BoroCnstArt
  else
    E <-! expectations solution_next ShockDstn DiscFac CRRA Rfree PermGroFac
            aXtraGrid ShareGrid vFuncBool AdjustPrb ;;
    st <-! share_selection CRRA aXtraGrid ShareGrid E ;;
    Ok (build_solution CRRA aXtraGrid ShareGrid ShareLimit E st, stdout st).

End Solver.

(* ================================================================== *)
(** ** Vocabulary of the statements *)
(* ================================================================== *)

(** A two-dimensional array of [n] rows and [m] columns. *)
Definition shape2 {A} (n m : nat) (X : list (list A)) : Prop :=
  length X = n /\ Forall (fun row => length row = m) X.

(** The first-order condition of a row brackets a root between the shares
    [idx] and [idx+1]: non-negative at the lower share, non-positive at
    the higher one. *)
Definition crossing_at (FOC_row : arr1) (idx : nat) : Prop :=
  exists lo hi,
    FOC_row !! idx = Some lo /\ FOC_row !! S idx = Some hi /\
    nge lo zero = true /\ nle hi zero = true.

(** The bracketing pair of the highest share. *)
Definition highest_crossing (FOC_row : arr1) (idx : nat) : Prop :=
  crossing_at FOC_row idx /\
  forall i, idx < i -> ~ crossing_at FOC_row i.

(** The two controls interpolated between the grid points [idx] and
    [idx+1] at the zero of the line through the two first-order
    conditions. *)
Definition interpolated (bot_f top_f bot top : num) : num :=
  let alpha := (one - top_f / (top_f - bot_f))%num in
  ((one - alpha) * bot + alpha * top)%num.

(** The loop searches level [j] when its share is still the initial 0. *)
Definition searched (st : controls) (j : nat) : bool :=
  match Share_now st !! j with
  | Some sh => neqb sh zero
  | None => false
  end.

(** What the [try] of level [j] computes. *)
Definition found (ShareGrid : arr1) (E : EndOfPrd_t) (j : nat)
    : option (num * num) :=
  FOC_row ← EndOfPrddvds E !! j;
  Nvrs_row ← EndOfPrddvdaNvrs E !! j;
  interior_controls ShareGrid FOC_row Nvrs_row.

(** The share, the consumption and the printed line of level [j] after
    the loop has passed it, from the state before. *)
Definition final_share (SG : arr1) (E : EndOfPrd_t) (st : controls) (j : nat)
    : option num :=
  if searched st j then
    match found SG E j with
    | Some (share, _) => Some share
    | None => Share_now st !! j
    end
  else Share_now st !! j.

Definition final_cNrm (SG : arr1) (E : EndOfPrd_t) (st : controls) (j : nat)
    : option num :=
  if searched st j then
    match found SG E j with
    | Some (_, c) => Some c
    | None => cNrmAdj_now st !! j
    end
  else cNrmAdj_now st !! j.

Definition printed (aX SG : arr1) (E : EndOfPrd_t) (st : controls) (j : nat)
    : option message :=
  if searched st j then
    match found SG E j with
    | Some _ => None
    | None => Some (NoOptimalControls (default NaN ((zero :: aX) !! j)))
    end
  else None.

(** The knots a piecewise-linear interpolant was built on. *)
Definition x_knots (f : func) : arr1 :=
  match f with
  | LinearInterp xl _ _ _ => xl
  | _ => []
  end.
Definition y_knots (f : func) : arr1 :=
  match f with
  | LinearInterp _ yl _ _ => yl
  | _ => []
  end.

(** The share and the consumption that the adjusting functions of a
    solution hold for the asset level [j] of [aNrmGrid] (knot [j+1]: the
    knot 0 is the added point at [m = 0]). *)
Definition share_at (sol : PortfolioSolution) (j : nat) : option num :=
  y_knots (ShareFuncAdj sol) !! S j.
Definition cNrm_at (sol : PortfolioSolution) (j : nat) : option num :=
  y_knots (cFuncAdj sol) !! S j.

(** A grid of finite, strictly increasing numbers. *)
Fixpoint increasing (l : arr1) : bool :=
  match l with
  | [] => true
  | x :: l' =>
      is_fin x &&
      match l' with
      | [] => true
      | y :: _ => nlt x y
      end && increasing l'
  end.

(** A list of finite, non-decreasing numbers. *)
Fixpoint nondecreasing (l : arr1) : bool :=
  match l with
  | [] => true
  | x :: l' =>
      is_fin x &&
      match l' with
      | [] => true
      | y :: _ => nle x y
      end && nondecreasing l'
  end.

(** A number of the interval [0,1]. *)
Definition in_unit_interval (x : num) : bool := nle zero x && nle x one.

(** A row of first-order conditions whose share, if it is interpolated, is
    interpolated between two finite values that are not both zero. *)
Definition regular_bracket (FOC_row : arr1) : bool :=
  match last FOC_row with
  | Some top_f' =>
      if ngt top_f' zero then true
      else
        match argwhere_last (crossing_row FOC_row) with
        | Some idx =>
            match FOC_row !! idx, FOC_row !! S idx with
            | Some bot_f, Some top_f =>
                is_fin bot_f && is_fin top_f &&
                negb (neqb bot_f zero && neqb top_f zero)
            | _, _ => true
            end
        | None => true
        end
  | None => true
  end.

(** The value at [x] of the line through two points with rational
    coordinates. *)
Definition linq (x0 y0 x1 y1 x : Qc) : Qc :=
  ((1 + - ((x + - x0) / (x1 + - x0))) * y0 + ((x + - x0) / (x1 + - x0)) * y1)%Qc.

(* ================================================================== *)
(** ** The solver on a store of objects *)
(* ================================================================== *)

(** The arguments of the solver are references to objects that its caller
    keeps: the next period's solution, the list of shock arrays and the two
    grids.  To say what a call does to them, the solver is also embedded on
    a store: arrays are mutable objects, an instance is a dictionary of
    attributes, and every array that the source allocates and then writes
    or hands over (np.zeros_like, np.insert, the lists grown by append, the
    constructors) is allocated here.  A function object is immutable once
    built and holds its arrays as part of its value; the arrays that are
    only intermediate values of an expression stay values. *)
Abbreviation loc := positive.

Inductive object : Type :=
| Ndarray (data : arr1)
| Function (f : func)
| PyList (items : list loc)
| Instance (attrs : gmap string loc).

Record state : Type := mkState {
  heap : gmap loc object;
  console : list message
}.

(** A computation on the store: its result or exception, and the store
    it leaves. *)
Definition M (A : Type) : Type := state -> outcome A * state.

#[global] Instance M_ret : MRet M := fun A a σ => (Ok a, σ).
#[global] Instance M_bind : MBind M := fun A B k m σ =>
  match m σ with
  | (Ok a, σ') => k a σ'
  | (Raise e, σ') => (Raise e, σ')
  end.

Definition raise {A} (e : exn) : M A := fun σ => (Raise e, σ).

Definition lift {A} (o : outcome A) : M A := fun σ => (o, σ).

(** A new object, at a location that the store does not hold yet. *)
Definition alloc (o : object) : M loc := fun σ =>
  let l := fresh (dom (heap σ)) in
  (Ok l, mkState (<[l := o]> (heap σ)) (console σ)).

Definition get_attr (l : loc) (name : string) : M loc := fun σ =>
  match heap σ !! l with
  | Some (Instance attrs) =>
      match attrs !! name with
      | Some r => (Ok r, σ)
      | None => (Raise AttributeError_missing, σ)
      end
  | _ => (Raise AttributeError_missing, σ)
  end.

Definition get_func (l : loc) : M func := fun σ =>
  match heap σ !! l with
  | Some (Function f) => (Ok f, σ)
  | _ => (Raise TypeError_object, σ)
  end.

Definition get_array (l : loc) : M arr1 := fun σ =>
  match heap σ !! l with
  | Some (Ndarray d) => (Ok d, σ)
  | _ => (Raise TypeError_object, σ)
  end.

Definition get_list (l : loc) : M (list loc) := fun σ =>
  match heap σ !! l with
  | Some (PyList items) => (Ok items, σ)
  | _ => (Raise TypeError_object, σ)
  end.

(** [x[i]] on a list. *)
Definition get_item (l : loc) (i : nat) : M loc :=
  items ← get_list l;
  match items !! i with
  | Some r => mret r
  | None => raise IndexError
  end.

(** [x[i]] on an array. *)
Definition get_index (l : loc) (i : nat) : M num :=
  d ← get_array l;
  match d !! i with
  | Some v => mret v
  | None => raise IndexError
  end.

(** [x[i] = v]: the array is changed in place. *)
Definition set_index (l : loc) (i : nat) (v : num) : M unit := fun σ =>
  match heap σ !! l with
  | Some (Ndarray d) =>
      if decide (i < length d)
      then (Ok tt, mkState (<[l := Ndarray (<[i := v]> d)]> (heap σ))
                           (console σ))
      else (Raise IndexError, σ)
  | _ => (Raise TypeError_object, σ)
  end.

(** [x.append(r)]: the list is changed in place. *)
Definition list_append (l r : loc) : M unit := fun σ =>
  match heap σ !! l with
  | Some (PyList items) =>
      (Ok tt, mkState (<[l := PyList (items ++ [r])]> (heap σ)) (console σ))
  | _ => (Raise AttributeError_missing, σ)
  end.

Definition print (m : message) : M unit := fun σ =>
  (Ok tt, mkState (heap σ) (console σ ++ [m])).

(** [for x in l: f(x)]. *)
Fixpoint forM_ {A} (l : list A) (f : A -> M unit) : M unit :=
  match l with
  | [] => mret tt
  | x :: l' => f x;; forM_ l' f
  end.

Fixpoint mapM_st {A B} (f : A -> M B) (l : list A) : M (list B) :=
  match l with
  | [] => mret []
  | x :: l' => b ← f x; bs ← mapM_st f l'; mret (b :: bs)
  end.

(** [x[mask] = vals], entry by entry. *)
Definition set_mask (l : loc) (mask : list bool) (vals : arr1) : M unit :=
  forM_ (zip (seq 0 (length mask)) (zip mask vals))
        (fun jbv => if jbv.2.1 then set_index l jbv.1 jbv.2.2 else mret tt).

(** The constructors of the function objects, given references. *)
Definition new_LinearInterp (x_list y_list : loc)
    (intercept_limit slope_limit : option num) : M loc :=
  xs ← get_array x_list;
  ys ← get_array y_list;
  alloc (Function (LinearInterp xs ys intercept_limit slope_limit)).

Definition new_LinearInterpOnInterp1D (xInterpolators y_values : loc)
    : M loc :=
  items ← get_list xInterpolators;
  fs ← mapM_st get_func items;
  ys ← get_array y_values;
  alloc (Function (LinearInterpOnInterp1D fs ys)).

Definition new_MargValueFunc (cFunc : loc) (CRRA : num) : M loc :=
  f ← get_func cFunc;
  alloc (Function (MargValueFunc f CRRA)).

Definition new_MargValueFunc2D (cFunc : loc) (CRRA : num) : M loc :=
  f ← get_func cFunc;
  alloc (Function (MargValueFunc2D f CRRA)).

(** [PortfolioSolution(...)]: a fresh [NullFunc()] for every argument left
    out, then the new instance with its nine attributes. *)
Definition or_new_NullFunc (arg : option loc) : M loc :=
  match arg with
  | Some r => mret r
  | None => alloc (Function NullFunc)
  end.

Definition new_PortfolioSolution
    (cFuncAdj' ShareFuncAdj' vFuncAdj' vPfuncAdj' cFuncFxd' ShareFuncFxd'
     vFuncFxd' dvdmFuncFxd' dvdsFuncFxd' : option loc) : M loc :=
  cFuncAdj_r ← or_new_NullFunc cFuncAdj';
  cFuncFxd_r ← or_new_NullFunc cFuncFxd';
  ShareFuncAdj_r ← or_new_NullFunc ShareFuncAdj';
  ShareFuncFxd_r ← or_new_NullFunc ShareFuncFxd';
  vFuncAdj_r ← or_new_NullFunc vFuncAdj';
  vFuncFxd_r ← or_new_NullFunc vFuncFxd';
  vPfuncAdj_r ← or_new_NullFunc vPfuncAdj';
  dvdmFuncFxd_r ← or_new_NullFunc dvdmFuncFxd';
  dvdsFuncFxd_r ← or_new_NullFunc dvdsFuncFxd';
  alloc (Instance
    (<["cFuncAdj" := cFuncAdj_r]> (<["cFuncFxd" := cFuncFxd_r]>
    (<["ShareFuncAdj" := ShareFuncAdj_r]> (<["ShareFuncFxd" := ShareFuncFxd_r]>
    (<["vFuncAdj" := vFuncAdj_r]> (<["vFuncFxd" := vFuncFxd_r]>
    (<["vPfuncAdj" := vPfuncAdj_r]> (<["dvdmFuncFxd" := dvdmFuncFxd_r]>
    (<["dvdsFuncFxd" := dvdsFuncFxd_r]> ∅)))))))))).

Section SolverOnStore.

Variable pw : num -> num -> num.

(** Lines 389-399: the five functions of next period that the solver
    reads, as a solution whose other fields are left out. *)
Definition unpack_solution_next (solution_next : loc) : M PortfolioSolution :=
  vPfuncAdj_next ← get_attr solution_next "vPfuncAdj";
  dvdmFuncFxd_next ← get_attr solution_next "dvdmFuncFxd";
  dvdsFuncFxd_next ← get_attr solution_next "dvdsFuncFxd";
  vFuncAdj_next ← get_attr solution_next "vFuncAdj";
  vFuncFxd_next ← get_attr solution_next "vFuncFxd";
  vPfuncAdj_f ← get_func vPfuncAdj_next;
  dvdmFuncFxd_f ← get_func dvdmFuncFxd_next;
  dvdsFuncFxd_f ← get_func dvdsFuncFxd_next;
  vFuncAdj_f ← get_func vFuncAdj_next;
  vFuncFxd_f ← get_func vFuncFxd_next;
  mret (PortfolioSolution_init None None (Some vFuncAdj_f) (Some vPfuncAdj_f)
          None None (Some vFuncFxd_f) (Some dvdmFuncFxd_f)
          (Some dvdsFuncFxd_f)).

Definition unpack_ShockDstn (ShockDstn : loc) : M ShockDstn_t :=
  ShockPrbs_next ← get_item ShockDstn 0;
  PermShks_next ← get_item ShockDstn 1;
  TranShks_next ← get_item ShockDstn 2;
  Risky_next ← get_item ShockDstn 3;
  prbs ← get_array ShockPrbs_next;
  perm ← get_array PermShks_next;
  tran ← get_array TranShks_next;
  risky ← get_array Risky_next;
  mret (mkShockDstn prbs perm tran risky).

(** Lines 470-484 on the arrays [Share_now] and [cNrmAdj_now] of the
    store. *)
Definition share_loop_st (aX SG : arr1) (E : EndOfPrd_t)
    (Share_now cNrmAdj_now : loc) : M unit :=
  forM_ (seq 0 (aNrm_N aX)) (fun j =>
    sh ← get_index Share_now j;
    if neqb sh zero then
      match found SG E j with
      | Some (share, c) =>
          set_index Share_now j share;;
          set_index cNrmAdj_now j c
      | None =>
          print (NoOptimalControls (default NaN (aNrmGrid aX !! j)))
      end
    else mret tt).

(** Lines 501-507: the two lists of interpolants, one entry per share. *)
Definition fixed_share_loop_st (aX SG : arr1) (E : EndOfPrd_t)
    (cFuncFxd_by_Share dvdsFuncFxd_by_Share : loc) : M unit :=
  forM_ (seq 0 (Share_N SG)) (fun j =>
    let cNrmFxd_temp := column j (EndOfPrddvdaNvrs E) in
    let mNrmFxd_temp := zip_with nadd (aNrmGrid aX) cNrmFxd_temp in
    let dvds_col := column j (EndOfPrddvds E) in
    m0 ← alloc (Ndarray (zero :: mNrmFxd_temp));
    c0 ← alloc (Ndarray (zero :: cNrmFxd_temp));
    cFunc ← new_LinearInterp m0 c0 None None;
    list_append cFuncFxd_by_Share cFunc;;
    m1 ← alloc (Ndarray (zero :: mNrmFxd_temp));
    d1 ← alloc (Ndarray (default NaN (dvds_col !! 0) :: dvds_col));
    dvdsFunc ← new_LinearInterp m1 d1 None None;
    list_append dvdsFuncFxd_by_Share dvdsFunc).

Definition solveConsPortfolio_st (solution_next ShockDstn : loc)
    (LivPrb DiscFac CRRA Rfree PermGroFac : num) (BoroCnstArt : option num)
    (aXtraGrid ShareGrid : loc) (vFuncBool : bool)
    (AdjustPrb ShareLimit : num) : M loc :=
  if BoroCnstArt_ne_0 BoroCnstArt then raise AttributeError_BoroCnstArt
  else
    sn ← unpack_solution_next solution_next;
    sd ← unpack_ShockDstn ShockDstn;
    aX ← get_array aXtraGrid;
    SG ← get_array ShareGrid;
    E ← lift (expectations pw sn sd DiscFac CRRA Rfree PermGroFac aX SG
                vFuncBool AdjustPrb);
    (* lines 458-466 *)
    Share_now ← alloc (Ndarray (replicate (aNrm_N aX) zero));
    cNrmAdj_now ← alloc (Ndarray (replicate (aNrm_N aX) zero));
    FOC_last ← lift (last_col (EndOfPrddvds E));
    let constrained := map (fun f => ngt f zero) FOC_last in
    set_mask Share_now constrained (replicate (length constrained) one);;
    set_index Share_now 0 one;;
    dvda_last ← lift (last_col (EndOfPrddvda E));
    set_mask cNrmAdj_now constrained
      (map (fun d => pw d ((- one) / CRRA)%num) dvda_last);;
    dvda_0 ← lift (match dvda_last !! 0 with
                   | Some d => Ok d
                   | None => Raise IndexError
                   end);
    set_index cNrmAdj_now 0 (pw dvda_0 ((- one) / CRRA)%num);;
    (* lines 468-484 *)
    share_loop_st aX SG E Share_now cNrmAdj_now;;
    (* lines 486-497 *)
    cN ← get_array cNrmAdj_now;
    SN ← get_array Share_now;
    mNrmAdj_now ← alloc (Ndarray (zero :: zip_with nadd (aNrmGrid aX) cN));
    cNrmAdj_now' ← alloc (Ndarray (zero :: cN));
    Share_now' ← alloc (Ndarray (one :: SN));
    cFuncAdj_now ← new_LinearInterp mNrmAdj_now cNrmAdj_now' None None;
    ShareFuncAdj_now ←
      new_LinearInterp mNrmAdj_now Share_now' (Some ShareLimit) (Some zero);
    vPfuncAdj_now ← new_MargValueFunc cFuncAdj_now CRRA;
    (* lines 499-515 *)
    cFuncFxd_by_Share ← alloc (PyList []);
    dvdsFuncFxd_by_Share ← alloc (PyList []);
    fixed_share_loop_st aX SG E cFuncFxd_by_Share dvdsFuncFxd_by_Share;;
    cFuncFxd_now ← new_LinearInterpOnInterp1D cFuncFxd_by_Share ShareGrid;
    dvdsFuncFxd_now ←
      new_LinearInterpOnInterp1D dvdsFuncFxd_by_Share ShareGrid;
    ShareFuncFxd_now ← alloc (Function (IdentityFunction 1 2));
    dvdmFuncFxd_now ← new_MargValueFunc2D cFuncFxd_now CRRA;
    (* lines 517-526 *)
    new_PortfolioSolution
      (Some cFuncAdj_now) (Some ShareFuncAdj_now) None (Some vPfuncAdj_now)
      (Some cFuncFxd_now) (Some ShareFuncFxd_now) None
      (Some dvdmFuncFxd_now) (Some dvdsFuncFxd_now).

End SolverOnStore.

(** The computation [m], started on any store that holds the locations of
    [D], leaves every object at a location of [D] as it is; when it
    returns, its result and the store it leaves satisfy [Q]. *)
Definition safe {A} (D : gset loc) (m : M A) (Q : A -> state -> Prop)
    : Prop :=
  forall σ, D ⊆ dom (heap σ) ->
    (forall l, l ∈ D -> heap (m σ).2 !! l = heap σ !! l) /\
    match (m σ).1 with
    | Ok a => Q a (m σ).2
    | Raise _ => True
    end.

(** A solution, its shock arrays and its grids put on a store, for the
    concrete periods. *)
Definition store_solution (sol : PortfolioSolution) : M loc :=
  cFuncAdj_r ← alloc (Function (cFuncAdj sol));
  ShareFuncAdj_r ← alloc (Function (ShareFuncAdj sol));
  vFuncAdj_r ← alloc (Function (vFuncAdj sol));
  vPfuncAdj_r ← alloc (Function (vPfuncAdj sol));
  cFuncFxd_r ← alloc (Function (cFuncFxd sol));
  ShareFuncFxd_r ← alloc (Function (ShareFuncFxd sol));
  vFuncFxd_r ← alloc (Function (vFuncFxd sol));
  dvdmFuncFxd_r ← alloc (Function (dvdmFuncFxd sol));
  dvdsFuncFxd_r ← alloc (Function (dvdsFuncFxd sol));
  new_PortfolioSolution
    (Some cFuncAdj_r) (Some ShareFuncAdj_r) (Some vFuncAdj_r)
    (Some vPfuncAdj_r) (Some cFuncFxd_r) (Some ShareFuncFxd_r)
    (Some vFuncFxd_r) (Some dvdmFuncFxd_r) (Some dvdsFuncFxd_r).

Definition store_ShockDstn (sd : ShockDstn_t) : M loc :=
  prbs ← alloc (Ndarray (ShockPrbs sd));
  perm ← alloc (Ndarray (PermShks sd));
  tran ← alloc (Ndarray (TranShks sd));
  risky ← alloc (Ndarray (Risky sd));
  alloc (PyList [prbs; perm; tran; risky]).

(* ================================================================== *)
(** ** Concrete periods *)
(* ================================================================== *)

(** A period with log utility (CRRA = 1), no discounting, a risk-free
    factor of 1 and sure income 1; the risky return is 1/2 or 2 with equal
    odds, the agent can always adjust, and next period is the last one.
    End-of-period assets are 0, 1 or 3 and the share grid is 0, 1/2, 1. *)
Definition risky_half_or_double : ShockDstn_t :=
  mkShockDstn [of_frac 1 2; of_frac 1 2] [one; one] [one; one]
              [of_frac 1 2; of_Z 2].

Definition period_A (vFuncBool : bool)
    : outcome (PortfolioSolution * list message) :=
  solveConsPortfolio npow_int (updateSolutionTerminal one)
    risky_half_or_double one one one one one (Some zero)
    [one; of_Z 3] [zero; of_frac 1 2; one] vFuncBool one (of_frac 1 2).

(** The solution and the printed lines of a call that returns. *)
Definition returned {A} (dflt : A) (o : outcome A) : A :=
  match o with
  | Ok a => a
  | Raise _ => dflt
  end.

Definition no_solution : PortfolioSolution * list message :=
  (PortfolioSolution_init None None None None None None None None None, []).

Definition expectations_A : outcome EndOfPrd_t :=
  expectations npow_int (updateSolutionTerminal one) risky_half_or_double
    one one one one [one; of_Z 3] [zero; of_frac 1 2; one] false one.

(** A period whose first-order conditions bracket no root: the risky
    return equals the risk-free factor 1, the agent can adjust with
    probability 1/2 only, and next period's marginal value of a fixed share
    is the constant -1 (the other functions are those of a last period). *)
Definition sure_unit_shocks : ShockDstn_t :=
  mkShockDstn [one] [one] [one] [one].

Definition next_B : PortfolioSolution :=
  let t := updateSolutionTerminal one in
  mkPortfolioSolution (cFuncAdj t) (ShareFuncAdj t) (vFuncAdj t) (vPfuncAdj t)
    (cFuncFxd t) (ShareFuncFxd t) (vFuncFxd t) (dvdmFuncFxd t)
    (ConstantFunction (of_Z (-1))).

Definition period_B : outcome (PortfolioSolution * list message) :=
  solveConsPortfolio npow_int next_B sure_unit_shocks
    one one one one one (Some zero)
    [of_Z 2; of_Z 3] [zero; of_frac 1 2; one] false
    (of_frac 1 2) (of_frac 1 2).

Definition expectations_B : outcome EndOfPrd_t :=
  expectations npow_int next_B sure_unit_shocks one one one one
    [of_Z 2; of_Z 3] [zero; of_frac 1 2; one] false (of_frac 1 2).

Definition no_expectations : EndOfPrd_t := mkEndOfPrd [] [] [] [].

(** Two arrays hold the same numbers ([==] entry by entry). *)
Fixpoint same_numbers (l k : arr1) : bool :=
  match l, k with
  | [], [] => true
  | x :: l', y :: k' => neqb x y && same_numbers l' k'
  | _, _ => false
  end.

(** Row [j] of an array and the last entry of a row, for the concrete
    periods. *)
Definition row_of (X : arr2) (j : nat) : arr1 := default [] (X !! j).
Definition top_of (r : arr1) : num := default NaN (last r).

(** Two three-dimensional arrays of one shape. *)
Definition same3 {A B} (X : list (list (list A))) (Y : list (list (list B)))
    : Prop :=
  Forall2 (Forall2 (fun c c' => length c = length c')) X Y.

(** A fixed-case function of next period returns, without failing, a
    finite number at every point of the grids. *)
Definition finite_on (pw : num -> num -> num) (f : func) (M S : arr3)
    : Prop :=
  exists F, call_on2 pw f M S = Ok F /\
            Forall (Forall (Forall (fun x => is_fin x = true))) F.

(** All the entries of a three-dimensional array are finite. *)
Definition all_fin3 (X : arr3) : Prop :=
  Forall (Forall (Forall (fun x => is_fin x = true))) X.

(** A period without risk premium: the risky return is the risk-free
    factor 1 for sure, the agent can always adjust and next period is the
    last one (CRRA = 1). *)
Definition period_C : outcome (PortfolioSolution * list message) :=
  solveConsPortfolio npow_int (updateSolutionTerminal one) sure_unit_shocks
    one one one one one (Some zero)
    [one; of_Z 3] [zero; of_frac 1 2; one] false one (of_frac 1 2).

Definition expectations_C : outcome EndOfPrd_t :=
  expectations npow_int (updateSolutionTerminal one) sure_unit_shocks
    one one one one [one; of_Z 3] [zero; of_frac 1 2; one] false one.

(** A period in which income can be zero: transitory shock 0, risky
    return 2, risk-free factor 1; next period is the last one. *)
Definition zero_income_shocks : ShockDstn_t :=
  mkShockDstn [one] [one] [zero] [of_Z 2].

(** The nine functions of a solution of the store. *)
Definition read_solution (sol : loc) : M PortfolioSolution :=
  cFuncAdj_r ← get_attr sol "cFuncAdj";
  ShareFuncAdj_r ← get_attr sol "ShareFuncAdj";
  vFuncAdj_r ← get_attr sol "vFuncAdj";
  vPfuncAdj_r ← get_attr sol "vPfuncAdj";
  cFuncFxd_r ← get_attr sol "cFuncFxd";
  ShareFuncFxd_r ← get_attr sol "ShareFuncFxd";
  vFuncFxd_r ← get_attr sol "vFuncFxd";
  dvdmFuncFxd_r ← get_attr sol "dvdmFuncFxd";
  dvdsFuncFxd_r ← get_attr sol "dvdsFuncFxd";
  cFuncAdj_f ← get_func cFuncAdj_r;
  ShareFuncAdj_f ← get_func ShareFuncAdj_r;
  vFuncAdj_f ← get_func vFuncAdj_r;
  vPfuncAdj_f ← get_func vPfuncAdj_r;
  cFuncFxd_f ← get_func cFuncFxd_r;
  ShareFuncFxd_f ← get_func ShareFuncFxd_r;
  vFuncFxd_f ← get_func vFuncFxd_r;
  dvdmFuncFxd_f ← get_func dvdmFuncFxd_r;
  dvdsFuncFxd_f ← get_func dvdsFuncFxd_r;
  mret (mkPortfolioSolution cFuncAdj_f ShareFuncAdj_f vFuncAdj_f vPfuncAdj_f
          cFuncFxd_f ShareFuncFxd_f vFuncFxd_f dvdmFuncFxd_f dvdsFuncFxd_f).

Definition empty_store : state := mkState ∅ [].

(** The periods A and B on a store: the inputs are put on an empty store,
    the solver is called on their references, and the solution it returns
    is read back. *)
Definition period_A_st (vFuncBool : bool) : M PortfolioSolution :=
  solution_next ← store_solution (updateSolutionTerminal one);
  ShockDstn ← store_ShockDstn risky_half_or_double;
  aXtraGrid ← alloc (Ndarray [one; of_Z 3]);
  ShareGrid ← alloc (Ndarray [zero; of_frac 1 2; one]);
  sol ← solveConsPortfolio_st npow_int solution_next ShockDstn
          one one one one one (Some zero) aXtraGrid ShareGrid vFuncBool
          one (of_frac 1 2);
  read_solution sol.

Definition period_B_st : M PortfolioSolution :=
  solution_next ← store_solution next_B;
  ShockDstn ← store_ShockDstn sure_unit_shocks;
  aXtraGrid ← alloc (Ndarray [of_Z 2; of_Z 3]);
  ShareGrid ← alloc (Ndarray [zero; of_frac 1 2; one]);
  sol ← solveConsPortfolio_st npow_int solution_next ShockDstn
          one one one one one (Some zero) aXtraGrid ShareGrid false
          (of_frac 1 2) (of_frac 1 2);
  read_solution sol.

(** The period A with a share grid of one point. *)
Definition period_D : outcome (PortfolioSolution * list message) :=
  solveConsPortfolio npow_int (updateSolutionTerminal one)
    risky_half_or_double one one one one one (Some zero)
    [one; of_Z 3] [of_frac 1 2] false one (of_frac 1 2).

(** The terminal solution with every field but [vPfuncAdj] left out. *)
Definition unused_fields_dropped : PortfolioSolution :=
  let t := updateSolutionTerminal one in
  mkPortfolioSolution NullFunc NullFunc NullFunc (vPfuncAdj t)
    NullFunc NullFunc NullFunc NullFunc NullFunc.

(* ================================================================== *)
(** ** PortfolioConsumerType.updateShareGrid *)
(* ================================================================== *)

(** [np.linspace(start, stop, num)] with its default [endpoint=True]: a
    negative [num] is a ValueError; otherwise the samples are
    [arange(0, num) * step + start] with [step = (stop - start)/(num - 1)],
    the last one being set to [stop] when there are two or more. *)
Inductive np_error : Type :=
| ValueError_samples.   (* 'Number of samples, %s, must be non-negative.' *)

Definition np_linspace (start stop : num) (n : Z) : np_error + arr1 :=
  if (n <? 0)%Z then inl ValueError_samples
  else
    let div := (n - 1)%Z in
    let y := map (fun i => of_Z (Z.of_nat i)) (seq 0 (Z.to_nat n)) in
    let delta := (stop - start)%num in
    let y :=
      if (0 <? div)%Z then
        let step := (delta / of_Z div)%num in
        if neqb step zero then map (fun v => (v / of_Z div) * delta)%num y
        else map (fun v => v * step)%num y
      else map (fun v => v * delta)%num y in
    let y := map (fun v => v + start)%num y in
    inr (if (1 <? n)%Z then <[(Z.to_nat n - 1)%nat := stop]> y else y).

(** [PortfolioConsumerType.updateShareGrid], as a function of the agent's
    [ShareCount]; the result is what the method stores in
    [self.ShareGrid]. *)
Definition updateShareGrid (ShareCount : Z) : np_error + arr1 :=
  np_linspace zero one ShareCount.

(** The [i]-th of the evenly spaced points of [0,1] with [d] steps. *)
Definition even_point (d : Z) (i : nat) : Qc :=
  (Q2Qc (inject_Z (Z.of_nat i)) / Q2Qc (inject_Z d))%Qc.

(** [x] lies between [lo] and [hi], whichever of the two is the larger. *)
Definition between (lo hi x : num) : bool :=
  (nle lo x && nle x hi) || (nle hi x && nle x lo).

(* ================================================================== *)
(** * Properties *)
(* ================================================================== *)

(** ** Numbers *)

Lemma Qc_eqb_eq (a b : Qc) : Qc_eqb a b = true <-> a = b.
Proof.
  unfold Qc_eqb. destruct (a ?= b)%Qc eqn:E.
  - apply Qceq_alt in E. split; auto.
  - split; [discriminate|]. intros ->.
    assert (H : (b ?= b)%Qc = Eq) by (apply Qceq_alt; reflexivity).
    congruence.
  - split; [discriminate|]. intros ->.
    assert (H : (b ?= b)%Qc = Eq) by (apply Qceq_alt; reflexivity).
    congruence.
Qed.

Lemma neqb_zero_iff (x : num) : neqb x zero = true <-> x = zero.
Proof.
  unfold neqb, zero. destruct x as [a| | |]; simpl; try (split; discriminate).
  destruct (a ?= Q2Qc 0)%Qc eqn:E.
  - apply Qceq_alt in E. subst. split; auto.
  - split; [discriminate|]. intros [= ->].
    assert (H : (Q2Qc 0 ?= Q2Qc 0)%Qc = Eq) by (apply Qceq_alt; reflexivity).
    congruence.
  - split; [discriminate|]. intros [= ->].
    assert (H : (Q2Qc 0 ?= Q2Qc 0)%Qc = Eq) by (apply Qceq_alt; reflexivity).
    congruence.
Qed.

Lemma neqb_one_zero : neqb one zero = false.
Proof. reflexivity. Qed.

Lemma neqb_zero_zero : neqb zero zero = true.
Proof. reflexivity. Qed.

Lemma BoroCnstArt_ne_0_false (b : option num) :
  BoroCnstArt_ne_0 b = false <-> b = Some zero.
Proof.
  destruct b as [x|]; simpl.
  - unfold nneb. rewrite negb_false_iff, neqb_zero_iff.
    split; [intros ->; reflexivity | intros [= ->]; reflexivity].
  - split; discriminate.
Qed.

(** Comparisons of finite numbers are those of the rationals. *)
Lemma nlt_fin a b : nlt (Fin a) (Fin b) = true <-> (a < b)%Qc.
Proof.
  unfold nlt. simpl. rewrite Qclt_alt.
  destruct (a ?= b)%Qc; split; congruence.
Qed.

Lemma nle_fin a b : nle (Fin a) (Fin b) = true <-> (a <= b)%Qc.
Proof.
  unfold nle. simpl. rewrite Qcle_alt.
  destruct (a ?= b)%Qc; split; congruence.
Qed.

Lemma ngt_fin a b : ngt (Fin a) (Fin b) = true <-> (b < a)%Qc.
Proof.
  unfold ngt. simpl. change (b < a)%Qc with (a > b)%Qc. rewrite Qcgt_alt.
  destruct (a ?= b)%Qc; split; congruence.
Qed.

Lemma nge_fin a b : nge (Fin a) (Fin b) = true <-> (b <= a)%Qc.
Proof.
  unfold nge. simpl. change (b <= a)%Qc with (a >= b)%Qc. rewrite Qcge_alt.
  destruct (a ?= b)%Qc; split; congruence.
Qed.

Lemma is_fin_Fin x : is_fin x = true <-> exists q, x = Fin q.
Proof.
  destruct x as [q| | |]; simpl.
  - split; eauto.
  - split; [discriminate | intros [q Hq]; discriminate].
  - split; [discriminate | intros [q Hq]; discriminate].
  - split; [discriminate | intros [q Hq]; discriminate].
Qed.

Lemma nadd_zero_l x : (zero + x)%num = x.
Proof. destruct x; simpl; try reflexivity. f_equal. ring. Qed.

Lemma nadd_zero_r x : (x + zero)%num = x.
Proof. destruct x; simpl; try reflexivity. f_equal. ring. Qed.

Lemma nmul_one_l x : (one * x)%num = x.
Proof. destruct x; simpl; try reflexivity. f_equal. ring. Qed.

Lemma nmul_zero_fin q : (zero * Fin q)%num = zero.
Proof. simpl. unfold zero. f_equal. ring. Qed.

Lemma nsub_one_one : (one - one)%num = zero.
Proof. unfold zero. simpl. f_equal. Qed.

(** Statements about rationals in canonical form, as statements about
    rationals. *)
Ltac qc2q :=
  unfold Qcle, Qclt in *; simpl in *;
  repeat match goal with
  | H : context [Qred _] |- _ => rewrite Qred_correct in H
  | |- context [Qred _] => rewrite Qred_correct
  end.

(** An interpolant takes the value of its left knot at that knot. *)
Lemma lin_left (x0 x1 y0 y1 : Qc) :
  x0 <> x1 ->
  lin (Fin x0) (Fin y0) (Fin x1) (Fin y1) (Fin x0) = Fin y0.
Proof.
  intros Hne. unfold lin. simpl.
  destruct (Qc_eqb (x1 + - x0) (Q2Qc 0)) eqn:Hz.
  - apply Qc_eqb_eq in Hz. exfalso. apply Hne.
    transitivity (x0 + (x1 + - x0))%Qc; [rewrite Hz|]; ring.
  - simpl. f_equal. unfold Qcdiv. ring.
Qed.

(** ** Increasing grids *)

Lemma increasing_cons x l :
  increasing (x :: l) = true ->
  (exists q, x = Fin q) /\ increasing l = true /\
  match l with
  | [] => True
  | y :: _ => nlt x y = true
  end.
Proof.
  simpl. intros H. apply andb_true_iff in H as [H Hl].
  apply andb_true_iff in H as [Hx Hn]. apply is_fin_Fin in Hx.
  destruct l; auto.
Qed.

Lemma increasing_above_head x l :
  increasing (x :: l) = true -> Forall (fun y => nlt x y = true) l.
Proof.
  revert x. induction l as [|y l IH]; intros x H; [constructor|].
  apply increasing_cons in H as ([q ->] & Hl & Hxy).
  pose proof (IH y Hl) as Hy.
  apply increasing_cons in Hl as ([r ->] & _ & _).
  constructor; [exact Hxy|].
  eapply Forall_impl; [exact Hy|]. intros z Hz. simpl in Hz.
  destruct z as [t| | |]; try discriminate.
  - apply nlt_fin. apply nlt_fin in Hxy, Hz. eapply Qclt_trans; eassumption.
  - reflexivity.
Qed.

Lemma increasing_last_not_below x l :
  increasing (x :: l) = true -> ngt x (default x (last (x :: l))) = false.
Proof.
  intros H. pose proof (increasing_above_head x l H) as Hall.
  apply increasing_cons in H as ([q ->] & _ & _).
  destruct l as [|y l]; simpl.
  - unfold ngt. simpl.
    assert (Hq : (q ?= q)%Qc = Eq) by (apply Qceq_alt; reflexivity).
    rewrite Hq. reflexivity.
  - destruct (last (y :: l)) as [z|] eqn:Hz.
    + apply last_Some_elem_of in Hz.
      rewrite Forall_forall in Hall. specialize (Hall _ Hz).
      change (last (Fin q :: y :: l)) with (last (y :: l)).
      simpl. revert Hall. unfold nlt, ngt.
      destruct (ncmp (Fin q) z) as [[| |]|]; congruence.
    + apply last_None in Hz. discriminate.
Qed.

(** ** Piecewise-linear interpolation of rationals *)

Lemma Qc_sub_ne x0 x1 : x0 <> x1 -> Qc_eqb (x1 + - x0) (Q2Qc 0) = false.
Proof.
  intros Hne. destruct (Qc_eqb _ _) eqn:Hz; [|reflexivity].
  apply Qc_eqb_eq in Hz. exfalso. apply Hne.
  transitivity (x0 + (x1 + - x0))%Qc; [rewrite Hz|]; ring.
Qed.

Lemma lin_fin x0 y0 x1 y1 x :
  x0 <> x1 ->
  lin (Fin x0) (Fin y0) (Fin x1) (Fin y1) (Fin x) = Fin (linq x0 y0 x1 y1 x).
Proof.
  intros Hne. unfold lin, linq. simpl. rewrite (Qc_sub_ne _ _ Hne). reflexivity.
Qed.


Lemma Qcinv_pos (d : Qc) : (0 < d)%Qc -> (0 < / d)%Qc.
Proof.
  intros H. qc2q. apply Qinv_lt_0_compat. exact H.
Qed.


Lemma linq_mono x0 y0 x1 y1 x x' :
  (x0 < x1)%Qc -> (y0 <= y1)%Qc -> (x <= x')%Qc ->
  (linq x0 y0 x1 y1 x <= linq x0 y0 x1 y1 x')%Qc.
Proof.
  intros H01 Hy Hx. unfold linq, Qcdiv.
  assert (Hw : (0 < / (x1 + - x0))%Qc).
  { apply Qcinv_pos. qc2q. lra. }
  set (w := (/ (x1 + - x0))%Qc) in *. clearbody w.
  qc2q.
  assert (H1 : (0 <= (x' + - x) * w)%Q) by nra.
  assert (H2 : (0 <= (x' + - x) * w * (y1 + - y0))%Q).
  { apply Qmult_le_0_compat; [exact H1 | lra]. }
  nra.
Qed.

Lemma linq_lower x0 y0 x1 y1 x :
  (x0 < x1)%Qc -> (y0 <= y1)%Qc -> (x0 <= x)%Qc ->
  (y0 <= linq x0 y0 x1 y1 x)%Qc.
Proof.
  intros H01 Hy Hx. unfold linq, Qcdiv.
  assert (Hw : (0 < / (x1 + - x0))%Qc).
  { apply Qcinv_pos. qc2q. lra. }
  set (w := (/ (x1 + - x0))%Qc) in *. clearbody w.
  qc2q.
  assert (H1 : (0 <= (x + - x0) * w)%Q) by nra.
  assert (H2 : (0 <= (x + - x0) * w * (y1 + - y0))%Q).
  { apply Qmult_le_0_compat; [exact H1 | lra]. }
  nra.
Qed.

Lemma linq_upper x0 y0 x1 y1 x :
  (x0 < x1)%Qc -> (y0 <= y1)%Qc -> (x <= x1)%Qc ->
  (linq x0 y0 x1 y1 x <= y1)%Qc.
Proof.
  intros H01 Hy Hx. unfold linq, Qcdiv.
  assert (Hd : ((x1 + - x0) * / (x1 + - x0) = 1)%Qc).
  { apply Qcmult_inv_r. intros Hz.
    assert (x1 = x0) by (transitivity (x0 + (x1 + - x0))%Qc; [ring | rewrite Hz; ring]).
    subst. eapply Qclt_not_eq; [exact H01|reflexivity]. }
  assert (Hw : (0 < / (x1 + - x0))%Qc).
  { apply Qcinv_pos. qc2q. lra. }
  set (w := (/ (x1 + - x0))%Qc) in *. clearbody w.
  assert (Hd' : (this ((x1 + - x0) * w)%Qc == this 1%Qc)%Q)
    by (rewrite Hd; reflexivity).
  clear Hd. qc2q.
  assert (H1 : (0 <= (x1 + - x) * w)%Q) by nra.
  assert (H2 : (0 <= (x1 + - x) * w * (y1 + - y0))%Q).
  { apply Qmult_le_0_compat; [exact H1 | lra]. }
  nra.
Qed.

Lemma nondecreasing_cons x l :
  nondecreasing (x :: l) = true ->
  (exists q, x = Fin q) /\ nondecreasing l = true /\
  match l with
  | [] => True
  | y :: _ => nle x y = true
  end.
Proof.
  simpl. intros H. apply andb_true_iff in H as [H Hl].
  apply andb_true_iff in H as [Hx Hn]. apply is_fin_Fin in Hx.
  destruct l; auto.
Qed.

Lemma nle_false_fin a b : nle (Fin a) (Fin b) = false -> (b < a)%Qc.
Proof.
  intros H. apply Qcnot_le_lt. intros Hle. apply nle_fin in Hle. congruence.
Qed.

Lemma interp_from_lower xs : forall ys x0 y0 x,
  increasing (Fin x0 :: xs) = true ->
  nondecreasing (Fin y0 :: ys) = true ->
  length xs = length ys ->
  (x0 <= x)%Qc ->
  exists v, interp_from (Fin x0) (Fin y0) xs ys (Fin x) = Fin v /\ (y0 <= v)%Qc.
Proof.
  induction xs as [|x1 xs IH]; intros ys x0 y0 x Hi Hn Hl Hx.
  - exists y0. split; [reflexivity | apply Qcle_refl].
  - destruct ys as [|y1 ys]; [discriminate|].
    apply increasing_cons in Hi as (_ & Hi & H01).
    apply nondecreasing_cons in Hn as (_ & Hn & Hy).
    pose proof Hi as Hi'. pose proof Hn as Hn'.
    apply increasing_cons in Hi' as ([q1 ->] & _ & _).
    apply nondecreasing_cons in Hn' as ([r1 ->] & _ & _).
    apply nlt_fin in H01. apply nle_fin in Hy.
    assert (Hne : x0 <> q1) by (apply Qclt_not_eq; exact H01).
    assert (Hlin : exists v, lin (Fin x0) (Fin y0) (Fin q1) (Fin r1) (Fin x)
                             = Fin v /\ (y0 <= v)%Qc).
    { eexists. split; [apply lin_fin; exact Hne|].
      apply linq_lower; assumption. }
    cbn [interp_from]. destruct xs as [|x2 xs']; [exact Hlin|].
    destruct (nle (Fin x) (Fin q1)) eqn:Hle; [exact Hlin|].
    apply nle_false_fin in Hle.
    destruct (IH ys q1 r1 x Hi Hn) as (v & Hv & Hrv).
    { simpl in Hl |- *. lia. }
    { apply Qclt_le_weak. exact Hle. }
    exists v. split; [exact Hv|]. eapply Qcle_trans; eassumption.
Qed.

Lemma interp_from_mono xs : forall ys x0 y0 x x',
  increasing (Fin x0 :: xs) = true ->
  nondecreasing (Fin y0 :: ys) = true ->
  length xs = length ys ->
  (x0 <= x)%Qc -> (x <= x')%Qc ->
  exists v v',
    interp_from (Fin x0) (Fin y0) xs ys (Fin x) = Fin v /\
    interp_from (Fin x0) (Fin y0) xs ys (Fin x') = Fin v' /\
    (v <= v')%Qc.
Proof.
  induction xs as [|x1 xs IH]; intros ys x0 y0 x x' Hi Hn Hl Hx Hxx.
  - exists y0, y0. split; [reflexivity|]. split; [reflexivity|].
    apply Qcle_refl.
  - destruct ys as [|y1 ys]; [discriminate|].
    pose proof Hi as Hi0. pose proof Hn as Hn0.
    apply increasing_cons in Hi as (_ & Hi & H01).
    apply nondecreasing_cons in Hn as (_ & Hn & Hy).
    pose proof Hi as Hi'. pose proof Hn as Hn'.
    apply increasing_cons in Hi' as ([q1 ->] & _ & _).
    apply nondecreasing_cons in Hn' as ([r1 ->] & _ & _).
    apply nlt_fin in H01. apply nle_fin in Hy.
    assert (Hne : x0 <> q1) by (apply Qclt_not_eq; exact H01).
    assert (Hlin : forall z, lin (Fin x0) (Fin y0) (Fin q1) (Fin r1) (Fin z)
                             = Fin (linq x0 y0 q1 r1 z))
      by (intros z; apply lin_fin; exact Hne).
    cbn [interp_from]. destruct xs as [|x2 xs'].
    { exists (linq x0 y0 q1 r1 x), (linq x0 y0 q1 r1 x').
      rewrite !Hlin. split; [reflexivity|]. split; [reflexivity|].
      apply linq_mono; assumption. }
    assert (Hl' : length (x2 :: xs') = length ys)
      by (simpl in Hl |- *; lia).
    destruct (nle (Fin x) (Fin q1)) eqn:Hle;
      destruct (nle (Fin x') (Fin q1)) eqn:Hle'.
    + exists (linq x0 y0 q1 r1 x), (linq x0 y0 q1 r1 x').
      rewrite !Hlin. split; [reflexivity|]. split; [reflexivity|].
      apply linq_mono; assumption.
    + apply nle_fin in Hle. apply nle_false_fin in Hle'.
      destruct (interp_from_lower (x2 :: xs') ys q1 r1 x' Hi Hn Hl')
        as (v' & Hv' & Hrv').
      { apply Qclt_le_weak. exact Hle'. }
      exists (linq x0 y0 q1 r1 x), v'. rewrite Hlin.
      split; [reflexivity|]. split; [exact Hv'|].
      eapply Qcle_trans; [|exact Hrv']. apply linq_upper; assumption.
    + apply nle_false_fin in Hle. apply nle_fin in Hle'.
      exfalso. apply (Qclt_not_le _ _ Hle). eapply Qcle_trans; eassumption.
    + apply nle_false_fin in Hle.
      apply (IH ys q1 r1 x x' Hi Hn Hl'); [|exact Hxx].
      apply Qclt_le_weak. exact Hle.
Qed.

Lemma interpolated_in_unit (b t s1 s2 : Qc) :
  (0 <= b)%Qc -> (t <= 0)%Qc -> (b <> 0 \/ t <> 0)%Qc ->
  (0 <= s1)%Qc -> (s1 <= 1)%Qc -> (0 <= s2)%Qc -> (s2 <= 1)%Qc ->
  exists v, interpolated (Fin b) (Fin t) (Fin s1) (Fin s2) = Fin v /\
            (0 <= v)%Qc /\ (v <= 1)%Qc.
Proof.
  intros Hb Ht Hnz H1 H2 H3 H4.
  assert (Hd : (t + - b < 0)%Qc).
  { destruct Hnz as [Hnz|Hnz].
    - assert (0 < b)%Qc by (apply Qcle_lt_or_eq in Hb as [?|?]; [assumption|congruence]).
      qc2q. lra.
    - assert (t < 0)%Qc by (apply Qcle_lt_or_eq in Ht as [?|?]; [assumption|congruence]).
      qc2q. lra. }
  assert (Hne : b <> t).
  { intros ->. qc2q. lra. }
  unfold interpolated. simpl. rewrite (Qc_sub_ne _ _ Hne). simpl.
  eexists. split; [reflexivity|].
  assert (Hdw : ((t + - b) * / (t + - b) = 1)%Qc).
  { apply Qcmult_inv_r. intros Hz. rewrite Hz in Hd.
    eapply Qclt_not_eq; [exact Hd | reflexivity]. }
  unfold Qcdiv.
  set (w := (/ (t + - b))%Qc) in *. clearbody w.
  assert (Hd' : (this ((t + - b) * w)%Qc == this 1%Qc)%Q)
    by (rewrite Hdw; reflexivity).
  clear Hdw. qc2q.
  assert (Hw : (w < 0)%Q) by nra.
  assert (Hu0 : (0 <= t * w)%Q) by nra.
  assert (Hu1 : (t * w <= 1)%Q) by nra.
  set (u := (t * w)%Q) in *. clearbody u.
  split; nra.
Qed.

Lemma in_unit_fin s :
  in_unit_interval s = true <->
  exists q, s = Fin q /\ (0 <= q)%Qc /\ (q <= 1)%Qc.
Proof.
  unfold in_unit_interval. rewrite andb_true_iff. split.
  - intros [H0 H1]. destruct s as [q| | |]; try discriminate.
    exists q. split; [reflexivity|]. split; apply nle_fin; assumption.
  - intros (q & -> & H0 & H1). split; apply nle_fin; assumption.
Qed.

(** The share interpolated at a regular bracket lies between the two grid
    shares, hence in [0,1]. *)
Lemma interpolated_share_in_unit bot_f top_f bot_s top_s :
  nge bot_f zero = true -> nle top_f zero = true ->
  is_fin bot_f && is_fin top_f && negb (neqb bot_f zero && neqb top_f zero)
  = true ->
  in_unit_interval bot_s = true -> in_unit_interval top_s = true ->
  in_unit_interval (interpolated bot_f top_f bot_s top_s) = true.
Proof.
  intros Hb Ht Hreg Hbs Hts.
  apply andb_true_iff in Hreg as [Hfin Hnz].
  apply andb_true_iff in Hfin as [Hfb Hft].
  apply is_fin_Fin in Hfb as [b ->]. apply is_fin_Fin in Hft as [t ->].
  apply in_unit_fin in Hbs as (s1 & -> & H1 & H2).
  apply in_unit_fin in Hts as (s2 & -> & H3 & H4).
  apply nge_fin in Hb. apply nle_fin in Ht.
  assert (Hnz' : b <> Q2Qc 0 \/ t <> Q2Qc 0).
  { apply negb_true_iff, andb_false_iff in Hnz as [Hz|Hz].
    - left. intros ->. revert Hz. change (Fin (Q2Qc 0)) with zero.
      rewrite neqb_zero_zero. discriminate.
    - right. intros ->. revert Hz. change (Fin (Q2Qc 0)) with zero.
      rewrite neqb_zero_zero. discriminate. }
  destruct (interpolated_in_unit b t s1 s2 Hb Ht Hnz' H1 H2 H3 H4)
    as (v & -> & Hv0 & Hv1).
  apply in_unit_fin. eauto.
Qed.

(** ** Exceptions of the function objects *)

Lemma func_nested_ind (P : func -> Prop) :
  P NullFunc ->
  (forall i n, P (IdentityFunction i n)) ->
  (forall v, P (ConstantFunction v)) ->
  (forall xl yl il sl, P (LinearInterp xl yl il sl)) ->
  (forall fs ys, Forall P fs -> P (LinearInterpOnInterp1D fs ys)) ->
  (forall c g, P c -> P (MargValueFunc c g)) ->
  (forall c g, P c -> P (ValueFunc c g)) ->
  (forall c g, P c -> P (MargValueFunc2D c g)) ->
  (forall c g, P c -> P (ValueFunc2D c g)) ->
  forall f, P f.
Proof.
  intros HNull HId HConst HLin HOn HMV HV HMV2 HV2.
  fix IH 1. intros [ | i n | v | xl yl il sl | fs ys | c g | c g | c g | c g].
  - exact HNull.
  - apply HId.
  - apply HConst.
  - apply HLin.
  - apply HOn. revert fs. fix IHl 1. intros [|g fs].
    + constructor.
    + constructor; [apply IH | apply IHl].
  - apply HMV, IH.
  - apply HV, IH.
  - apply HMV2, IH.
  - apply HV2, IH.
Qed.

(** An outcome other than the borrowing-constraint error. *)
Definition not_boro {A} (o : outcome A) : Prop :=
  o <> Raise AttributeError_BoroCnstArt.

Lemma not_boro_ok {A} (a : A) : not_boro (Ok a).
Proof. discriminate. Qed.

Lemma not_boro_bind {A B} (m : outcome A) (k : A -> outcome B) :
  not_boro m -> (forall a, not_boro (k a)) -> not_boro (obind m k).
Proof.
  intros Hm Hk. destruct m as [a|e]; simpl; [apply Hk|].
  intros [= ->]. apply Hm. reflexivity.
Qed.

Lemma not_boro_mapM {A B} (f : A -> outcome B) (l : list A) :
  (forall a, not_boro (f a)) -> not_boro (mapM_out f l).
Proof.
  intros Hf. induction l as [|a l IH]; simpl.
  - apply not_boro_ok.
  - apply not_boro_bind; [apply Hf|]. intros b.
    apply not_boro_bind; [apply IH|]. intros bs. apply not_boro_ok.
Qed.

Lemma Ok_inj {A} (a b : A) : Ok a = Ok b -> a = b.
Proof. congruence. Qed.

(** ** Shapes *)

Lemma mapM_out_Forall2 {A B} (f : A -> outcome B) l l' :
  mapM_out f l = Ok l' <-> Forall2 (fun a b => f a = Ok b) l l'.
Proof.
  revert l'. induction l as [|a l IH]; intros l'; simpl.
  - split; [intros [= <-]; constructor | intros H; inversion H; reflexivity].
  - destruct (f a) as [b|e] eqn:Hfa; simpl.
    + destruct (mapM_out f l) as [bs|e] eqn:Hm; simpl.
      * split.
        -- intros [= <-]. constructor; [exact Hfa | apply IH; reflexivity].
        -- intros H. inversion H as [|? b' ? bs' Hb Hbs]; subst.
           apply IH in Hbs. congruence.
      * split; [discriminate|]. intros H.
        inversion H as [|? b' ? bs' Hb Hbs]; subst.
        apply IH in Hbs. discriminate.
    + split; [discriminate|]. intros H.
      inversion H as [|? b' ? bs' Hb Hbs]; subst. congruence.
Qed.

Lemma mapM_out_length {A B} (f : A -> outcome B) l l' :
  mapM_out f l = Ok l' -> length l' = length l.
Proof.
  intros H. apply mapM_out_Forall2 in H. symmetry.
  eapply Forall2_length, H.
Qed.

Lemma mapM_out_lookup {A B} (f : A -> outcome B) l l' i a :
  mapM_out f l = Ok l' -> l !! i = Some a ->
  exists b, l' !! i = Some b /\ f a = Ok b.
Proof.
  intros H Hi. apply mapM_out_Forall2 in H.
  destruct (Forall2_lookup_l _ _ _ _ _ H Hi) as (b & Hb & Hf). eauto.
Qed.

Lemma shape2_map2d {A B} (f : A -> B) n m X :
  shape2 n m X -> shape2 n m (map2d f X).
Proof.
  intros [Hn Hm]. split.
  - unfold map2d. rewrite length_fmap. exact Hn.
  - unfold map2d. apply Forall_fmap. eapply Forall_impl; [exact Hm|].
    intros row Hr. simpl. rewrite length_fmap. exact Hr.
Qed.

Lemma shape2_zip {A B C} (g : A -> B -> C) n m X Y :
  shape2 n m X -> shape2 n m Y ->
  shape2 n m (zip_with (zip_with g) X Y).
Proof.
  intros [HnX HmX] [HnY HmY]. split.
  - rewrite length_zip_with. lia.
  - apply Forall_lookup. intros i row Hi.
    apply lookup_zip_with_Some in Hi as (x & y & -> & Hx & Hy).
    rewrite length_zip_with.
    rewrite Forall_lookup in HmX. rewrite Forall_lookup in HmY.
    rewrite (HmX _ _ Hx), (HmY _ _ Hy). lia.
Qed.

Lemma shape2_mapM {A B} (g : A -> outcome B) n m X Y :
  mapM_out (mapM_out g) X = Ok Y -> shape2 n m X -> shape2 n m Y.
Proof.
  intros H [Hn Hm]. split.
  - rewrite (mapM_out_length _ _ _ H). exact Hn.
  - apply Forall_lookup. intros i row Hi.
    apply mapM_out_Forall2 in H.
    destruct (Forall2_lookup_r _ _ _ _ _ H Hi) as (x & Hx & Hg).
    rewrite (mapM_out_length _ _ _ Hg).
    rewrite Forall_lookup in Hm. eauto.
Qed.

Lemma shape2_replicate {A} n m (row : list A) :
  length row = m -> shape2 n m (replicate n row).
Proof.
  intros Hr. split; [apply length_replicate|].
  apply Forall_replicate. exact Hr.
Qed.

(** ** The search for the bracketing pair *)

Lemma argwhere_last_from_spec (c : list bool) : forall i found,
  (argwhere_last_from i c found = found /\
   forall k, c !! k <> Some true) \/
  (exists k, argwhere_last_from i c found = Some (i + k) /\
             c !! k = Some true /\
             forall k', k < k' -> c !! k' <> Some true).
Proof.
  induction c as [|b c IH]; intros i found; simpl.
  - left. split; [reflexivity|]. intros k. rewrite lookup_nil. discriminate.
  - destruct (IH (S i) (if b then Some i else found))
      as [[Heq Hno] | (k & Heq & Hk & Hlast)].
    + destruct b.
      * right. exists 0. rewrite Heq, Nat.add_0_r.
        split; [reflexivity|]. split; [reflexivity|].
        intros [|k'] Hlt; [lia|]. simpl. apply Hno.
      * left. split; [exact Heq|]. intros [|k]; simpl; [discriminate|].
        apply Hno.
    + right. exists (S k). rewrite Heq. split; [f_equal; lia|].
      split; [exact Hk|]. intros [|k'] Hlt; [lia|]. simpl.
      apply Hlast. lia.
Qed.

Lemma argwhere_last_Some c idx :
  argwhere_last c = Some idx <->
  c !! idx = Some true /\ forall k, idx < k -> c !! k <> Some true.
Proof.
  unfold argwhere_last.
  destruct (argwhere_last_from_spec c 0 None)
    as [[Heq Hno] | (k & Heq & Hk & Hlast)]; rewrite Heq; simpl.
  - split; [discriminate|]. intros [H _]. exfalso. eapply Hno, H.
  - split.
    + intros [= <-]. split; assumption.
    + intros [H1 H2]. f_equal.
      destruct (Nat.lt_trichotomy k idx) as [Hlt|[->|Hlt]]; [|reflexivity|].
      * exfalso. eapply Hlast; eassumption.
      * exfalso. eapply H2; eassumption.
Qed.

Lemma argwhere_last_None c :
  argwhere_last c = None <-> forall k, c !! k <> Some true.
Proof.
  unfold argwhere_last.
  destruct (argwhere_last_from_spec c 0 None)
    as [[Heq Hno] | (k & Heq & Hk & Hlast)]; rewrite Heq; simpl.
  - split; auto.
  - split; [discriminate|]. intros H. exfalso. eapply H, Hk.
Qed.

Lemma crossing_row_true row idx :
  crossing_row row !! idx = Some true <-> crossing_at row idx.
Proof.
  unfold crossing_row, crossing_at. rewrite lookup_zip_with_Some.
  setoid_rewrite lookup_tail. split.
  - intros (hi & lo & Hb & Hhi & Hlo). symmetry in Hb.
    apply andb_true_iff in Hb as [H1 H2]. exists lo, hi. auto.
  - intros (lo & hi & Hlo & Hhi & H1 & H2). exists hi, lo.
    rewrite H1, H2. auto.
Qed.

Lemma highest_crossing_argwhere row idx :
  argwhere_last (crossing_row row) = Some idx <-> highest_crossing row idx.
Proof.
  rewrite argwhere_last_Some. unfold highest_crossing.
  rewrite crossing_row_true. split.
  - intros [H1 H2]. split; [exact H1|]. intros i Hi Hc.
    apply crossing_row_true in Hc. eapply H2; eassumption.
  - intros [H1 H2]. split; [exact H1|]. intros k Hk Hc.
    apply crossing_row_true in Hc. eapply H2; eassumption.
Qed.

Lemma no_crossing_argwhere row :
  argwhere_last (crossing_row row) = None <->
  forall idx, ~ crossing_at row idx.
Proof.
  rewrite argwhere_last_None. split.
  - intros H idx Hc. apply crossing_row_true in Hc. eapply H, Hc.
  - intros H k Hc. apply crossing_row_true in Hc. eapply H, Hc.
Qed.

(** The body of the [try] succeeds exactly when a bracketing pair exists,
    and then interpolates at the pair of the highest share. *)
Lemma interior_controls_Some SG row nrow idx :
  length SG = length row -> length nrow = length row ->
  highest_crossing row idx ->
  exists bot_s top_s bot_f top_f bot_c top_c,
    SG !! idx = Some bot_s /\ SG !! S idx = Some top_s /\
    row !! idx = Some bot_f /\ row !! S idx = Some top_f /\
    nrow !! idx = Some bot_c /\ nrow !! S idx = Some top_c /\
    interior_controls SG row nrow
    = Some (interpolated bot_f top_f bot_s top_s,
            interpolated bot_f top_f bot_c top_c).
Proof.
  intros HSG Hn Hc. pose proof Hc as [(lo & hi & Hlo & Hhi & _) _].
  apply highest_crossing_argwhere in Hc.
  assert (Hlt : S idx < length row) by (eapply lookup_lt_Some, Hhi).
  destruct (lookup_lt_is_Some_2 SG idx) as [bot_s Hbs]; [lia|].
  destruct (lookup_lt_is_Some_2 SG (S idx)) as [top_s Hts]; [lia|].
  destruct (lookup_lt_is_Some_2 nrow idx) as [bot_c Hbc]; [lia|].
  destruct (lookup_lt_is_Some_2 nrow (S idx)) as [top_c Htc]; [lia|].
  exists bot_s, top_s, lo, hi, bot_c, top_c.
  repeat (split; [assumption|]).
  unfold interior_controls. rewrite Hc. simpl.
  rewrite Hbs. simpl. rewrite Hts. simpl. rewrite Hlo. simpl.
  rewrite Hhi. simpl. rewrite Hbc. simpl. rewrite Htc. simpl.
  reflexivity.
Qed.

Lemma interior_controls_None SG row nrow :
  (forall idx, ~ crossing_at row idx) ->
  interior_controls SG row nrow = None.
Proof.
  intros H. apply no_crossing_argwhere in H.
  unfold interior_controls. rewrite H. reflexivity.
Qed.

(** ** The loop over the asset grid *)

Section Loop.

Variables aX SG : arr1.
Variable E : EndOfPrd_t.

Let body := share_loop_body aX SG E.

Lemma body_length st j :
  length (Share_now (body st j)) = length (Share_now st) /\
  length (cNrmAdj_now (body st j)) = length (cNrmAdj_now st).
Proof.
  unfold body, share_loop_body.
  destruct (Share_now st !! j) as [sh|]; [|auto].
  destruct (neqb sh zero); [|auto].
  destruct (_ ≫= _) as [[share c]|]; simpl; [|auto].
  rewrite !length_insert. auto.
Qed.

Lemma body_other st i j :
  i <> j ->
  Share_now (body st i) !! j = Share_now st !! j /\
  cNrmAdj_now (body st i) !! j = cNrmAdj_now st !! j.
Proof.
  intros Hne. unfold body, share_loop_body.
  destruct (Share_now st !! i) as [sh|]; [|auto].
  destruct (neqb sh zero); [|auto].
  destruct (_ ≫= _) as [[share c]|]; simpl; [|auto].
  rewrite !list_lookup_insert_ne by assumption. auto.
Qed.

Lemma body_here st j :
  length (cNrmAdj_now st) = length (Share_now st) ->
  Share_now (body st j) !! j = final_share SG E st j /\
  cNrmAdj_now (body st j) !! j = final_cNrm SG E st j /\
  stdout (body st j) = stdout st ++ option_list (printed aX SG E st j).
Proof.
  intros Hlen.
  unfold body, share_loop_body, final_share, final_cNrm, printed, searched,
    found.
  destruct (Share_now st !! j) as [sh|] eqn:Hsh;
    [|rewrite app_nil_r; auto].
  destruct (neqb sh zero); [|rewrite app_nil_r; auto].
  pose proof (lookup_lt_Some _ _ _ Hsh) as Hlt.
  destruct (_ ≫= _) as [[share c]|]; simpl.
  - rewrite !list_lookup_insert_eq by lia. rewrite app_nil_r. auto.
  - auto.
Qed.

Lemma searched_other st i j :
  i <> j -> searched (body st i) j = searched st j.
Proof.
  intros Hne. unfold searched.
  destruct (body_other st i j Hne) as [-> _]. reflexivity.
Qed.

Lemma loop_spec (l : list nat) : forall st,
  NoDup l ->
  length (cNrmAdj_now st) = length (Share_now st) ->
  let st' := foldl body st l in
  (forall j, Share_now st' !! j
             = if decide (j ∈ l) then final_share SG E st j
               else Share_now st !! j) /\
  (forall j, cNrmAdj_now st' !! j
             = if decide (j ∈ l) then final_cNrm SG E st j
               else cNrmAdj_now st !! j) /\
  stdout st' = stdout st ++ omap (printed aX SG E st) l.
Proof.
  induction l as [|i l IH]; intros st Hnd Hlen; simpl.
  - repeat split; try reflexivity. rewrite app_nil_r. reflexivity.
  - apply NoDup_cons in Hnd as [Hi Hnd].
    destruct (body_length st i) as [HlS Hlc].
    destruct (IH (body st i) Hnd ltac:(lia)) as (HS & Hc & Hout).
    destruct (body_here st i Hlen) as (HhS & Hhc & Hhout).
    assert (Hsame : forall j, j <> i ->
              final_share SG E (body st i) j = final_share SG E st j /\
              final_cNrm SG E (body st i) j = final_cNrm SG E st j /\
              printed aX SG E (body st i) j = printed aX SG E st j).
    { intros j Hj. unfold final_share, final_cNrm, printed.
      rewrite (searched_other st i j) by auto.
      destruct (body_other st i j ltac:(auto)) as [-> ->]. auto. }
    split; [|split].
    + intros j. rewrite HS.
      destruct (decide (j = i)) as [->|Hne].
      * rewrite decide_False by assumption.
        rewrite decide_True by (left). exact HhS.
      * destruct (Hsame j Hne) as (-> & _ & _).
        destruct (body_other st i j ltac:(auto)) as [-> _].
        destruct (decide (j ∈ l)) as [Hin|Hnin].
        -- rewrite decide_True by (right; exact Hin). reflexivity.
        -- rewrite decide_False; [reflexivity|].
           intros [?|?]%elem_of_cons; contradiction.
    + intros j. rewrite Hc.
      destruct (decide (j = i)) as [->|Hne].
      * rewrite decide_False by assumption.
        rewrite decide_True by (left). exact Hhc.
      * destruct (Hsame j Hne) as (_ & -> & _).
        destruct (body_other st i j ltac:(auto)) as [_ ->].
        destruct (decide (j ∈ l)) as [Hin|Hnin].
        -- rewrite decide_True by (right; exact Hin). reflexivity.
        -- rewrite decide_False; [reflexivity|].
           intros [?|?]%elem_of_cons; contradiction.
    + rewrite Hout, Hhout, <- app_assoc. f_equal.
      assert (Hom : omap (printed aX SG E (body st i)) l
                    = omap (printed aX SG E st) l).
      { clear -Hi Hsame. induction l as [|k l IHl]; [reflexivity|].
        simpl. apply not_elem_of_cons in Hi as [Hk Hi].
        destruct (Hsame k ltac:(auto)) as (_ & _ & ->).
        destruct (printed aX SG E st k); [f_equal|]; apply (IHl Hi). }
      rewrite Hom.
      destruct (printed aX SG E st i); reflexivity.
Qed.

Lemma loop_length (l : list nat) : forall st,
  length (Share_now (foldl body st l)) = length (Share_now st) /\
  length (cNrmAdj_now (foldl body st l)) = length (cNrmAdj_now st).
Proof.
  induction l as [|i l IH]; intros st; simpl; [auto|].
  destruct (IH (body st i)) as [-> ->]. apply body_length.
Qed.

End Loop.

(** ** Arrays of one shape *)

Lemma Forall2_zip_with_r {A B C D} (P : A -> D -> Prop) (P1 : A -> B -> Prop)
    (P2 : A -> C -> Prop) (f : B -> C -> D) l k1 k2 :
  (forall a b c, P1 a b -> P2 a c -> P a (f b c)) ->
  Forall2 P1 l k1 -> Forall2 P2 l k2 -> Forall2 P l (zip_with f k1 k2).
Proof.
  intros Hf H1. revert k2. induction H1 as [|a b l k1 Hab _ IH]; intros k2 H2.
  - inversion H2. constructor.
  - inversion H2 as [|? c ? k2' Hac H2']; subst. simpl.
    constructor; [eapply Hf; eassumption | apply IH; assumption].
Qed.

Lemma Forall2_map_r {A B C} (P : A -> C -> Prop) (P1 : A -> B -> Prop)
    (g : B -> C) l k :
  (forall a b, P1 a b -> P a (g b)) ->
  Forall2 P1 l k -> Forall2 P l (map g k).
Proof.
  intros Hg H. induction H as [|a b l k Hab _ IH]; simpl; constructor; auto.
Qed.

Lemma Forall2_mapM {A B} (P : A -> B -> Prop) (g : A -> outcome B) l k :
  (forall a b, g a = Ok b -> P a b) ->
  mapM_out g l = Ok k -> Forall2 P l k.
Proof.
  intros Hg H. apply mapM_out_Forall2 in H.
  eapply Forall2_impl; [exact H|]. exact Hg.
Qed.

Lemma same3_refl {A} (X : list (list (list A))) : same3 X X.
Proof.
  unfold same3. apply Forall_Forall2_diag, Forall_forall. intros r _.
  apply Forall_Forall2_diag, Forall_forall. reflexivity.
Qed.

Lemma same3_sym {A B} (X : list (list (list A))) (Y : list (list (list B))) :
  same3 X Y -> same3 Y X.
Proof.
  unfold same3. intros H. apply Forall2_flip.
  eapply Forall2_impl; [exact H|]. intros r r' Hr. apply Forall2_flip.
  eapply Forall2_impl; [exact Hr|]. intros c c' Hc. symmetry. exact Hc.
Qed.

Lemma same3_trans {A B C} (X : list (list (list A)))
    (Y : list (list (list B))) (Z : list (list (list C))) :
  same3 X Y -> same3 Y Z -> same3 X Z.
Proof.
  unfold same3. intros H1. revert Z.
  induction H1 as [|r1 r2 X Y Hr _ IH]; intros Z H2.
  - inversion H2. constructor.
  - inversion H2 as [|? r3 ? Z' Hr' H2']; subst.
    constructor; [|apply IH; assumption].
    clear -Hr Hr'. revert r3 Hr'.
    induction Hr as [|c1 c2 r1 r2 Hc _ IHr]; intros r3 Hr'.
    + inversion Hr'. constructor.
    + inversion Hr' as [|? c3 ? r3' Hc' Hr'']; subst.
      constructor; [congruence | apply IHr; assumption].
Qed.

Lemma same3_map3d_r {A B C} (g : B -> C) (X : list (list (list A))) Y :
  same3 X Y -> same3 X (map3d g Y).
Proof.
  unfold same3, map3d. apply Forall2_map_r. intros r r'.
  apply Forall2_map_r. intros c c' Hc. rewrite length_fmap. exact Hc.
Qed.

Lemma same3_zip3d_r {A B C D} (f : B -> C -> D) (X : list (list (list A)))
    Y Z :
  same3 X Y -> same3 X Z -> same3 X (zip3d f Y Z).
Proof.
  unfold same3, zip3d. apply Forall2_zip_with_r. intros r r1 r2.
  apply Forall2_zip_with_r. intros c c1 c2 H1 H2.
  rewrite length_zip_with. lia.
Qed.

Lemma same3_mapM {A B} (g : A -> outcome B) X Y :
  mapM_out (mapM_out (mapM_out g)) X = Ok Y -> same3 X Y.
Proof.
  unfold same3. apply Forall2_mapM. intros r r'.
  apply Forall2_mapM. intros c c' Hc. symmetry.
  eapply mapM_out_length, Hc.
Qed.

(** With adjustment probability 1, blending with finite fixed-case values
    returns the adjusting-case values. *)
Lemma combine_one (adj fxd : arr3) :
  same3 adj fxd -> all_fin3 fxd -> combine one adj fxd = adj.
Proof.
  unfold same3, all_fin3, combine, zip3d, map3d. intros H.
  induction H as [|r r' X Y Hr _ IH]; intros HF; [reflexivity|].
  apply Forall_cons in HF as [HFr HF]. cbn [zip_with map]. f_equal; [|apply IH, HF].
  clear -Hr HFr. induction Hr as [|c c' r r' Hc _ IHr]; [reflexivity|].
  apply Forall_cons in HFr as [HFc HFr]. cbn [zip_with map]. f_equal; [|apply IHr, HFr].
  clear -Hc HFc. revert c' Hc HFc.
  induction c as [|a c IHc]; intros [|f c'] Hc HFc; try discriminate;
    [reflexivity|].
  apply Forall_cons in HFc as [Hf HFc]. cbn [zip_with map]. f_equal.
  - apply is_fin_Fin in Hf as [q ->].
    rewrite nmul_one_l, nsub_one_one, nmul_zero_fin, nadd_zero_r.
    reflexivity.
  - apply IHc; [simpl in Hc; lia | exact HFc].
Qed.

(** ** Computations that leave a part of the store alone *)

Section Safe.

Variable D : gset loc.

Lemma safe_weaken {A} (m : M A) (Q Q' : A -> state -> Prop) :
  safe D m Q -> (forall a σ, Q a σ -> Q' a σ) -> safe D m Q'.
Proof.
  intros Hm HQ σ HD. destruct (Hm σ HD) as [Hk Hp]. split; [exact Hk|].
  destruct (m σ).1; auto.
Qed.

Lemma safe_ret {A} (a : A) (Q : A -> state -> Prop) :
  (forall σ, Q a σ) -> safe D (mret a) Q.
Proof. intros HQ σ _. split; [reflexivity | apply HQ]. Qed.

Lemma safe_raise {A} (e : exn) (Q : A -> state -> Prop) : safe D (raise e) Q.
Proof. intros σ _. split; [reflexivity | exact I]. Qed.

Lemma safe_lift {A} (o : outcome A) : safe D (lift o) (fun _ _ => True).
Proof. intros σ _. split; [reflexivity|]. simpl. destruct o; exact I. Qed.

Lemma safe_bind {A B} (m : M A) (k : A -> M B) (Qp : A -> Prop)
    (R : B -> state -> Prop) :
  safe D m (fun a _ => Qp a) ->
  (forall a, Qp a -> safe D (k a) R) ->
  safe D (m ≫= k) R.
Proof.
  intros Hm Hk σ HD. destruct (Hm σ HD) as [Hkeep Hpost].
  unfold mbind, M_bind. destruct (m σ) as [[a|e] σ1]; simpl in *.
  - assert (HD1 : D ⊆ dom (heap σ1)).
    { intros l Hl. apply elem_of_dom. rewrite (Hkeep l Hl).
      apply elem_of_dom, HD, Hl. }
    destruct (Hk a Hpost σ1 HD1) as [Hkeep1 Hpost1].
    split; [|exact Hpost1].
    intros l Hl. rewrite (Hkeep1 l Hl). apply Hkeep, Hl.
  - split; [exact Hkeep | exact I].
Qed.

Lemma safe_alloc (o : object) :
  safe D (alloc o) (fun l σ => (l ∉ D) /\ heap σ !! l = Some o).
Proof.
  intros σ HD. unfold alloc. simpl.
  assert (Hf : fresh (dom (heap σ)) ∉ D).
  { intros Hin. apply (is_fresh (dom (heap σ))), HD, Hin. }
  split.
  - intros l Hl. apply lookup_insert_ne. intros <-. contradiction.
  - split; [exact Hf | apply lookup_insert_eq].
Qed.

Lemma safe_alloc_fresh (o : object) :
  safe D (alloc o) (fun l _ => l ∉ D).
Proof. eapply safe_weaken; [apply safe_alloc|]. intros l σ [H _]. exact H. Qed.

Lemma safe_get_attr l name : safe D (get_attr l name) (fun _ _ => True).
Proof.
  intros σ _. unfold get_attr.
  destruct (heap σ !! l) as [[| | |attrs]|]; simpl; auto.
  destruct (attrs !! name); simpl; auto.
Qed.

Lemma safe_get_func l : safe D (get_func l) (fun _ _ => True).
Proof.
  intros σ _. unfold get_func.
  destruct (heap σ !! l) as [[| | |]|]; simpl; auto.
Qed.

Lemma safe_get_array l : safe D (get_array l) (fun _ _ => True).
Proof.
  intros σ _. unfold get_array.
  destruct (heap σ !! l) as [[| | |]|]; simpl; auto.
Qed.

Lemma safe_get_list l : safe D (get_list l) (fun _ _ => True).
Proof.
  intros σ _. unfold get_list.
  destruct (heap σ !! l) as [[| | |]|]; simpl; auto.
Qed.

Lemma safe_get_item l i : safe D (get_item l i) (fun _ _ => True).
Proof.
  unfold get_item. eapply safe_bind; [apply safe_get_list|]. intros items _.
  destruct (items !! i); [apply safe_ret; auto | apply safe_raise].
Qed.

Lemma safe_get_index l i : safe D (get_index l i) (fun _ _ => True).
Proof.
  unfold get_index. eapply safe_bind; [apply safe_get_array|]. intros d _.
  destruct (d !! i); [apply safe_ret; auto | apply safe_raise].
Qed.

(** Writing into an object that is not one of [D]. *)
Lemma safe_set_index l i v :
  l ∉ D -> safe D (set_index l i v) (fun _ _ => True).
Proof.
  intros Hl σ _. unfold set_index.
  destruct (heap σ !! l) as [[d| | |]|]; simpl; auto.
  destruct (decide (i < length d)); simpl; auto.
  split; [|exact I]. intros l' Hl'. apply lookup_insert_ne.
  intros <-. contradiction.
Qed.

Lemma safe_list_append l r :
  l ∉ D -> safe D (list_append l r) (fun _ _ => True).
Proof.
  intros Hl σ _. unfold list_append.
  destruct (heap σ !! l) as [[| |items|]|]; simpl; auto.
  split; [|exact I]. intros l' Hl'. apply lookup_insert_ne.
  intros <-. contradiction.
Qed.

Lemma safe_print m : safe D (print m) (fun _ _ => True).
Proof. intros σ _. split; [reflexivity | exact I]. Qed.

Lemma safe_forM_ {A} (l : list A) (f : A -> M unit) :
  (forall x, safe D (f x) (fun _ _ => True)) ->
  safe D (forM_ l f) (fun _ _ => True).
Proof.
  intros Hf. induction l as [|x l IH]; simpl.
  - apply safe_ret. auto.
  - eapply safe_bind; [apply Hf|]. intros _ _. exact IH.
Qed.

Lemma safe_mapM_st {A B} (f : A -> M B) (l : list A) :
  (forall x, safe D (f x) (fun _ _ => True)) ->
  safe D (mapM_st f l) (fun _ _ => True).
Proof.
  intros Hf. induction l as [|x l IH]; simpl.
  - apply safe_ret. auto.
  - eapply safe_bind; [apply Hf|]. intros b _.
    eapply safe_bind; [exact IH|]. intros bs _. apply safe_ret. auto.
Qed.

Lemma safe_set_mask l mask vals :
  l ∉ D -> safe D (set_mask l mask vals) (fun _ _ => True).
Proof.
  intros Hl. unfold set_mask. apply safe_forM_. intros [j [b v]]. simpl.
  destruct b; [apply safe_set_index; exact Hl | apply safe_ret; auto].
Qed.

Lemma safe_new_LinearInterp x y il sl :
  safe D (new_LinearInterp x y il sl) (fun l _ => l ∉ D).
Proof.
  unfold new_LinearInterp.
  eapply safe_bind; [apply safe_get_array|]. intros xs _.
  eapply safe_bind; [apply safe_get_array|]. intros ys _.
  apply safe_alloc_fresh.
Qed.

Lemma safe_new_LinearInterpOnInterp1D fs ys :
  safe D (new_LinearInterpOnInterp1D fs ys) (fun l _ => l ∉ D).
Proof.
  unfold new_LinearInterpOnInterp1D.
  eapply safe_bind; [apply safe_get_list|]. intros items _.
  eapply safe_bind; [apply safe_mapM_st; intros; apply safe_get_func|].
  intros gs _.
  eapply safe_bind; [apply safe_get_array|]. intros y _.
  apply safe_alloc_fresh.
Qed.

Lemma safe_new_MargValueFunc c g :
  safe D (new_MargValueFunc c g) (fun l _ => l ∉ D).
Proof.
  unfold new_MargValueFunc.
  eapply safe_bind; [apply safe_get_func|]. intros f _.
  apply safe_alloc_fresh.
Qed.

Lemma safe_new_MargValueFunc2D c g :
  safe D (new_MargValueFunc2D c g) (fun l _ => l ∉ D).
Proof.
  unfold new_MargValueFunc2D.
  eapply safe_bind; [apply safe_get_func|]. intros f _.
  apply safe_alloc_fresh.
Qed.

Lemma safe_or_new_NullFunc arg :
  (forall r, arg = Some r -> r ∉ D) ->
  safe D (or_new_NullFunc arg) (fun l _ => l ∉ D).
Proof.
  intros Harg. destruct arg as [r|]; simpl.
  - apply safe_ret. intros _. apply Harg. reflexivity.
  - apply safe_alloc_fresh.
Qed.

(** The instance built by [PortfolioSolution(...)] is new, and so is every
    function object it refers to when the arguments given are. *)
Lemma safe_new_PortfolioSolution a1 a2 a3 a4 a5 a6 a7 a8 a9 :
  (forall r, r ∈ [a1; a2; a3; a4; a5; a6; a7; a8; a9] ->
             forall l, r = Some l -> l ∉ D) ->
  safe D (new_PortfolioSolution a1 a2 a3 a4 a5 a6 a7 a8 a9)
    (fun sol σ =>
       (sol ∉ D) /\
       exists attrs,
         heap σ !! sol = Some (Instance attrs) /\
         forall name r, attrs !! name = Some r -> r ∉ D).
Proof.
  intros Hargs. unfold new_PortfolioSolution.
  eapply safe_bind.
  { apply safe_or_new_NullFunc. apply Hargs. set_solver. }
  intros r1 H1. eapply safe_bind.
  { apply safe_or_new_NullFunc. apply Hargs. set_solver. }
  intros r2 H2. eapply safe_bind.
  { apply safe_or_new_NullFunc. apply Hargs. set_solver. }
  intros r3 H3. eapply safe_bind.
  { apply safe_or_new_NullFunc. apply Hargs. set_solver. }
  intros r4 H4. eapply safe_bind.
  { apply safe_or_new_NullFunc. apply Hargs. set_solver. }
  intros r5 H5. eapply safe_bind.
  { apply safe_or_new_NullFunc. apply Hargs. set_solver. }
  intros r6 H6. eapply safe_bind.
  { apply safe_or_new_NullFunc. apply Hargs. set_solver. }
  intros r7 H7. eapply safe_bind.
  { apply safe_or_new_NullFunc. apply Hargs. set_solver. }
  intros r8 H8. eapply safe_bind.
  { apply safe_or_new_NullFunc. apply Hargs. set_solver. }
  intros r9 H9.
  eapply safe_weaken; [apply safe_alloc|].
  intros sol σ [Hsol Hheap]. split; [exact Hsol|].
  eexists. split; [exact Hheap|].
  intros name r Hr.
  repeat (apply lookup_insert_Some in Hr as [[_ <-]|[_ Hr]]; [assumption|]).
  rewrite lookup_empty in Hr. discriminate.
Qed.

End Safe.

(** ** The solver leaves the store it is given alone *)

Section SolverFrame.

Variable pw : num -> num -> num.
Variable D : gset loc.

Ltac safe_read :=
  first [ apply safe_get_attr | apply safe_get_func | apply safe_get_array
        | apply safe_get_list | apply safe_get_item | apply safe_get_index
        | apply safe_lift | apply safe_print ].

Ltac safe_new :=
  first [ apply safe_alloc_fresh | apply safe_new_LinearInterp
        | apply safe_new_LinearInterpOnInterp1D | apply safe_new_MargValueFunc
        | apply safe_new_MargValueFunc2D ].

Ltac safe_write :=
  first [ apply safe_set_index | apply safe_set_mask
        | apply safe_list_append ]; assumption.

Lemma safe_unpack_solution_next solution_next :
  safe D (unpack_solution_next solution_next) (fun _ _ => True).
Proof.
  unfold unpack_solution_next.
  do 10 (eapply safe_bind; [safe_read|]; intros ? _).
  apply safe_ret. auto.
Qed.

Lemma safe_unpack_ShockDstn ShockDstn :
  safe D (unpack_ShockDstn ShockDstn) (fun _ _ => True).
Proof.
  unfold unpack_ShockDstn.
  do 8 (eapply safe_bind; [safe_read|]; intros ? _).
  apply safe_ret. auto.
Qed.

(** The loop over the asset levels writes into the two arrays that the
    solver has allocated, and prints. *)
Lemma safe_share_loop_st aX SG E Share_now cNrmAdj_now :
  Share_now ∉ D -> cNrmAdj_now ∉ D ->
  safe D (share_loop_st aX SG E Share_now cNrmAdj_now) (fun _ _ => True).
Proof.
  intros HS Hc. unfold share_loop_st. apply safe_forM_. intros j.
  eapply safe_bind; [safe_read|]. intros sh _.
  destruct (neqb sh zero); [|apply safe_ret; auto].
  destruct (found SG E j) as [[share c]|]; [|safe_read].
  eapply safe_bind; [safe_write|]. intros _ _. safe_write.
Qed.

(** The loop over the shares allocates its arrays and interpolants, and
    appends to the two lists that the solver has allocated. *)
Lemma safe_fixed_share_loop_st aX SG E cFuncFxd_by_Share dvdsFuncFxd_by_Share :
  cFuncFxd_by_Share ∉ D -> dvdsFuncFxd_by_Share ∉ D ->
  safe D (fixed_share_loop_st aX SG E cFuncFxd_by_Share dvdsFuncFxd_by_Share)
         (fun _ _ => True).
Proof.
  intros Hc Hd. unfold fixed_share_loop_st. apply safe_forM_. intros j.
  cbv zeta.
  eapply safe_bind; [safe_new|]. intros m0 _.
  eapply safe_bind; [safe_new|]. intros c0 _.
  eapply safe_bind; [safe_new|]. intros cFunc _.
  eapply safe_bind; [safe_write|]. intros _ _.
  eapply safe_bind; [safe_new|]. intros m1 _.
  eapply safe_bind; [safe_new|]. intros d1 _.
  eapply safe_bind; [safe_new|]. intros dvdsFunc _.
  safe_write.
Qed.

Lemma safe_solveConsPortfolio_st solution_next ShockDstn
    LivPrb DiscFac CRRA Rfree PermGroFac BoroCnstArt aXtraGrid ShareGrid
    vFuncBool AdjustPrb ShareLimit :
  safe D (solveConsPortfolio_st pw solution_next ShockDstn LivPrb DiscFac
            CRRA Rfree PermGroFac BoroCnstArt aXtraGrid ShareGrid vFuncBool
            AdjustPrb ShareLimit)
    (fun sol σ =>
       (sol ∉ D) /\
       exists attrs,
         heap σ !! sol = Some (Instance attrs) /\
         forall name r, attrs !! name = Some r -> r ∉ D).
Proof.
  unfold solveConsPortfolio_st.
  destruct (BoroCnstArt_ne_0 BoroCnstArt); [apply safe_raise|].
  eapply safe_bind; [apply safe_unpack_solution_next|]. intros sn _.
  eapply safe_bind; [apply safe_unpack_ShockDstn|]. intros sd _.
  eapply safe_bind; [safe_read|]. intros aX _.
  eapply safe_bind; [safe_read|]. intros SG _.
  eapply safe_bind; [safe_read|]. intros E _.
  eapply safe_bind; [safe_new|]. intros Share_now HShare.
  eapply safe_bind; [safe_new|]. intros cNrmAdj_now HcNrm.
  eapply safe_bind; [safe_read|]. intros FOC_last _.
  cbv zeta.
  eapply safe_bind; [safe_write|]. intros _ _.
  eapply safe_bind; [safe_write|]. intros _ _.
  eapply safe_bind; [safe_read|]. intros dvda_last _.
  eapply safe_bind; [safe_write|]. intros _ _.
  eapply safe_bind; [safe_read|]. intros dvda_0 _.
  eapply safe_bind; [safe_write|]. intros _ _.
  eapply safe_bind; [apply safe_share_loop_st; assumption|]. intros _ _.
  eapply safe_bind; [safe_read|]. intros cN _.
  eapply safe_bind; [safe_read|]. intros SN _.
  eapply safe_bind; [safe_new|]. intros mNrmAdj_now _.
  eapply safe_bind; [safe_new|]. intros cNrmAdj_now' _.
  eapply safe_bind; [safe_new|]. intros Share_now' _.
  eapply safe_bind; [safe_new|]. intros cFuncAdj_now HcAdj.
  eapply safe_bind; [safe_new|]. intros ShareFuncAdj_now HSAdj.
  eapply safe_bind; [safe_new|]. intros vPfuncAdj_now HvP.
  eapply safe_bind; [safe_new|]. intros cFuncFxd_by_Share Hcl.
  eapply safe_bind; [safe_new|]. intros dvdsFuncFxd_by_Share Hdl.
  eapply safe_bind; [apply safe_fixed_share_loop_st; assumption|].
  intros _ _.
  eapply safe_bind; [safe_new|]. intros cFuncFxd_now HcFxd.
  eapply safe_bind; [safe_new|]. intros dvdsFuncFxd_now HdFxd.
  eapply safe_bind; [safe_new|]. intros ShareFuncFxd_now HSFxd.
  eapply safe_bind; [safe_new|]. intros dvdmFuncFxd_now HmFxd.
  apply safe_new_PortfolioSolution.
  intros r Hr l ->.
  repeat (apply elem_of_cons in Hr as [Hr|Hr];
          [first [discriminate Hr | injection Hr as ->; assumption]|]).
  apply elem_of_nil in Hr. contradiction.
Qed.

End SolverFrame.

Section Properties.

Variable pw : num -> num -> num.

Lemma call_not_boro (f : func) : forall args, not_boro (call pw f args).
Proof.
  induction f using func_nested_ind; intros args; simpl.
  - discriminate.
  - destruct (args !! i); discriminate.
  - discriminate.
  - destruct args as [|? [|? ?]]; discriminate.
  - destruct args as [|x [|y [|? ?]]]; try discriminate.
    revert ys. induction H as [|f0 fs' Hf0 Hfs IH]; intros ys.
    + discriminate.
    + destruct ys as [|y0 ys']; [discriminate|].
      destruct Hfs as [|f1 fs'' Hf1 Hfs'']; [apply Hf0|].
      destruct ys' as [|y1 ys'']; [apply Hf0|].
      assert (Hhere : not_boro
                (v0 <-! call pw f0 [x] ;; v1 <-! call pw f1 [x] ;;
                 Ok (lin y0 v0 y1 v1 y))).
      { apply not_boro_bind; [apply Hf0|]. intros v0.
        apply not_boro_bind; [apply Hf1|]. intros v1. apply not_boro_ok. }
      destruct fs'' as [|f2 fs3]; [exact Hhere|].
      destruct (nle y y1); [exact Hhere|].
      apply (IH (y1 :: ys'')).
  - destruct args as [|? [|? ?]]; try discriminate.
    apply not_boro_bind; [apply IHf|]. intros; apply not_boro_ok.
  - destruct args as [|? [|? ?]]; try discriminate.
    apply not_boro_bind; [apply IHf|]. intros; apply not_boro_ok.
  - destruct args as [|? [|? [|? ?]]]; try discriminate.
    apply not_boro_bind; [apply IHf|]. intros; apply not_boro_ok.
  - destruct args as [|? [|? [|? ?]]]; try discriminate.
    apply not_boro_bind; [apply IHf|]. intros; apply not_boro_ok.
Qed.

Lemma call_on1_not_boro f M : not_boro (call_on1 pw f M).
Proof.
  unfold call_on1.
  destruct f; try discriminate;
    (repeat (apply not_boro_mapM; intros ?); apply call_not_boro).
Qed.

Lemma call_on2_not_boro f M S : not_boro (call_on2 pw f M S).
Proof.
  unfold call_on2.
  destruct f; try discriminate;
    (repeat (apply not_boro_mapM; intros ?); apply call_not_boro).
Qed.

Lemma reshape_shock_not_boro x N : not_boro (reshape_shock x N).
Proof. unfold reshape_shock. destruct (decide _); discriminate. Qed.

Lemma last_col_not_boro X : not_boro (last_col X).
Proof.
  unfold last_col. apply not_boro_mapM. intros row.
  destruct (last row); discriminate.
Qed.

Lemma next_values_not_boro sn vB AdjustPrb mN Sh :
  not_boro (next_values pw sn vB AdjustPrb mN Sh).
Proof.
  unfold next_values. apply not_boro_bind.
  { unfold dvdm_next_of. apply not_boro_bind; [apply call_on1_not_boro|].
    intros ?. destruct (nlt AdjustPrb one); [|apply not_boro_ok].
    apply not_boro_bind; [apply call_on2_not_boro|]. intros; apply not_boro_ok. }
  intros ?. apply not_boro_bind.
  { unfold dvds_next_of. destruct (nlt AdjustPrb one); [|apply not_boro_ok].
    apply not_boro_bind; [apply call_on2_not_boro|]. intros; apply not_boro_ok. }
  intros ?. apply not_boro_bind.
  { unfold v_next_of. destruct vB; [|apply not_boro_ok].
    apply not_boro_bind; [apply call_on1_not_boro|]. intros ?.
    destruct (nlt AdjustPrb one); [|apply not_boro_ok].
    apply not_boro_bind; [apply call_on2_not_boro|]. intros; apply not_boro_ok. }
  intros ?. apply not_boro_ok.
Qed.

Lemma expectations_not_boro sn sd DiscFac CRRA Rfree PermGroFac aX SG vB AdjustPrb :
  not_boro (expectations pw sn sd DiscFac CRRA Rfree PermGroFac aX SG vB AdjustPrb).
Proof.
  unfold expectations, expectations_with.
  repeat (apply not_boro_bind; [apply reshape_shock_not_boro | intros ?]).
  apply not_boro_bind; [apply next_values_not_boro|].
  intros ?. apply not_boro_ok.
Qed.

Lemma share_selection_not_boro CRRA aX SG E :
  not_boro (share_selection pw CRRA aX SG E).
Proof.
  unfold share_selection.
  apply not_boro_bind; [apply last_col_not_boro | intros ?].
  apply not_boro_bind; [apply last_col_not_boro | intros ?].
  apply not_boro_bind; [|intros; apply not_boro_ok].
  destruct (_ !! 0%nat); discriminate.
Qed.

(** C5.  The solver ends with the borrowing-constraint error exactly when
    [BoroCnstArt] is not the number 0, whatever its other arguments are: the
    test comes first, so no other argument is looked at before it, and with
    [BoroCnstArt = 0] this error is never the result. *)
Theorem C5_BoroCnstArt_contract
    (sn : PortfolioSolution) (sd : ShockDstn_t)
    (LivPrb DiscFac CRRA Rfree PermGroFac : num) (BoroCnstArt : option num)
    (aXtraGrid ShareGrid : arr1) (vFuncBool : bool)
    (AdjustPrb ShareLimit : num) :
  solveConsPortfolio pw sn sd LivPrb DiscFac CRRA Rfree PermGroFac
    BoroCnstArt aXtraGrid ShareGrid vFuncBool AdjustPrb ShareLimit
  = Raise AttributeError_BoroCnstArt
  <-> BoroCnstArt <> Some zero.
Proof.
  unfold solveConsPortfolio.
  destruct (BoroCnstArt_ne_0 BoroCnstArt) eqn:Hb.
  - split; [|reflexivity]. intros _ Hz.
    apply BoroCnstArt_ne_0_false in Hz. congruence.
  - apply BoroCnstArt_ne_0_false in Hb. split; [|congruence].
    intros Hr. exfalso. revert Hr.
    apply not_boro_bind; [apply expectations_not_boro | intros E].
    apply not_boro_bind; [apply share_selection_not_boro | intros st].
    apply not_boro_ok.
Qed.

(** ** The shape of the expectation arrays *)

Lemma call_on1_shape f M M' n m :
  call_on1 pw f M = Ok M' -> shape2 n m M -> shape2 n m M'.
Proof.
  unfold call_on1. destruct f; try discriminate; apply shape2_mapM.
Qed.

Lemma call_on2_shape f M S M' n m :
  call_on2 pw f M S = Ok M' -> shape2 n m M -> shape2 n m S ->
  shape2 n m M'.
Proof.
  unfold call_on2. intros H HM HS.
  assert (HZ : shape2 n m (zip3d pair M S)) by (apply shape2_zip; assumption).
  destruct f; try discriminate; eapply shape2_mapM; eauto.
Qed.

Lemma aNrm_tiled_shape sd aX SG :
  shape2 (S (length aX)) (length SG) (aNrm_tiled sd aX SG).
Proof.
  unfold aNrm_tiled, aNrmGrid, Share_N. split.
  - rewrite length_fmap. reflexivity.
  - apply Forall_fmap, Forall_forall. intros a _. simpl.
    apply length_replicate.
Qed.

Lemma Share_tiled_shape sd aX SG :
  shape2 (S (length aX)) (length SG) (Share_tiled sd aX SG).
Proof.
  unfold Share_tiled, aNrm_N, aNrmGrid. apply shape2_replicate.
  apply length_fmap.
Qed.

Lemma tile_shock_shape aX SG x :
  shape2 (S (length aX)) (length SG) (tile_shock aX SG x).
Proof.
  unfold tile_shock, aNrm_N, aNrmGrid, Share_N. apply shape2_replicate.
  apply length_replicate.
Qed.

Lemma combine_shape p X Y n m :
  shape2 n m X -> shape2 n m Y -> shape2 n m (combine p X Y).
Proof.
  intros HX HY. unfold combine, zip3d.
  apply shape2_zip; apply (shape2_map2d (map _)); assumption.
Qed.

Lemma expectations_with_shape next sd DiscFac CRRA Rfree PermGroFac aX SG E :
  (forall mN Sh nxt,
     shape2 (S (length aX)) (length SG) mN ->
     shape2 (S (length aX)) (length SG) Sh ->
     next mN Sh = Ok nxt ->
     shape2 (S (length aX)) (length SG) nxt.1.1 /\
     shape2 (S (length aX)) (length SG) nxt.1.2) ->
  expectations_with pw sd DiscFac CRRA Rfree PermGroFac aX SG next = Ok E ->
  shape2 (S (length aX)) (length SG) (EndOfPrddvds E) /\
  shape2 (S (length aX)) (length SG) (EndOfPrddvda E) /\
  EndOfPrddvdaNvrs E
  = map2d (fun x => pw x ((- one) / CRRA)%num) (EndOfPrddvda E).
Proof.
  intros Hnext. unfold expectations_with.
  destruct (reshape_shock (ShockPrbs sd) _) as [P|] eqn:HP; [cbn [obind]|discriminate].
  destruct (reshape_shock (PermShks sd) _) as [Q|] eqn:HQ; [cbn [obind]|discriminate].
  destruct (reshape_shock (TranShks sd) _) as [T|] eqn:HT; [cbn [obind]|discriminate].
  destruct (reshape_shock (Risky sd) _) as [R|] eqn:HR; [cbn [obind]|discriminate].
  set (Rport := Rport_of _ _ _ _ (tile_shock aX SG R)).
  set (mN := mNrm_next_of _ _ _ _ Rport _ _).
  assert (HRp : shape2 (S (length aX)) (length SG) Rport).
  { unfold Rport, Rport_of, zip3d. apply shape2_zip.
    - apply (shape2_map2d (map _)), Share_tiled_shape.
    - apply shape2_zip; [apply Share_tiled_shape | apply tile_shock_shape]. }
  clearbody Rport.
  assert (HmN : shape2 (S (length aX)) (length SG) mN).
  { unfold mN, mNrm_next_of, zip3d.
    repeat apply shape2_zip; try apply tile_shock_shape; try assumption.
    - apply aNrm_tiled_shape.
    - apply (shape2_map2d (map _)), tile_shock_shape. }
  clearbody mN.
  pose proof (Share_tiled_shape sd aX SG) as HSh.
  destruct (next mN _) as [nxt|] eqn:Hnxt; [cbn [obind]|discriminate].
  destruct (Hnext _ _ _ HmN HSh Hnxt) as [Hdm' Hds'].
  set (dvdm := nxt.1.1) in *. set (dvds := nxt.1.2) in *.
  clearbody dvdm dvds.
  intros Heq%Ok_inj. subst E.
  cbn [EndOfPrddvds EndOfPrddvda EndOfPrddvdaNvrs].
  assert (HtA : forall g : num -> num,
             shape2 (S (length aX)) (length SG)
               (map3d g (tile_shock aX SG Q))).
  { intros g. apply (shape2_map2d (map _)), tile_shock_shape. }
  split; [|split; [|reflexivity]].
  - apply shape2_map2d. unfold sum_axis2. apply shape2_map2d.
    unfold zip3d. repeat apply shape2_zip;
      try apply tile_shock_shape; try apply aNrm_tiled_shape;
      try apply HtA; try assumption.
    apply (shape2_map2d (map _)). assumption.
  - apply shape2_map2d. unfold sum_axis2. apply shape2_map2d.
    unfold zip3d. repeat apply shape2_zip;
      try apply tile_shock_shape; try apply HtA; assumption.
Qed.

Lemma next_values_shape sn vB AdjustPrb n m mN Sh nxt :
  shape2 n m mN -> shape2 n m Sh ->
  next_values pw sn vB AdjustPrb mN Sh = Ok nxt ->
  shape2 n m nxt.1.1 /\ shape2 n m nxt.1.2.
Proof.
  intros HmN HSh. unfold next_values.
  destruct (dvdm_next_of _ _ _ _ _) as [dvdm|] eqn:Hdm; [cbn [obind]|discriminate].
  destruct (dvds_next_of _ _ _ _ _) as [dvds|] eqn:Hds; [cbn [obind]|discriminate].
  destruct (v_next_of _ _ _ _ _ _ _) as [v|] eqn:Hv; [cbn [obind]|discriminate].
  intros Heq%Ok_inj. subst nxt. cbn [fst snd]. split.
  - unfold dvdm_next_of in Hdm.
    destruct (call_on1 pw (vPfuncAdj sn) mN) as [adj|] eqn:Hadj;
      [cbn [obind] in Hdm|discriminate].
    pose proof (call_on1_shape _ _ _ _ _ Hadj HmN) as Hadj'.
    destruct (nlt AdjustPrb one).
    + destruct (call_on2 pw (dvdmFuncFxd sn) mN _) as [fxd|] eqn:Hfxd;
        [cbn [obind] in Hdm|discriminate].
      apply Ok_inj in Hdm. subst dvdm. apply combine_shape; [assumption|].
      eapply call_on2_shape; eauto.
    + apply Ok_inj in Hdm. subst dvdm. assumption.
  - unfold dvds_next_of in Hds. destruct (nlt AdjustPrb one).
    + destruct (call_on2 pw (dvdsFuncFxd sn) mN _) as [fxd|] eqn:Hfxd;
        [cbn [obind] in Hds|discriminate].
      apply Ok_inj in Hds. subst dvds. apply combine_shape.
      * apply (shape2_map2d (map _)). assumption.
      * eapply call_on2_shape; eauto.
    + apply Ok_inj in Hds. subst dvds.
      apply (shape2_map2d (map _)). assumption.
Qed.

Lemma expectations_shape sn sd DiscFac CRRA Rfree PermGroFac aX SG vB AdjustPrb E :
  expectations pw sn sd DiscFac CRRA Rfree PermGroFac aX SG vB AdjustPrb = Ok E ->
  shape2 (S (length aX)) (length SG) (EndOfPrddvds E) /\
  shape2 (S (length aX)) (length SG) (EndOfPrddvda E) /\
  EndOfPrddvdaNvrs E
  = map2d (fun x => pw x ((- one) / CRRA)%num) (EndOfPrddvda E).
Proof.
  apply expectations_with_shape. intros mN Sh nxt.
  apply next_values_shape.
Qed.

(** ** The controls chosen at each asset level *)

Lemma last_col_lookup (X : arr2) (L : arr1) j row :
  last_col X = Ok L -> X !! j = Some row ->
  exists x, L !! j = Some x /\ last row = Some x.
Proof.
  intros HL Hj. unfold last_col in HL.
  destruct (mapM_out_lookup _ _ _ _ _ HL Hj) as (x & Hx & Hlast).
  exists x. split; [exact Hx|]. destruct (last row); congruence.
Qed.

Lemma share_selection_spec CRRA aX SG E st :
  shape2 (S (length aX)) (length SG) (EndOfPrddvds E) ->
  shape2 (S (length aX)) (length SG) (EndOfPrddvda E) ->
  EndOfPrddvdaNvrs E
  = map2d (fun x => pw x ((- one) / CRRA)%num) (EndOfPrddvda E) ->
  share_selection pw CRRA aX SG E = Ok st ->
  length (Share_now st) = S (length aX) /\
  length (cNrmAdj_now st) = S (length aX) /\
  forall j frow,
    EndOfPrddvds E !! j = Some frow ->
    exists ftop drow dtop,
      last frow = Some ftop /\
      EndOfPrddvda E !! j = Some drow /\ last drow = Some dtop /\
      EndOfPrddvdaNvrs E !! j
      = Some (map (fun x => pw x ((- one) / CRRA)%num) drow) /\
      if decide (j = 0) then
        Share_now st !! j = Some one /\
        cNrmAdj_now st !! j = Some (pw dtop ((- one) / CRRA)%num)
      else if ngt ftop zero then
        Share_now st !! j = Some one /\
        cNrmAdj_now st !! j = Some (pw dtop ((- one) / CRRA)%num)
      else
        match interior_controls SG frow
                (map (fun x => pw x ((- one) / CRRA)%num) drow) with
        | Some (share, c) =>
            Share_now st !! j = Some share /\ cNrmAdj_now st !! j = Some c
        | None =>
            Share_now st !! j = Some zero /\
            cNrmAdj_now st !! j = Some zero /\
            NoOptimalControls (default NaN ((zero :: aX) !! j)) ∈ stdout st
        end.
Proof.
  intros [HnS HmS] [HnA HmA] HN Hsel. unfold share_selection in Hsel.
  destruct (last_col (EndOfPrddvds E)) as [FL|] eqn:HFL;
    [cbn [obind] in Hsel|discriminate].
  destruct (last_col (EndOfPrddvda E)) as [AL|] eqn:HAL;
    [cbn [obind] in Hsel|discriminate].
  destruct (AL !! 0) as [d0|] eqn:Hd0; [cbn [obind] in Hsel|discriminate].
  apply Ok_inj in Hsel.
  pose proof (mapM_out_length _ _ _ HFL) as HlFL.
  pose proof (mapM_out_length _ _ _ HAL) as HlAL.
  set (n := S (length aX)) in *.
  set (e := ((- one) / CRRA)%num) in *.
  set (constrained := map (fun f => ngt f zero) FL) in *.
  assert (Hlc : length constrained = n)
    by (unfold constrained; rewrite length_fmap; lia).
  set (S2 := <[0:=one]> (zip_with (fun (c : bool) s => if c then one else s)
                           constrained (replicate (aNrm_N aX) zero))) in *.
  set (C2 := <[0:=pw d0 e]>
               (zip_with (fun (cd : bool * num) c =>
                            if cd.1 then pw cd.2 e else c)
                         (zip constrained AL)
                         (replicate (aNrm_N aX) zero))) in *.
  assert (HaN : aNrm_N aX = n) by reflexivity.
  assert (HlS2 : length S2 = n).
  { unfold S2. rewrite length_insert, length_zip_with, length_replicate. lia. }
  assert (HlC2 : length C2 = n).
  { unfold C2. rewrite length_insert, length_zip_with, length_zip_with,
      length_replicate. lia. }
  destruct (loop_spec aX SG E (seq 0 (aNrm_N aX)) (mkControls S2 C2 []))
    as (HS & HC & Hout).
  { apply NoDup_seq. }
  { cbn [Share_now cNrmAdj_now]. lia. }
  destruct (loop_length aX SG E (seq 0 (aNrm_N aX)) (mkControls S2 C2 []))
    as [HLS HLC].
  rewrite Hsel in HS, HC, Hout, HLS, HLC.
  cbn [Share_now cNrmAdj_now stdout] in HS, HC, Hout, HLS, HLC.
  split; [lia|]. split; [lia|].
  intros j frow Hfrow.
  pose proof (lookup_lt_Some _ _ _ Hfrow) as Hj. rewrite HnS in Hj.
  destruct (last_col_lookup _ _ _ _ HFL Hfrow) as (ftop & HFLj & Hftop).
  destruct (lookup_lt_is_Some_2 (EndOfPrddvda E) j) as [drow Hdrow]; [lia|].
  destruct (last_col_lookup _ _ _ _ HAL Hdrow) as (dtop & HALj & Hdtop).
  exists ftop, drow, dtop.
  assert (HNj : EndOfPrddvdaNvrs E !! j = Some (map (fun x => pw x e) drow)).
  { rewrite HN. unfold map2d. rewrite list_lookup_fmap, Hdrow. reflexivity. }
  repeat (split; [assumption|]).
  assert (Hin : j ∈ seq 0 (aNrm_N aX)).
  { apply elem_of_seq. rewrite HaN. lia. }
  specialize (HS j). specialize (HC j).
  rewrite decide_True in HS, HC by exact Hin.
  assert (Hcj : constrained !! j = Some (ngt ftop zero)).
  { unfold constrained. rewrite list_lookup_fmap, HFLj. reflexivity. }
  assert (Hrj : replicate (aNrm_N aX) zero !! j = Some zero).
  { apply lookup_replicate_2. rewrite HaN. lia. }
  assert (Hfound : found SG E j
                   = interior_controls SG frow (map (fun x => pw x e) drow)).
  { unfold found. rewrite Hfrow. simpl. rewrite HNj. reflexivity. }
  unfold final_share, final_cNrm, searched in HS, HC.
  cbn [Share_now cNrmAdj_now] in HS, HC.
  destruct (decide (j = 0)) as [->|Hj0].
  - assert (HS20 : S2 !! 0 = Some one).
    { unfold S2. apply list_lookup_insert_eq.
      rewrite length_zip_with, length_replicate. lia. }
    assert (HC20 : C2 !! 0 = Some (pw d0 e)).
    { unfold C2. apply list_lookup_insert_eq.
      rewrite !length_zip_with, length_replicate. lia. }
    rewrite HS20 in HS, HC. rewrite neqb_one_zero in HS, HC.
    rewrite HC20 in HC. split; [exact HS|].
    rewrite HC. congruence.
  - assert (HS2j : S2 !! j = Some (if ngt ftop zero then one else zero)).
    { unfold S2. rewrite list_lookup_insert_ne by auto.
      rewrite lookup_zip_with, Hcj, Hrj. reflexivity. }
    assert (HC2j : C2 !! j = Some (if ngt ftop zero then pw dtop e else zero)).
    { unfold C2. rewrite list_lookup_insert_ne by auto.
      rewrite !lookup_zip_with, Hcj, HALj, Hrj. reflexivity. }
    rewrite HS2j in HS, HC. rewrite HC2j in HC.
    destruct (ngt ftop zero).
    + rewrite neqb_one_zero in HS, HC. auto.
    + rewrite neqb_zero_zero in HS, HC. rewrite Hfound in HS, HC.
      destruct (interior_controls SG frow _) as [[share c]|] eqn:Hint.
      * auto.
      * split; [exact HS|]. split; [exact HC|].
        rewrite Hout, app_nil_l.
        apply list_elem_of_omap.
        exists j. split; [exact Hin|].
        unfold printed, searched. cbn [Share_now].
        rewrite HS2j, neqb_zero_zero, Hfound. reflexivity.
Qed.


(** ** The solver as the composition of its three stages *)

Lemma solve_Ok_inv sn sd LivPrb DiscFac CRRA Rfree PermGroFac BoroCnstArt
    aX SG vB AdjustPrb ShareLimit sol out :
  solveConsPortfolio pw sn sd LivPrb DiscFac CRRA Rfree PermGroFac
    BoroCnstArt aX SG vB AdjustPrb ShareLimit = Ok (sol, out) ->
  BoroCnstArt = Some zero /\
  exists E st,
    expectations pw sn sd DiscFac CRRA Rfree PermGroFac aX SG vB AdjustPrb
    = Ok E /\
    share_selection pw CRRA aX SG E = Ok st /\
    sol = build_solution CRRA aX SG ShareLimit E st /\
    out = stdout st.
Proof.
  unfold solveConsPortfolio.
  destruct (BoroCnstArt_ne_0 BoroCnstArt) eqn:Hb; [discriminate|].
  apply BoroCnstArt_ne_0_false in Hb.
  destruct (expectations _ _ _ _ _ _ _ _ _ _ _) as [E|] eqn:HE;
    [cbn [obind]|discriminate].
  destruct (share_selection _ _ _ _ E) as [st|] eqn:Hst;
    [cbn [obind]|discriminate].
  intros Heq%Ok_inj. injection Heq as <- <-. eauto 10.
Qed.

(** C1.  Whatever the value-function flag, the solution the solver returns
    holds the placeholder [NullFunc] in both value-function fields
    [vFuncAdj] and [vFuncFxd]: the flag only decides whether next period's
    value functions are evaluated, and the expected value [EndOfPrdv] is
    never made into a function.  The three marginal-value functions are
    built in every case. *)
Theorem C1_value_functions_left_undefined
    (sn : PortfolioSolution) (sd : ShockDstn_t)
    (LivPrb DiscFac CRRA Rfree PermGroFac : num) (BoroCnstArt : option num)
    (aXtraGrid ShareGrid : arr1) (vFuncBool : bool)
    (AdjustPrb ShareLimit : num) (sol : PortfolioSolution)
    (out : list message) :
  solveConsPortfolio pw sn sd LivPrb DiscFac CRRA Rfree PermGroFac
    BoroCnstArt aXtraGrid ShareGrid vFuncBool AdjustPrb ShareLimit
  = Ok (sol, out) ->
  vFuncAdj sol = NullFunc /\ vFuncFxd sol = NullFunc /\
  vPfuncAdj sol <> NullFunc /\ dvdmFuncFxd sol <> NullFunc /\
  dvdsFuncFxd sol <> NullFunc.
Proof.
  intros H. apply solve_Ok_inv in H as (_ & E & st & _ & _ & -> & _).
  unfold build_solution, PortfolioSolution_init. simpl.
  repeat split; discriminate.
Qed.

Lemma solve_Ok_knots sn sd LivPrb DiscFac CRRA Rfree PermGroFac BoroCnstArt
    aX SG vB AdjustPrb ShareLimit sol out :
  solveConsPortfolio pw sn sd LivPrb DiscFac CRRA Rfree PermGroFac
    BoroCnstArt aX SG vB AdjustPrb ShareLimit = Ok (sol, out) ->
  exists E st,
    expectations pw sn sd DiscFac CRRA Rfree PermGroFac aX SG vB AdjustPrb
    = Ok E /\
    share_selection pw CRRA aX SG E = Ok st /\
    out = stdout st /\
    cFuncAdj sol
    = LinearInterp (zero :: zip_with nadd (zero :: aX) (cNrmAdj_now st))
                   (zero :: cNrmAdj_now st) None None /\
    ShareFuncAdj sol
    = LinearInterp (zero :: zip_with nadd (zero :: aX) (cNrmAdj_now st))
                   (one :: Share_now st) (Some ShareLimit) (Some zero).
Proof.
  intros H. apply solve_Ok_inv in H as (_ & E & st & HE & Hst & -> & ->).
  exists E, st. repeat (split; [assumption || reflexivity|]). reflexivity.
Qed.

(** The controls of every level, read off the returned solution. *)
Lemma solve_Ok_levels sn sd LivPrb DiscFac CRRA Rfree PermGroFac BoroCnstArt
    aX SG vB AdjustPrb ShareLimit sol out E :
  solveConsPortfolio pw sn sd LivPrb DiscFac CRRA Rfree PermGroFac
    BoroCnstArt aX SG vB AdjustPrb ShareLimit = Ok (sol, out) ->
  expectations pw sn sd DiscFac CRRA Rfree PermGroFac aX SG vB AdjustPrb
  = Ok E ->
  forall j frow nrow ftop ntop,
    EndOfPrddvds E !! j = Some frow ->
    EndOfPrddvdaNvrs E !! j = Some nrow ->
    last frow = Some ftop -> last nrow = Some ntop ->
    length frow = length SG /\ length nrow = length SG /\
    if decide (j = 0) then
      share_at sol j = Some one /\ cNrm_at sol j = Some ntop
    else if ngt ftop zero then
      share_at sol j = Some one /\ cNrm_at sol j = Some ntop
    else
      match interior_controls SG frow nrow with
      | Some (share, c) =>
          share_at sol j = Some share /\ cNrm_at sol j = Some c
      | None =>
          share_at sol j = Some zero /\ cNrm_at sol j = Some zero /\
          NoOptimalControls (default NaN ((zero :: aX) !! j)) ∈ out
      end.
Proof.
  intros Hsol HE j frow nrow ftop ntop Hfrow Hnrow Hftop Hntop.
  apply solve_Ok_knots in Hsol
    as (E' & st & HE' & Hst & -> & HcF & HsF).
  assert (E' = E) by congruence. subst E'.
  destruct (expectations_shape _ _ _ _ _ _ _ _ _ _ _ HE) as (HsS & HsA & HN).
  destruct (share_selection_spec _ _ _ _ _ HsS HsA HN Hst)
    as (_ & _ & Hlev).
  destruct (Hlev j frow Hfrow)
    as (ftop' & drow & dtop & Hftop' & Hdrow & Hdtop & Hnrow' & Hcase).
  assert (ftop' = ftop) by congruence. subst ftop'.
  rewrite Hnrow in Hnrow'. injection Hnrow' as ->.
  assert (Hnt : ntop = pw dtop ((- one) / CRRA)%num).
  { change (map ?f drow) with (f <$> drow) in Hntop.
    rewrite fmap_last, Hdtop in Hntop. injection Hntop as <-. reflexivity. }
  subst ntop.
  unfold share_at, cNrm_at. rewrite HcF, HsF. cbn [y_knots lookup list_lookup].
  destruct HsS as [_ HsS]. rewrite Forall_lookup in HsS.
  destruct HsA as [_ HsA]. rewrite Forall_lookup in HsA.
  split; [eauto|]. split; [rewrite length_fmap; eauto|].
  exact Hcase.
Qed.

Lemma solve_Ok_Nvrs_row sn sd DiscFac CRRA Rfree PermGroFac aX SG vB AdjustPrb
    E j frow ftop :
  expectations pw sn sd DiscFac CRRA Rfree PermGroFac aX SG vB AdjustPrb
  = Ok E ->
  EndOfPrddvds E !! j = Some frow -> last frow = Some ftop ->
  exists nrow ntop,
    EndOfPrddvdaNvrs E !! j = Some nrow /\ last nrow = Some ntop.
Proof.
  intros HE Hfrow Hftop.
  destruct (expectations_shape _ _ _ _ _ _ _ _ _ _ _ HE)
    as ([HnS HmS] & [HnA HmA] & HN).
  pose proof (lookup_lt_Some _ _ _ Hfrow) as Hj.
  destruct (lookup_lt_is_Some_2 (EndOfPrddvda E) j) as [drow Hdrow]; [lia|].
  rewrite Forall_lookup in HmS. rewrite Forall_lookup in HmA.
  pose proof (HmS _ _ Hfrow) as Hlf. pose proof (HmA _ _ Hdrow) as Hld.
  assert (Hne : drow <> []).
  { intros ->. simpl in Hld. rewrite <- Hld in Hlf.
    destruct frow; [discriminate|discriminate]. }
  apply last_is_Some in Hne as [dtop Hdtop].
  exists (map (fun x => pw x ((- one) / CRRA)%num) drow),
         (pw dtop ((- one) / CRRA)%num).
  split.
  - rewrite HN. unfold map2d. rewrite list_lookup_fmap, Hdrow. reflexivity.
  - change (map ?f drow) with (f <$> drow).
    rewrite fmap_last, Hdtop. reflexivity.
Qed.

(** C2.  At a level beyond the first that is not flagged as
    share-constrained and whose first-order conditions bracket no root, the
    solver prints the line naming that asset level; the share 0 and the
    consumption 0 that the level keeps in the returned solution are thus
    announced, not substituted in silence. *)
Theorem C2_bracketing_failure_is_reported
    (sn : PortfolioSolution) (sd : ShockDstn_t)
    (LivPrb DiscFac CRRA Rfree PermGroFac : num) (BoroCnstArt : option num)
    (aXtraGrid ShareGrid : arr1) (vFuncBool : bool)
    (AdjustPrb ShareLimit : num) (sol : PortfolioSolution)
    (out : list message) (E : EndOfPrd_t)
    (j : nat) (a : num) (FOC_row : arr1) (FOC_top : num) :
  solveConsPortfolio pw sn sd LivPrb DiscFac CRRA Rfree PermGroFac
    BoroCnstArt aXtraGrid ShareGrid vFuncBool AdjustPrb ShareLimit
  = Ok (sol, out) ->
  expectations pw sn sd DiscFac CRRA Rfree PermGroFac aXtraGrid ShareGrid
    vFuncBool AdjustPrb = Ok E ->
  (zero :: aXtraGrid) !! j = Some a ->
  EndOfPrddvds E !! j = Some FOC_row ->
  last FOC_row = Some FOC_top ->
  j <> 0 ->
  ngt FOC_top zero = false ->
  (forall idx, ~ crossing_at FOC_row idx) ->
  NoOptimalControls a ∈ out /\
  share_at sol j = Some zero /\ cNrm_at sol j = Some zero.
Proof.
  intros Hsol HE Ha Hrow Htop Hj Hnc Hno.
  destruct (solve_Ok_Nvrs_row _ _ _ _ _ _ _ _ _ _ _ _ _ _ HE Hrow Htop)
    as (nrow & ntop & Hnrow & Hntop).
  destruct (solve_Ok_levels _ _ _ _ _ _ _ _ _ _ _ _ _ _ _ _ Hsol HE
              j FOC_row nrow FOC_top ntop Hrow Hnrow Htop Hntop)
    as (_ & _ & Hcase).
  rewrite decide_False in Hcase by exact Hj.
  rewrite Hnc, (interior_controls_None _ _ _ Hno) in Hcase.
  rewrite Ha in Hcase. simpl in Hcase. tauto.
Qed.

(** C3.  The share and the consumption held for an asset level.  At the
    added level [a = 0] (level 0) the share is 1 and the consumption is the
    entry of the inverted marginal-value surface at the top share.  A level
    [a > 0] is a later level; there, if the marginal value of the share at
    the top share is strictly positive, the share is 1 and the consumption
    is again the entry at the top share; otherwise, for the pair of adjacent
    shares of the highest share at which the marginal value of the share
    goes from [>= 0] to [<= 0], the share and the consumption are the
    linear interpolations between the two grid points with the weight
    [alpha = 1 - top_f/(top_f - bot_f)]. *)
Theorem C3_share_choice_per_asset_level
    (sn : PortfolioSolution) (sd : ShockDstn_t)
    (LivPrb DiscFac CRRA Rfree PermGroFac : num) (BoroCnstArt : option num)
    (aXtraGrid ShareGrid : arr1) (vFuncBool : bool)
    (AdjustPrb ShareLimit : num) (sol : PortfolioSolution)
    (out : list message) (E : EndOfPrd_t)
    (j : nat) (a : num) (FOC_row Nvrs_row : arr1) (FOC_top Nvrs_top : num) :
  solveConsPortfolio pw sn sd LivPrb DiscFac CRRA Rfree PermGroFac
    BoroCnstArt aXtraGrid ShareGrid vFuncBool AdjustPrb ShareLimit
  = Ok (sol, out) ->
  expectations pw sn sd DiscFac CRRA Rfree PermGroFac aXtraGrid ShareGrid
    vFuncBool AdjustPrb = Ok E ->
  (zero :: aXtraGrid) !! j = Some a ->
  EndOfPrddvds E !! j = Some FOC_row ->
  EndOfPrddvdaNvrs E !! j = Some Nvrs_row ->
  last FOC_row = Some FOC_top ->
  last Nvrs_row = Some Nvrs_top ->
  (ngt a zero = true -> j <> 0) /\
  (j = 0 ->
   a = zero /\ share_at sol j = Some one /\ cNrm_at sol j = Some Nvrs_top) /\
  (j <> 0 -> ngt FOC_top zero = true ->
   share_at sol j = Some one /\ cNrm_at sol j = Some Nvrs_top) /\
  (j <> 0 -> ngt FOC_top zero = false ->
   forall idx, highest_crossing FOC_row idx ->
   exists bot_s top_s bot_f top_f bot_c top_c,
     ShareGrid !! idx = Some bot_s /\ ShareGrid !! S idx = Some top_s /\
     FOC_row !! idx = Some bot_f /\ FOC_row !! S idx = Some top_f /\
     Nvrs_row !! idx = Some bot_c /\ Nvrs_row !! S idx = Some top_c /\
     share_at sol j = Some (interpolated bot_f top_f bot_s top_s) /\
     cNrm_at sol j = Some (interpolated bot_f top_f bot_c top_c)).
Proof.
  intros Hsol HE Ha Hrow Hnrow Htop Hntop.
  destruct (solve_Ok_levels _ _ _ _ _ _ _ _ _ _ _ _ _ _ _ _ Hsol HE
              j FOC_row Nvrs_row FOC_top Nvrs_top Hrow Hnrow Htop Hntop)
    as (Hlf & Hln & Hcase).
  split; [|split; [|split]].
  - intros Hpos ->. simpl in Ha. injection Ha as <-. discriminate.
  - intros ->. simpl in Ha. injection Ha as <-.
    rewrite decide_True in Hcase by reflexivity. tauto.
  - intros Hj Hc. rewrite decide_False, Hc in Hcase by exact Hj. exact Hcase.
  - intros Hj Hc idx Hidx.
    rewrite decide_False, Hc in Hcase by exact Hj.
    destruct (interior_controls_Some ShareGrid FOC_row Nvrs_row idx)
      as (bs & ts & bf & tf & bc & tc & H1 & H2 & H3 & H4 & H5 & H6 & Hic);
      [congruence | congruence | exact Hidx |].
    rewrite Hic in Hcase. exists bs, ts, bf, tf, bc, tc. tauto.
Qed.

(** C8.  The terminal solution: the adjusting consumption function is the
    identity and the adjusting share function is 0; the value function is
    the CRRA utility of that consumption; the fixed-case share function
    returns its share argument; the marginal value of the share is 0.
    This holds at every argument, in particular at every [m >= 0]. *)
Theorem C8_terminal_solution (CRRA m s : num) :
  let terminal := updateSolutionTerminal CRRA in
  call pw (cFuncAdj terminal) [m] = Ok m /\
  call pw (ShareFuncAdj terminal) [m] = Ok zero /\
  call pw (vFuncAdj terminal) [m] = Ok (utility pw m CRRA) /\
  call pw (cFuncFxd terminal) [m; s] = Ok m /\
  call pw (vFuncFxd terminal) [m; s] = Ok (utility pw m CRRA) /\
  call pw (ShareFuncFxd terminal) [m; s] = Ok s /\
  call pw (dvdsFuncFxd terminal) [m; s] = Ok zero.
Proof. repeat split. Qed.


(** ** The shortcut at adjustment probability one *)

Lemma call_on1_same3 f M M' : call_on1 pw f M = Ok M' -> same3 M M'.
Proof.
  unfold call_on1. destruct f; try discriminate; apply same3_mapM.
Qed.

Lemma call_on2_same3 f M S F :
  same3 M S -> call_on2 pw f M S = Ok F -> same3 M F.
Proof.
  intros HMS H.
  assert (HZ : same3 M (zip3d pair M S))
    by (apply same3_zip3d_r; [apply same3_refl | exact HMS]).
  eapply same3_trans; [exact HZ|].
  unfold call_on2 in H. destruct f; try discriminate;
    exact (same3_mapM _ _ _ H).
Qed.

Lemma nlt_one_one : nlt one one = false.
Proof. reflexivity. Qed.

Lemma next_values_one sn vB mN Sh :
  same3 mN Sh ->
  finite_on pw (dvdmFuncFxd sn) mN Sh ->
  finite_on pw (dvdsFuncFxd sn) mN Sh ->
  (vB = true -> finite_on pw (vFuncFxd sn) mN Sh) ->
  next_values pw sn vB one mN Sh = next_values_blended pw sn vB one mN Sh.
Proof.
  intros Hsame (F1 & HF1 & Hfin1) (F2 & HF2 & Hfin2) H3.
  unfold next_values, next_values_blended, dvdm_next_of, dvds_next_of,
    v_next_of.
  rewrite nlt_one_one.
  destruct (call_on1 pw (vPfuncAdj sn) mN) as [adj|e] eqn:Hadj;
    [cbn [obind]|reflexivity].
  rewrite HF1, HF2. cbn [obind].
  assert (Hadj' : same3 adj mN)
    by (apply same3_sym; eapply call_on1_same3; exact Hadj).
  rewrite (combine_one adj F1).
  2:{ eapply same3_trans; [exact Hadj'|].
      exact (call_on2_same3 _ _ _ _ Hsame HF1). }
  2:{ exact Hfin1. }
  rewrite (combine_one (map3d (fun _ => zero) mN) F2).
  2:{ eapply same3_trans; [|exact (call_on2_same3 _ _ _ _ Hsame HF2)].
      apply same3_sym, same3_map3d_r, same3_refl. }
  2:{ exact Hfin2. }
  destruct vB; [|reflexivity].
  destruct (call_on1 pw (vFuncAdj sn) mN) as [vadj|e] eqn:Hvadj;
    [cbn [obind]|reflexivity].
  destruct (H3 eq_refl) as (F3 & HF3 & Hfin3). rewrite HF3. cbn [obind].
  rewrite (combine_one vadj F3); [reflexivity| |exact Hfin3].
  eapply same3_trans;
    [apply same3_sym; eapply call_on1_same3; exact Hvadj|].
  exact (call_on2_same3 _ _ _ _ Hsame HF3).
Qed.

Lemma Share_tiled_row_same {A} (SG : arr1) k (x : list A) :
  length x = k ->
  Forall2 (fun c c' => length c = length c')
    (map (fun s => replicate k s) SG) (replicate (length SG) x).
Proof.
  intros Hx. induction SG as [|s SG IH]; simpl; constructor; [|exact IH].
  rewrite length_replicate. auto.
Qed.

Lemma same3_tile_shock sd aX SG x :
  length x = Shock_N sd ->
  same3 (Share_tiled sd aX SG) (tile_shock aX SG x).
Proof.
  intros Hx. unfold same3, Share_tiled, tile_shock, Share_N.
  apply Forall2_replicate. apply Share_tiled_row_same. exact Hx.
Qed.

Lemma same3_aNrm_tiled sd aX SG :
  same3 (Share_tiled sd aX SG) (aNrm_tiled sd aX SG).
Proof.
  unfold same3, Share_tiled, aNrm_tiled, aNrm_N, Share_N.
  induction (aNrmGrid aX) as [|a l IH]; simpl; constructor; [|exact IH].
  apply Share_tiled_row_same, length_replicate.
Qed.

Lemma same3_mNrm_next_grid sd Rfree PermGroFac aX SG :
  length (PermShks sd) = Shock_N sd ->
  length (TranShks sd) = Shock_N sd ->
  length (Risky sd) = Shock_N sd ->
  same3 (mNrm_next_grid sd Rfree PermGroFac aX SG) (Share_tiled sd aX SG).
Proof.
  intros HP HT HR. apply same3_sym.
  unfold mNrm_next_grid, mNrm_next_of, Rport_of.
  repeat first
    [ apply same3_zip3d_r | apply same3_map3d_r | apply same3_refl
    | apply same3_aNrm_tiled | apply same3_tile_shock; assumption ].
Qed.

Lemma reshape_shock_Ok x N y : reshape_shock x N = Ok y -> y = x /\ length x = N.
Proof.
  unfold reshape_shock. destruct (decide _); [|discriminate].
  intros [= <-]. auto.
Qed.

(** C9, as amended.  With [AdjustPrb = 1], and when the fixed-case functions
    of next period return finite numbers at every point of the grids, the
    branch that skips them gives exactly the expectations (marginal value
    of assets and its inverse, marginal value of the share, value) of the
    general formula [AdjustPrb*adjusting + (1-AdjustPrb)*fixed]. *)
Theorem C9_shortcut_agrees_on_finite_values
    (sn : PortfolioSolution) (sd : ShockDstn_t)
    (DiscFac CRRA Rfree PermGroFac : num) (aXtraGrid ShareGrid : arr1)
    (vFuncBool : bool) :
  finite_on pw (dvdmFuncFxd sn)
    (mNrm_next_grid sd Rfree PermGroFac aXtraGrid ShareGrid)
    (Share_tiled sd aXtraGrid ShareGrid) ->
  finite_on pw (dvdsFuncFxd sn)
    (mNrm_next_grid sd Rfree PermGroFac aXtraGrid ShareGrid)
    (Share_tiled sd aXtraGrid ShareGrid) ->
  (vFuncBool = true ->
   finite_on pw (vFuncFxd sn)
     (mNrm_next_grid sd Rfree PermGroFac aXtraGrid ShareGrid)
     (Share_tiled sd aXtraGrid ShareGrid)) ->
  expectations pw sn sd DiscFac CRRA Rfree PermGroFac aXtraGrid ShareGrid
    vFuncBool one
  = expectations_blended pw sn sd DiscFac CRRA Rfree PermGroFac aXtraGrid
      ShareGrid vFuncBool one.
Proof.
  intros H1 H2 H3. unfold expectations, expectations_blended, expectations_with.
  destruct (reshape_shock (ShockPrbs sd) _) as [P|] eqn:HP;
    [cbn [obind]|reflexivity].
  destruct (reshape_shock (PermShks sd) _) as [Q|] eqn:HQ;
    [cbn [obind]|reflexivity].
  destruct (reshape_shock (TranShks sd) _) as [T|] eqn:HT;
    [cbn [obind]|reflexivity].
  destruct (reshape_shock (Risky sd) _) as [R|] eqn:HR;
    [cbn [obind]|reflexivity].
  apply reshape_shock_Ok in HQ as [-> HQ], HT as [-> HT], HR as [-> HR].
  fold (mNrm_next_grid sd Rfree PermGroFac aXtraGrid ShareGrid).
  rewrite next_values_one; auto.
  apply same3_mNrm_next_grid; assumption.
Qed.

(** ** Monotone consumption and bounded shares *)

Lemma interior_controls_inv SG row nrow share c :
  interior_controls SG row nrow = Some (share, c) ->
  exists idx bot_s top_s bot_f top_f,
    argwhere_last (crossing_row row) = Some idx /\
    SG !! idx = Some bot_s /\ SG !! S idx = Some top_s /\
    row !! idx = Some bot_f /\ row !! S idx = Some top_f /\
    share = interpolated bot_f top_f bot_s top_s.
Proof.
  unfold interior_controls.
  destruct (argwhere_last (crossing_row row)) as [idx|]; [simpl|discriminate].
  destruct (SG !! idx) as [bs|] eqn:H1; [simpl|discriminate].
  destruct (SG !! S idx) as [ts|] eqn:H2; [simpl|discriminate].
  destruct (row !! idx) as [bf|] eqn:H3; [simpl|discriminate].
  destruct (row !! S idx) as [tf|] eqn:H4; [simpl|discriminate].
  destruct (nrow !! idx) as [bc|]; [simpl|discriminate].
  destruct (nrow !! S idx) as [tc|]; [simpl|discriminate].
  intros Heq. exists idx, bs, ts, bf, tf.
  repeat (split; [reflexivity || assumption|]).
  injection Heq as <- _. reflexivity.
Qed.


(** C10.  A call of the one-period solver leaves all of its inputs
    unchanged: whatever the store holds when the solver is called (the
    instance that is next period's solution and every function object its
    fields refer to, the list of shock arrays and the four arrays, the asset
    grid and the share grid, and any other object of the caller) is held
    unchanged at the same place when the call is over, whether it returns or
    raises.  When it returns, the solution is a newly constructed object: an
    instance at a place that held nothing before the call, and each of its
    fields refers to a function object that was built during the call. *)
Theorem C10_solver_leaves_inputs_unchanged
    (solution_next ShockDstn : loc)
    (LivPrb DiscFac CRRA Rfree PermGroFac : num) (BoroCnstArt : option num)
    (aXtraGrid ShareGrid : loc) (vFuncBool : bool)
    (AdjustPrb ShareLimit : num) (σ : state) :
  let run := solveConsPortfolio_st pw solution_next ShockDstn LivPrb DiscFac
               CRRA Rfree PermGroFac BoroCnstArt aXtraGrid ShareGrid
               vFuncBool AdjustPrb ShareLimit σ in
  (forall l o, heap σ !! l = Some o -> heap run.2 !! l = Some o) /\
  match run.1 with
  | Ok sol =>
      heap σ !! sol = None /\
      exists attrs,
        heap run.2 !! sol = Some (Instance attrs) /\
        forall name r, attrs !! name = Some r -> heap σ !! r = None
  | Raise _ => True
  end.
Proof.
  intros run.
  destruct (safe_solveConsPortfolio_st pw (dom (heap σ)) solution_next
              ShockDstn LivPrb DiscFac CRRA Rfree PermGroFac BoroCnstArt
              aXtraGrid ShareGrid vFuncBool AdjustPrb ShareLimit σ)
    as [Hkeep Hpost]; [reflexivity|].
  fold run in Hkeep, Hpost. split.
  - intros l o Hl. rewrite Hkeep; [exact Hl|].
    apply elem_of_dom. rewrite Hl. eauto.
  - destruct run.1 as [sol|e]; [|exact I].
    destruct Hpost as [Hsol [attrs [Hheap Hattrs]]].
    split; [apply not_elem_of_dom, Hsol|].
    exists attrs. split; [exact Hheap|].
    intros name r Hr. apply not_elem_of_dom. eapply Hattrs, Hr.
Qed.

End Properties.

(** The solver run with the value-function flag set: the call returns, and
    the two value-function fields are placeholders. *)
Lemma C1_witness_flag_set :
  vFuncAdj (returned no_solution (period_A true)).1 = NullFunc /\
  vFuncFxd (returned no_solution (period_A true)).1 = NullFunc /\
  vPfuncAdj (returned no_solution (period_A true)).1 <> NullFunc /\
  dvdmFuncFxd (returned no_solution (period_A true)).1 <> NullFunc /\
  dvdsFuncFxd (returned no_solution (period_A true)).1 <> NullFunc.
Proof.
  apply (C1_value_functions_left_undefined npow_int
           (updateSolutionTerminal one) risky_half_or_double
           one one one one one (Some zero)
           [one; of_Z 3] [zero; of_frac 1 2; one] true one (of_frac 1 2)
           _ (returned no_solution (period_A true)).2).
  vm_compute. reflexivity.
Defined.

(** The period without a bracketing pair: the level [a = 2] is reported and
    keeps the announced defaults. *)
Lemma C2_witness_level_reported :
  NoOptimalControls (of_Z 2) ∈ (returned no_solution period_B).2 /\
  share_at (returned no_solution period_B).1 1 = Some zero /\
  cNrm_at (returned no_solution period_B).1 1 = Some zero.
Proof.
  apply (C2_bracketing_failure_is_reported npow_int next_B sure_unit_shocks
           one one one one one (Some zero)
           [of_Z 2; of_Z 3] [zero; of_frac 1 2; one] false
           (of_frac 1 2) (of_frac 1 2)
           _ _ (returned no_expectations expectations_B) 1 (of_Z 2)
           (row_of (EndOfPrddvds (returned no_expectations expectations_B)) 1)
           (top_of (row_of (EndOfPrddvds
                              (returned no_expectations expectations_B)) 1))).
  - vm_compute. reflexivity.
  - vm_compute. reflexivity.
  - reflexivity.
  - vm_compute. reflexivity.
  - vm_compute. reflexivity.
  - discriminate.
  - vm_compute. reflexivity.
  - apply no_crossing_argwhere. vm_compute. reflexivity.
Defined.

(** The period with a risky return of 1/2 or 2: at the level [a = 3] the
    marginal value of the share changes sign between the shares 1/2 and 1,
    and both controls are interpolated between these two grid points. *)
Lemma C3_witness_interior_level :
  exists bot_f top_f bot_c top_c,
    share_at (returned no_solution (period_A false)).1 2
    = Some (interpolated bot_f top_f (of_frac 1 2) one) /\
    cNrm_at (returned no_solution (period_A false)).1 2
    = Some (interpolated bot_f top_f bot_c top_c).
Proof.
  pose proof
    (C3_share_choice_per_asset_level npow_int
       (updateSolutionTerminal one) risky_half_or_double
       one one one one one (Some zero)
       [one; of_Z 3] [zero; of_frac 1 2; one] false one (of_frac 1 2)
       (returned no_solution (period_A false)).1
       (returned no_solution (period_A false)).2
       (returned no_expectations expectations_A) 2 (of_Z 3)
       (row_of (EndOfPrddvds (returned no_expectations expectations_A)) 2)
       (row_of (EndOfPrddvdaNvrs (returned no_expectations expectations_A)) 2)
       (top_of (row_of (EndOfPrddvds
                          (returned no_expectations expectations_A)) 2))
       (top_of (row_of (EndOfPrddvdaNvrs
                          (returned no_expectations expectations_A)) 2)))
    as H.
  destruct H as (_ & _ & _ & H); try (vm_compute; reflexivity).
  destruct (H ltac:(discriminate) ltac:(vm_compute; reflexivity) 1)
    as (bs & ts & bf & tf & bc & tc & Hbs & Hts & _ & _ & _ & _ & Hs & Hc).
  { apply highest_crossing_argwhere. vm_compute. reflexivity. }
  injection Hbs as <-. injection Hts as <-.
  exists bf, tf, bc, tc. split; assumption.
Defined.


(** C6, on the code.  Without a risk premium the marginal value of the
    share is 0 at every grid point and no line is printed, but at every
    level [a > 0] the share returned is nan: the pair of the two highest
    shares counts as a crossing (0 >= 0 and 0 <= 0) and the weight
    [1 - top_f/(top_f - bot_f)] is [1 - 0/0]. *)
Theorem C6_zero_premium_share_is_nan :
  forallb (forallb (fun f => neqb f zero))
    (EndOfPrddvds (returned no_expectations expectations_C)) = true /\
  exists sol,
    period_C = Ok (sol, []) /\
    share_at sol 0 = Some one /\
    share_at sol 1 = Some NaN /\ share_at sol 2 = Some NaN.
Proof.
  split; [vm_compute; reflexivity|].
  eexists. split; [vm_compute; reflexivity|].
  repeat split; vm_compute; reflexivity.
Qed.

(** With income that can be zero, next period's marginal values are
    infinite at [a = 0]; the solver's branch keeps the infinite marginal
    value of assets there, while the general formula turns it into nan
    ([1*inf + 0*inf]). *)
Lemma C9_counterexample_infinite_marginal_value :
  (EndOfPrddvda
     (returned no_expectations
        (expectations npow_int (updateSolutionTerminal one) zero_income_shocks
           one one one one [one] [zero; one] false one))) !! 0
  = Some [PInf; PInf] /\
  (EndOfPrddvda
     (returned no_expectations
        (expectations_blended npow_int (updateSolutionTerminal one)
           zero_income_shocks one one one one [one] [zero; one] false one)))
    !! 0
  = Some [NaN; NaN] /\
  expectations npow_int (updateSolutionTerminal one) zero_income_shocks
    one one one one [one] [zero; one] false one
  <> expectations_blended npow_int (updateSolutionTerminal one)
       zero_income_shocks one one one one [one] [zero; one] false one.
Proof.
  split; [vm_compute; reflexivity|]. split; [vm_compute; reflexivity|].
  intros H.
  apply (f_equal (fun o => EndOfPrddvda (returned no_expectations o) !! 0))
    in H.
  vm_compute in H. discriminate.
Qed.

(** The risky return 1/2 or 2 with CRRA = 2 and the value function
    requested: the three fixed-case functions of the last period are finite
    on the grids ([m' >= 1] there), and the two ways of computing the
    expectations agree. *)
Lemma C9_witness_finite_period :
  expectations npow_int (updateSolutionTerminal (of_Z 2)) risky_half_or_double
    one (of_Z 2) one one [one; of_Z 3] [zero; of_frac 1 2; one] true one
  = expectations_blended npow_int (updateSolutionTerminal (of_Z 2))
      risky_half_or_double one (of_Z 2) one one
      [one; of_Z 3] [zero; of_frac 1 2; one] true one.
Proof.
  apply (C9_shortcut_agrees_on_finite_values npow_int).
  - eexists. split; [vm_compute; reflexivity|]. repeat constructor.
  - eexists. split; [vm_compute; reflexivity|]. repeat constructor.
  - intros _. eexists. split; [vm_compute; reflexivity|]. repeat constructor.
Defined.



(** The solver on the store returns on the periods A and B, with the nine
    functions that the solver on values returns and, for period B, the same
    printed lines. *)
Lemma period_A_st_returns (vFuncBool : bool) :
  (period_A_st vFuncBool empty_store).1
  = Ok (returned no_solution (period_A vFuncBool)).1.
Proof. destruct vFuncBool; vm_compute; reflexivity. Qed.

Lemma period_B_st_returns_and_prints :
  (period_B_st empty_store).1 = Ok (returned no_solution period_B).1 /\
  console (period_B_st empty_store).2 = (returned no_solution period_B).2 /\
  console (period_B_st empty_store).2 <> [].
Proof.
  split; [vm_compute; reflexivity|].
  split; [vm_compute; reflexivity|].
  vm_compute. discriminate.
Qed.

(* ================================================================== *)
(** * Further properties of the solver *)
(* ================================================================== *)

Section SolverFacts.

Variable pw : num -> num -> num.

(** ** When the solver returns *)

Lemma reshape_shock_same_length x N : length x = N -> reshape_shock x N = Ok x.
Proof.
  intros H. unfold reshape_shock. rewrite decide_True by exact H.
  reflexivity.
Qed.

Lemma reshape_shock_other_length x N :
  length x <> N -> reshape_shock x N = Raise ValueError_reshape.
Proof.
  intros H. unfold reshape_shock. rewrite decide_False by exact H.
  reflexivity.
Qed.

Lemma expectations_with_unequal next sd DiscFac CRRA Rfree PermGroFac aX SG :
  length (PermShks sd) <> length (ShockPrbs sd) \/
  length (TranShks sd) <> length (ShockPrbs sd) \/
  length (Risky sd) <> length (ShockPrbs sd) ->
  expectations_with pw sd DiscFac CRRA Rfree PermGroFac aX SG next
  = Raise ValueError_reshape.
Proof.
  intros H. unfold expectations_with, Shock_N.
  rewrite (reshape_shock_same_length (ShockPrbs sd)) by reflexivity. cbn [obind].
  destruct (decide (length (PermShks sd) = length (ShockPrbs sd))) as [HP|HP];
    [|rewrite (reshape_shock_other_length _ _ HP); reflexivity].
  rewrite (reshape_shock_same_length _ _ HP). cbn [obind].
  destruct (decide (length (TranShks sd) = length (ShockPrbs sd))) as [HT|HT];
    [|rewrite (reshape_shock_other_length _ _ HT); reflexivity].
  rewrite (reshape_shock_same_length _ _ HT). cbn [obind].
  destruct (decide (length (Risky sd) = length (ShockPrbs sd))) as [HR|HR];
    [|rewrite (reshape_shock_other_length _ _ HR); reflexivity].
  tauto.
Qed.

Lemma expectations_with_equal next sd DiscFac CRRA Rfree PermGroFac aX SG nxt :
  length (PermShks sd) = length (ShockPrbs sd) ->
  length (TranShks sd) = length (ShockPrbs sd) ->
  length (Risky sd) = length (ShockPrbs sd) ->
  next (mNrm_next_grid sd Rfree PermGroFac aX SG) (Share_tiled sd aX SG)
  = Ok nxt ->
  exists E,
    expectations_with pw sd DiscFac CRRA Rfree PermGroFac aX SG next = Ok E.
Proof.
  intros HP HT HR Hnext. unfold expectations_with, Shock_N.
  rewrite (reshape_shock_same_length (ShockPrbs sd)) by reflexivity.
  rewrite (reshape_shock_same_length _ _ HP), (reshape_shock_same_length _ _ HT),
    (reshape_shock_same_length _ _ HR).
  cbn [obind]. cbv zeta. unfold mNrm_next_grid in Hnext. rewrite Hnext.
  cbn [obind]. eexists. reflexivity.
Qed.

Lemma last_col_no_column n X :
  shape2 (S n) 0 X -> last_col X = Raise IndexError.
Proof.
  intros [Hn Hm]. destruct X as [|row X]; [discriminate|].
  apply Forall_cons in Hm as [Hrow _]. destruct row; [|discriminate].
  reflexivity.
Qed.

Lemma last_col_columns n m X :
  m <> 0 -> shape2 n m X ->
  exists L, last_col X = Ok L /\ length L = n.
Proof.
  intros Hm0 [Hn Hm]. unfold last_col.
  assert (H : exists L, mapM_out (fun row : arr1 =>
                match last row with
                | Some x => Ok x
                | None => Raise IndexError
                end) X = Ok L).
  { clear Hn. induction X as [|row X IH]; simpl.
    - eexists. reflexivity.
    - apply Forall_cons in Hm as [Hrow Hm].
      destruct (last row) as [x|] eqn:Hx.
      + destruct (IH Hm) as [L ->]. simpl. eexists. reflexivity.
      + apply last_None in Hx. subst row. simpl in Hrow. lia. }
  destruct H as [L HL]. exists L. split; [exact HL|].
  rewrite (mapM_out_length _ _ _ HL). exact Hn.
Qed.

Lemma share_selection_returns CRRA aX SG E :
  SG <> [] ->
  shape2 (S (length aX)) (length SG) (EndOfPrddvds E) ->
  shape2 (S (length aX)) (length SG) (EndOfPrddvda E) ->
  exists st, share_selection pw CRRA aX SG E = Ok st.
Proof.
  intros HSG HS HA.
  assert (Hm : length SG <> 0) by (destruct SG; [congruence|discriminate]).
  destruct (last_col_columns _ _ _ Hm HS) as (FL & HFL & HlF).
  destruct (last_col_columns _ _ _ Hm HA) as (AL & HAL & HlA).
  unfold share_selection. rewrite HFL, HAL. cbn [obind].
  destruct (AL !! 0) as [d0|] eqn:Hd0.
  - cbn [obind]. eexists. reflexivity.
  - apply lookup_ge_None in Hd0. lia.
Qed.

Lemma solve_returns_with next_ok sn sd LivPrb DiscFac CRRA Rfree PermGroFac
    aX SG vB AdjustPrb ShareLimit :
  forall (Hnext : next_values pw sn vB AdjustPrb
            (mNrm_next_grid sd Rfree PermGroFac aX SG) (Share_tiled sd aX SG)
          = Ok next_ok),
  length (PermShks sd) = length (ShockPrbs sd) ->
  length (TranShks sd) = length (ShockPrbs sd) ->
  length (Risky sd) = length (ShockPrbs sd) ->
  match SG with
  | [] =>
      solveConsPortfolio pw sn sd LivPrb DiscFac CRRA Rfree PermGroFac
        (Some zero) aX SG vB AdjustPrb ShareLimit = Raise IndexError
  | _ :: _ =>
      exists sol out,
        solveConsPortfolio pw sn sd LivPrb DiscFac CRRA Rfree PermGroFac
          (Some zero) aX SG vB AdjustPrb ShareLimit = Ok (sol, out)
  end.
Proof.
  intros Hnext HP HT HR.
  destruct (expectations_with_equal _ sd DiscFac CRRA Rfree PermGroFac aX SG
              _ HP HT HR Hnext) as [E HE].
  fold (expectations pw sn sd DiscFac CRRA Rfree PermGroFac aX SG vB AdjustPrb)
    in HE.
  destruct (expectations_shape _ _ _ _ _ _ _ _ _ _ _ _ HE) as (HS & HA & _).
  unfold solveConsPortfolio.
  replace (BoroCnstArt_ne_0 (Some zero)) with false by reflexivity.
  rewrite HE. cbn [obind].
  destruct SG as [|s SG'].
  - unfold share_selection.
    rewrite (last_col_no_column _ _ HS). reflexivity.
  - destruct (share_selection_returns CRRA aX (s :: SG') E) as [st Hst];
      [discriminate | exact HS | exact HA |].
    rewrite Hst. cbn [obind]. eauto.
Qed.


(** X1.  With the borrowing constraint at 0, shock arrays that do not all
    have the length of the probability array make the solver end with the
    ValueError of [np.reshape] (lines 408-411), whatever next period's
    solution is: no function of next period is evaluated before. *)
Theorem solve_unequal_shock_arrays
    (sn : PortfolioSolution) (sd : ShockDstn_t)
    (LivPrb DiscFac CRRA Rfree PermGroFac : num)
    (aXtraGrid ShareGrid : arr1) (vFuncBool : bool)
    (AdjustPrb ShareLimit : num) :
  length (PermShks sd) <> length (ShockPrbs sd) \/
  length (TranShks sd) <> length (ShockPrbs sd) \/
  length (Risky sd) <> length (ShockPrbs sd) ->
  solveConsPortfolio pw sn sd LivPrb DiscFac CRRA Rfree PermGroFac
    (Some zero) aXtraGrid ShareGrid vFuncBool AdjustPrb ShareLimit
  = Raise ValueError_reshape.
Proof.
  intros H. unfold solveConsPortfolio, expectations.
  replace (BoroCnstArt_ne_0 (Some zero)) with false by reflexivity.
  rewrite (expectations_with_unequal _ _ _ _ _ _ _ _ H). reflexivity.
Qed.

(** X2.  The call returns unless the share grid is empty.  With the
    borrowing constraint at 0, a risk aversion that is not 0 (the source
    divides -1. by it), four shock arrays of one length and next period's
    functions returning at the future market resources, the solver ends
    with the IndexError of [FOC_s[:,-1]] (line 462) when [ShareGrid] is
    empty, and returns a solution for every other share grid: the loop of
    lines 470-484 catches what its body raises. *)
Theorem solve_returns_unless_share_grid_empty
    (sn : PortfolioSolution) (sd : ShockDstn_t)
    (LivPrb DiscFac CRRA Rfree PermGroFac : num)
    (aXtraGrid ShareGrid : arr1) (vFuncBool : bool)
    (AdjustPrb ShareLimit : num) (nxt : arr3 * arr3 * arr3) :
  CRRA <> zero ->
  length (PermShks sd) = length (ShockPrbs sd) ->
  length (TranShks sd) = length (ShockPrbs sd) ->
  length (Risky sd) = length (ShockPrbs sd) ->
  next_values pw sn vFuncBool AdjustPrb
    (mNrm_next_grid sd Rfree PermGroFac aXtraGrid ShareGrid)
    (Share_tiled sd aXtraGrid ShareGrid) = Ok nxt ->
  match ShareGrid with
  | [] =>
      solveConsPortfolio pw sn sd LivPrb DiscFac CRRA Rfree PermGroFac
        (Some zero) aXtraGrid ShareGrid vFuncBool AdjustPrb ShareLimit
      = Raise IndexError
  | _ :: _ =>
      exists sol out,
        solveConsPortfolio pw sn sd LivPrb DiscFac CRRA Rfree PermGroFac
          (Some zero) aXtraGrid ShareGrid vFuncBool AdjustPrb ShareLimit
        = Ok (sol, out)
  end.
Proof.
  intros _ HP HT HR Hnext.
  exact (solve_returns_with nxt sn sd LivPrb DiscFac CRRA Rfree PermGroFac
           aXtraGrid ShareGrid vFuncBool AdjustPrb ShareLimit Hnext HP HT HR).
Qed.

(** ** The first step back from the terminal solution *)

Lemma mapM_out_total {A B} (f : A -> outcome B) (g : A -> B) l :
  (forall a, f a = Ok (g a)) -> mapM_out f l = Ok (map g l).
Proof.
  intros H. induction l as [|a l IH]; simpl; [reflexivity|].
  rewrite H, IH. reflexivity.
Qed.

Lemma mapM_out3_total {A B} (f : A -> outcome B) (g : A -> B) X :
  (forall a, f a = Ok (g a)) ->
  mapM_out (mapM_out (mapM_out f)) X = Ok (map3d g X).
Proof.
  intros H. unfold map3d.
  apply mapM_out_total. intros r. apply mapM_out_total. intros c.
  apply mapM_out_total. exact H.
Qed.

Lemma next_values_terminal g vB AdjustPrb M S :
  exists nxt, next_values pw (updateSolutionTerminal g) vB AdjustPrb M S = Ok nxt.
Proof.
  unfold next_values, dvdm_next_of, dvds_next_of, v_next_of.
  cbn [updateSolutionTerminal PortfolioSolution_init vPfuncAdj dvdmFuncFxd
       dvdsFuncFxd vFuncAdj vFuncFxd default].
  unfold call_on1, call_on2.
  rewrite (mapM_out3_total _ (fun m => utilityP pw m g)) by reflexivity.
  cbn [obind].
  rewrite (mapM_out3_total _ (fun ms : num * num => utilityP pw ms.1 g))
    by (intros [m s]; reflexivity).
  rewrite (mapM_out3_total _ (fun _ : num * num => zero))
    by (intros [m s]; reflexivity).
  rewrite (mapM_out3_total _ (fun m => utility pw m g)) by reflexivity.
  rewrite (mapM_out3_total _ (fun ms : num * num => utility pw ms.1 g))
    by (intros [m s]; reflexivity).
  destruct (nlt AdjustPrb one), vB; cbn [obind]; eexists; reflexivity.
Qed.

(** X3.  The step back from the last period always succeeds: called on
    the solution that [updateSolutionTerminal] builds (for any risk aversion
    of the terminal period), with the borrowing constraint at 0, a risk
    aversion that is not 0, four shock arrays of one length and a share grid
    that is not empty, the solver returns a solution, with or without the
    value-function flag and whatever the adjustment probability is. *)
Theorem solve_after_terminal_returns
    (CRRA_T : num) (sd : ShockDstn_t)
    (LivPrb DiscFac CRRA Rfree PermGroFac : num)
    (aXtraGrid ShareGrid : arr1) (vFuncBool : bool)
    (AdjustPrb ShareLimit : num) :
  CRRA <> zero ->
  length (PermShks sd) = length (ShockPrbs sd) ->
  length (TranShks sd) = length (ShockPrbs sd) ->
  length (Risky sd) = length (ShockPrbs sd) ->
  ShareGrid <> [] ->
  exists sol out,
    solveConsPortfolio pw (updateSolutionTerminal CRRA_T) sd LivPrb DiscFac
      CRRA Rfree PermGroFac (Some zero) aXtraGrid ShareGrid vFuncBool
      AdjustPrb ShareLimit = Ok (sol, out).
Proof.
  intros _ HP HT HR HSG.
  destruct (next_values_terminal CRRA_T vFuncBool AdjustPrb
              (mNrm_next_grid sd Rfree PermGroFac aXtraGrid ShareGrid)
              (Share_tiled sd aXtraGrid ShareGrid)) as [nxt Hnext].
  pose proof (solve_returns_with nxt _ sd LivPrb DiscFac CRRA Rfree PermGroFac
                aXtraGrid ShareGrid vFuncBool AdjustPrb ShareLimit
                Hnext HP HT HR) as H.
  destruct ShareGrid; [congruence | exact H].
Qed.


(** ** What the solver reads of next period's solution *)

Lemma expectations_with_ext next next' sd DiscFac CRRA Rfree PermGroFac aX SG :
  (forall M S, next M S = next' M S) ->
  expectations_with pw sd DiscFac CRRA Rfree PermGroFac aX SG next
  = expectations_with pw sd DiscFac CRRA Rfree PermGroFac aX SG next'.
Proof.
  intros H. unfold expectations_with.
  destruct (reshape_shock (ShockPrbs sd) _); [cbn [obind]|reflexivity].
  destruct (reshape_shock (PermShks sd) _); [cbn [obind]|reflexivity].
  destruct (reshape_shock (TranShks sd) _); [cbn [obind]|reflexivity].
  destruct (reshape_shock (Risky sd) _); [cbn [obind]|reflexivity].
  cbv zeta. rewrite H. reflexivity.
Qed.

(** X4.  What the solver evaluates of next period's solution (lines
    419-443): [vPfuncAdj] always; [dvdmFuncFxd] and [dvdsFuncFxd] only when
    [AdjustPrb < 1]; [vFuncAdj] only when the value function is asked for;
    [vFuncFxd] only when both hold.  Two solutions of next period that agree
    on the functions evaluated give the same result (solution, printed lines
    or exception); the consumption and share functions of next period play
    no part. *)
Theorem solve_reads_five_fields
    (sn sn' : PortfolioSolution) (sd : ShockDstn_t)
    (LivPrb DiscFac CRRA Rfree PermGroFac : num) (BoroCnstArt : option num)
    (aXtraGrid ShareGrid : arr1) (vFuncBool : bool)
    (AdjustPrb ShareLimit : num) :
  vPfuncAdj sn = vPfuncAdj sn' ->
  (nlt AdjustPrb one = true ->
   dvdmFuncFxd sn = dvdmFuncFxd sn' /\ dvdsFuncFxd sn = dvdsFuncFxd sn') ->
  (vFuncBool = true -> vFuncAdj sn = vFuncAdj sn') ->
  (vFuncBool = true -> nlt AdjustPrb one = true ->
   vFuncFxd sn = vFuncFxd sn') ->
  solveConsPortfolio pw sn sd LivPrb DiscFac CRRA Rfree PermGroFac
    BoroCnstArt aXtraGrid ShareGrid vFuncBool AdjustPrb ShareLimit
  = solveConsPortfolio pw sn' sd LivPrb DiscFac CRRA Rfree PermGroFac
      BoroCnstArt aXtraGrid ShareGrid vFuncBool AdjustPrb ShareLimit.
Proof.
  intros HvP Hfxd Hv Hvf. unfold solveConsPortfolio, expectations.
  rewrite (expectations_with_ext (next_values pw sn vFuncBool AdjustPrb)
             (next_values pw sn' vFuncBool AdjustPrb)); [reflexivity|].
  intros M S. unfold next_values, dvdm_next_of, dvds_next_of, v_next_of.
  rewrite HvP.
  destruct (nlt AdjustPrb one) eqn:Hadj.
  - destruct (Hfxd eq_refl) as [-> ->].
    destruct vFuncBool; [|reflexivity].
    rewrite (Hv eq_refl), (Hvf eq_refl eq_refl). reflexivity.
  - destruct vFuncBool; [|reflexivity].
    rewrite (Hv eq_refl). reflexivity.
Qed.

(** ** The value-function flag *)

Lemma expectations_flag sn sd DiscFac CRRA Rfree PermGroFac aX SG AdjustPrb E :
  expectations pw sn sd DiscFac CRRA Rfree PermGroFac aX SG true AdjustPrb
  = Ok E ->
  exists v,
    expectations pw sn sd DiscFac CRRA Rfree PermGroFac aX SG false AdjustPrb
    = Ok (mkEndOfPrd (EndOfPrddvda E) (EndOfPrddvdaNvrs E) v (EndOfPrddvds E)).
Proof.
  unfold expectations, expectations_with.
  destruct (reshape_shock (ShockPrbs sd) _); [cbn [obind]|discriminate].
  destruct (reshape_shock (PermShks sd) _); [cbn [obind]|discriminate].
  destruct (reshape_shock (TranShks sd) _); [cbn [obind]|discriminate].
  destruct (reshape_shock (Risky sd) _); [cbn [obind]|discriminate].
  cbv zeta. unfold next_values.
  destruct (dvdm_next_of _ _ _ _ _) as [dvdm|]; [cbn [obind]|discriminate].
  destruct (dvds_next_of _ _ _ _ _) as [dvds|]; [cbn [obind]|discriminate].
  destruct (v_next_of pw sn true _ _ _ _) as [v|]; [cbn [obind]|discriminate].
  intros HE%Ok_inj. subst E. cbn [v_next_of obind fst snd].
  cbn [EndOfPrddvda EndOfPrddvdaNvrs EndOfPrddvds].
  eexists. reflexivity.
Qed.

Lemma share_selection_fields CRRA aX SG a b v v' d :
  share_selection pw CRRA aX SG (mkEndOfPrd a b v d)
  = share_selection pw CRRA aX SG (mkEndOfPrd a b v' d).
Proof. reflexivity. Qed.

Lemma build_solution_fields CRRA aX SG ShareLimit a b v v' d st :
  build_solution CRRA aX SG ShareLimit (mkEndOfPrd a b v d) st
  = build_solution CRRA aX SG ShareLimit (mkEndOfPrd a b v' d) st.
Proof. reflexivity. Qed.

(** X5.  Asking for the value function changes nothing in what is
    returned: a call with [vFuncBool] true that returns, returns what the
    same call with [vFuncBool] false returns, solution and printed lines
    alike.  (The end-of-period value computed at lines 450-452 is used by
    nothing after.) *)
Theorem solve_flag_changes_nothing
    (sn : PortfolioSolution) (sd : ShockDstn_t)
    (LivPrb DiscFac CRRA Rfree PermGroFac : num) (BoroCnstArt : option num)
    (aXtraGrid ShareGrid : arr1) (AdjustPrb ShareLimit : num)
    (sol : PortfolioSolution) (out : list message) :
  solveConsPortfolio pw sn sd LivPrb DiscFac CRRA Rfree PermGroFac
    BoroCnstArt aXtraGrid ShareGrid true AdjustPrb ShareLimit
  = Ok (sol, out) ->
  solveConsPortfolio pw sn sd LivPrb DiscFac CRRA Rfree PermGroFac
    BoroCnstArt aXtraGrid ShareGrid false AdjustPrb ShareLimit
  = Ok (sol, out).
Proof.
  intros H. apply solve_Ok_inv in H as (-> & E & st & HE & Hst & -> & ->).
  destruct (expectations_flag _ _ _ _ _ _ _ _ _ _ HE) as [v HE'].
  unfold solveConsPortfolio.
  replace (BoroCnstArt_ne_0 (Some zero)) with false by reflexivity.
  rewrite HE'. cbn [obind]. destruct E as [a b v0 d].
  cbn [EndOfPrddvda EndOfPrddvdaNvrs EndOfPrddvds] in *.
  rewrite (share_selection_fields CRRA aXtraGrid ShareGrid a b v v0 d), Hst.
  cbn [obind].
  rewrite (build_solution_fields CRRA aXtraGrid ShareGrid ShareLimit a b v v0 d).
  reflexivity.
Qed.


(** ** The lines printed by the loop *)

Lemma share_selection_start CRRA aX SG E st :
  shape2 (S (length aX)) (length SG) (EndOfPrddvds E) ->
  shape2 (S (length aX)) (length SG) (EndOfPrddvda E) ->
  share_selection pw CRRA aX SG E = Ok st ->
  exists st0,
    st = foldl (share_loop_body aX SG E) st0 (seq 0 (S (length aX))) /\
    stdout st0 = [] /\
    length (Share_now st0) = S (length aX) /\
    length (cNrmAdj_now st0) = S (length aX) /\
    Share_now st0 !! 0 = Some one /\
    forall j frow,
      EndOfPrddvds E !! j = Some frow ->
      exists ftop,
        last frow = Some ftop /\
        (j <> 0 ->
         Share_now st0 !! j = Some (if ngt ftop zero then one else zero)).
Proof.
  intros [HnS HmS] [HnA HmA] Hsel. unfold share_selection in Hsel.
  destruct (last_col (EndOfPrddvds E)) as [FL|] eqn:HFL;
    [cbn [obind] in Hsel|discriminate].
  destruct (last_col (EndOfPrddvda E)) as [AL|] eqn:HAL;
    [cbn [obind] in Hsel|discriminate].
  destruct (AL !! 0) as [d0|] eqn:Hd0; [cbn [obind] in Hsel|discriminate].
  apply Ok_inj in Hsel.
  pose proof (mapM_out_length _ _ _ HFL) as HlFL.
  pose proof (mapM_out_length _ _ _ HAL) as HlAL.
  assert (HaN : aNrm_N aX = S (length aX)) by reflexivity.
  eexists. split; [symmetry; exact Hsel|].
  cbn [Share_now cNrmAdj_now stdout].
  split; [reflexivity|].
  split.
  { rewrite length_insert, length_zip_with, length_fmap, length_replicate. lia. }
  split.
  { rewrite length_insert, !length_zip_with, length_fmap, length_replicate.
    lia. }
  split.
  { apply list_lookup_insert_eq.
    rewrite length_zip_with, length_fmap, length_replicate. lia. }
  intros j frow Hfrow.
  pose proof (lookup_lt_Some _ _ _ Hfrow) as Hj.
  destruct (last_col_lookup _ _ _ _ HFL Hfrow) as (ftop & HFLj & Hftop).
  exists ftop. split; [exact Hftop|]. intros Hj0.
  assert (Hr : replicate (aNrm_N aX) zero !! j = Some zero)
    by (apply lookup_replicate_2; rewrite HaN; lia).
  rewrite list_lookup_insert_ne by auto.
  rewrite lookup_zip_with, list_lookup_fmap, HFLj, Hr. reflexivity.
Qed.

Lemma omap_sublist {A B} (f : A -> option B) (g : A -> B) l :
  (forall x y, f x = Some y -> y = g x) ->
  omap f l `sublist_of` map g l.
Proof.
  intros H. induction l as [|x l IH]; simpl; [constructor|].
  destruct (f x) as [y|] eqn:Hfx.
  - rewrite (H x y Hfx). apply sublist_skip, IH.
  - apply sublist_cons, IH.
Qed.

Lemma levels_beyond_first (aX : arr1) :
  map (fun j => NoOptimalControls (default NaN ((zero :: aX) !! j)))
      (seq 1 (length aX))
  = map NoOptimalControls aX.
Proof.
  apply list_eq. intros i. rewrite !list_lookup_fmap.
  destruct (aX !! i) as [a|] eqn:Ha.
  - rewrite (lookup_seq_lt _ _ _ (lookup_lt_Some _ _ _ Ha)). simpl.
    rewrite Ha. reflexivity.
  - rewrite lookup_seq_ge by (apply lookup_ge_None; exact Ha). reflexivity.
Qed.

Lemma printed_inv aX SG E st j m :
  printed aX SG E st j = Some m ->
  searched st j = true /\ found SG E j = None /\
  m = NoOptimalControls (default NaN ((zero :: aX) !! j)).
Proof.
  unfold printed. destruct (searched st j); [|discriminate].
  destruct (found SG E j); [discriminate|]. intros [= <-]. auto.
Qed.

(** X6.  The lines printed by a call that returns name asset levels of
    [aXtraGrid], each level at most once and in the order of the grid: the
    added level [a = 0] is never reported (its share is set to 1 before the
    loop, line 464), and the loop passes each level once. *)
Theorem solve_prints_grid_levels_in_order
    (sn : PortfolioSolution) (sd : ShockDstn_t)
    (LivPrb DiscFac CRRA Rfree PermGroFac : num) (BoroCnstArt : option num)
    (aXtraGrid ShareGrid : arr1) (vFuncBool : bool)
    (AdjustPrb ShareLimit : num)
    (sol : PortfolioSolution) (out : list message) :
  solveConsPortfolio pw sn sd LivPrb DiscFac CRRA Rfree PermGroFac
    BoroCnstArt aXtraGrid ShareGrid vFuncBool AdjustPrb ShareLimit
  = Ok (sol, out) ->
  out `sublist_of` map NoOptimalControls aXtraGrid.
Proof.
  intros H. apply solve_Ok_inv in H as (_ & E & st & HE & Hst & _ & ->).
  destruct (expectations_shape _ _ _ _ _ _ _ _ _ _ _ _ HE) as (HS & HA & _).
  destruct (share_selection_start _ _ _ _ _ HS HA Hst)
    as (st0 & -> & Hout0 & HlS & Hlc & H0 & _).
  destruct (loop_spec aXtraGrid ShareGrid E (seq 0 (S (length aXtraGrid))) st0)
    as (_ & _ & Hout); [apply NoDup_seq | lia |].
  rewrite Hout, Hout0, app_nil_l.
  change (seq 0 (S (length aXtraGrid)))
    with (0 :: seq 1 (length aXtraGrid)).
  cbn [omap list_omap].
  assert (Hp0 : printed aXtraGrid ShareGrid E st0 0 = None).
  { unfold printed, searched. rewrite H0, neqb_one_zero. reflexivity. }
  rewrite Hp0. rewrite <- levels_beyond_first.
  apply omap_sublist. intros j m Hm.
  apply printed_inv in Hm as (_ & _ & ->). reflexivity.
Qed.

Lemma interior_controls_None_inv SG row nrow :
  length row = length SG -> length nrow = length SG ->
  interior_controls SG row nrow = None ->
  forall idx, ~ crossing_at row idx.
Proof.
  intros Hr Hn Hnone idx Hc.
  destruct (argwhere_last (crossing_row row)) as [k|] eqn:Hk.
  - pose proof Hk as Hk'. apply argwhere_last_Some in Hk' as [Hk' _].
    apply crossing_row_true in Hk' as (lo & hi & Hlo & Hhi & _ & _).
    pose proof (lookup_lt_Some _ _ _ Hhi) as Hlt.
    destruct (lookup_lt_is_Some_2 SG k) as [bs Hbs]; [lia|].
    destruct (lookup_lt_is_Some_2 SG (S k)) as [ts Hts]; [lia|].
    destruct (lookup_lt_is_Some_2 nrow k) as [bc Hbc]; [lia|].
    destruct (lookup_lt_is_Some_2 nrow (S k)) as [tc Htc]; [lia|].
    unfold interior_controls in Hnone.
    rewrite Hk in Hnone. simpl in Hnone.
    rewrite Hbs in Hnone. simpl in Hnone.
    rewrite Hts in Hnone. simpl in Hnone.
    rewrite Hlo in Hnone. simpl in Hnone.
    rewrite Hhi in Hnone. simpl in Hnone.
    rewrite Hbc in Hnone. simpl in Hnone.
    rewrite Htc in Hnone. simpl in Hnone. discriminate.
  - apply (proj1 (argwhere_last_None _) Hk idx).
    apply crossing_row_true. exact Hc.
Qed.

(** X7.  No false alarm: a line [No optimal controls found for a=...] of a
    call that returns names a level beyond the first that is not
    share-constrained (its first-order condition at the top share is not
    positive) and whose row of first-order conditions has no pair of
    adjacent shares bracketing a root; the returned solution holds the share
    0 and the consumption 0 there. *)
Theorem solve_prints_only_unbracketed_levels
    (sn : PortfolioSolution) (sd : ShockDstn_t)
    (LivPrb DiscFac CRRA Rfree PermGroFac : num) (BoroCnstArt : option num)
    (aXtraGrid ShareGrid : arr1) (vFuncBool : bool)
    (AdjustPrb ShareLimit : num)
    (sol : PortfolioSolution) (out : list message) (E : EndOfPrd_t)
    (a : num) :
  solveConsPortfolio pw sn sd LivPrb DiscFac CRRA Rfree PermGroFac
    BoroCnstArt aXtraGrid ShareGrid vFuncBool AdjustPrb ShareLimit
  = Ok (sol, out) ->
  expectations pw sn sd DiscFac CRRA Rfree PermGroFac aXtraGrid ShareGrid
    vFuncBool AdjustPrb = Ok E ->
  NoOptimalControls a ∈ out ->
  exists j FOC_row FOC_top,
    j <> 0 /\
    (zero :: aXtraGrid) !! j = Some a /\
    EndOfPrddvds E !! j = Some FOC_row /\
    last FOC_row = Some FOC_top /\
    ngt FOC_top zero = false /\
    (forall idx, ~ crossing_at FOC_row idx) /\
    share_at sol j = Some zero /\ cNrm_at sol j = Some zero.
Proof.
  intros Hsol HE Hin.
  pose proof Hsol as Hsol'.
  apply solve_Ok_inv in Hsol' as (_ & E' & st & HE' & Hst & _ & ->).
  assert (E' = E) by congruence. subst E'.
  destruct (expectations_shape _ _ _ _ _ _ _ _ _ _ _ _ HE) as (HS & HA & HN).
  destruct (share_selection_start _ _ _ _ _ HS HA Hst)
    as (st0 & Hfold & Hout0 & HlS & Hlc & H0 & Hlev).
  destruct (loop_spec aXtraGrid ShareGrid E (seq 0 (S (length aXtraGrid))) st0)
    as (_ & _ & Hout); [apply NoDup_seq | lia |].
  rewrite <- Hfold in Hout. rewrite Hout, Hout0, app_nil_l in Hin.
  apply list_elem_of_omap in Hin as (j & Hj & Hp).
  apply elem_of_seq in Hj as [_ Hj]. simpl in Hj.
  apply printed_inv in Hp as (Hsearch & Hfound & Hmsg).
  destruct (lookup_lt_is_Some_2 (zero :: aXtraGrid) j) as [a' Ha'];
    [simpl; lia|].
  rewrite Ha' in Hmsg. simpl in Hmsg. injection Hmsg as ->.
  destruct HS as [HnS HmS].
  destruct (lookup_lt_is_Some_2 (EndOfPrddvds E) j) as [frow Hfrow]; [lia|].
  destruct (Hlev j frow Hfrow) as (ftop & Hftop & Hsh).
  assert (Hj0 : j <> 0).
  { intros ->. unfold searched in Hsearch. rewrite H0 in Hsearch.
    rewrite neqb_one_zero in Hsearch. discriminate. }
  assert (Hnc : ngt ftop zero = false).
  { unfold searched in Hsearch. rewrite (Hsh Hj0) in Hsearch.
    destruct (ngt ftop zero); [|reflexivity].
    rewrite neqb_one_zero in Hsearch. discriminate. }
  destruct (solve_Ok_Nvrs_row _ _ _ _ _ _ _ _ _ _ _ _ _ _ _ HE Hfrow Hftop)
    as (nrow & ntop & Hnrow & Hntop).
  destruct (solve_Ok_levels _ _ _ _ _ _ _ _ _ _ _ _ _ _ _ _ _ Hsol HE
              j frow nrow ftop ntop Hfrow Hnrow Hftop Hntop)
    as (Hlf & Hln & Hcase).
  rewrite decide_False in Hcase by exact Hj0. rewrite Hnc in Hcase.
  assert (Hint : interior_controls ShareGrid frow nrow = None).
  { unfold found in Hfound. rewrite Hfrow in Hfound. simpl in Hfound.
    rewrite Hnrow in Hfound. exact Hfound. }
  rewrite Hint in Hcase.
  exists j, frow, ftop.
  repeat (split; [assumption|]).
  split; [exact (interior_controls_None_inv _ _ _ Hlf Hln Hint)|].
  tauto.
Qed.


(** ** A share grid of one point *)

(** X8.  With a share grid of one point nothing is ever interpolated
    ([crossing] has no column, so the [try] of line 472 always fails): at
    every asset level the returned share is 1 (the level [a = 0] and the
    share-constrained levels), or the share and the consumption are 0 and
    the level is reported. *)
Theorem solve_single_share_never_interpolates
    (sn : PortfolioSolution) (sd : ShockDstn_t)
    (LivPrb DiscFac CRRA Rfree PermGroFac : num) (BoroCnstArt : option num)
    (aXtraGrid ShareGrid : arr1) (vFuncBool : bool)
    (AdjustPrb ShareLimit : num)
    (sol : PortfolioSolution) (out : list message) :
  length ShareGrid = 1 ->
  solveConsPortfolio pw sn sd LivPrb DiscFac CRRA Rfree PermGroFac
    BoroCnstArt aXtraGrid ShareGrid vFuncBool AdjustPrb ShareLimit
  = Ok (sol, out) ->
  forall j, j <= length aXtraGrid ->
    share_at sol j = Some one \/
    (share_at sol j = Some zero /\ cNrm_at sol j = Some zero /\
     NoOptimalControls (default NaN ((zero :: aXtraGrid) !! j)) ∈ out).
Proof.
  intros H1 Hsol j Hj.
  pose proof Hsol as Hsol'.
  apply solve_Ok_inv in Hsol' as (_ & E & st & HE & _ & _ & _).
  destruct (expectations_shape _ _ _ _ _ _ _ _ _ _ _ _ HE)
    as ([HnS HmS] & _ & _).
  destruct (lookup_lt_is_Some_2 (EndOfPrddvds E) j) as [frow Hfrow]; [lia|].
  rewrite Forall_lookup in HmS. pose proof (HmS _ _ Hfrow) as Hlf.
  rewrite H1 in Hlf.
  destruct frow as [|f [|f' frow]]; try discriminate. clear Hlf.
  destruct (solve_Ok_Nvrs_row _ _ _ _ _ _ _ _ _ _ _ _ _ _ _ HE Hfrow eq_refl)
    as (nrow & ntop & Hnrow & Hntop).
  destruct (solve_Ok_levels _ _ _ _ _ _ _ _ _ _ _ _ _ _ _ _ _ Hsol HE
              j [f] nrow f ntop Hfrow Hnrow eq_refl Hntop)
    as (_ & _ & Hcase).
  destruct (decide (j = 0)); [left; tauto|].
  destruct (ngt f zero); [left; tauto|].
  change (interior_controls ShareGrid [f] nrow) with (@None (num * num))
    in Hcase.
  right. exact Hcase.
Qed.

(** ** The interpolants of a returned solution *)

(** X9.  The interpolants of a returned solution are well formed: the
    adjusting consumption and share functions are built on the same
    [len(aXtraGrid) + 2] points of market resources and hold as many values;
    the fixed-share consumption function and the marginal value of the share
    hold one interpolant per point of [ShareGrid], each on
    [len(aXtraGrid) + 2] points with as many values (lines 486-510). *)
Theorem solve_interpolants_have_matching_knots
    (sn : PortfolioSolution) (sd : ShockDstn_t)
    (LivPrb DiscFac CRRA Rfree PermGroFac : num) (BoroCnstArt : option num)
    (aXtraGrid ShareGrid : arr1) (vFuncBool : bool)
    (AdjustPrb ShareLimit : num)
    (sol : PortfolioSolution) (out : list message) :
  solveConsPortfolio pw sn sd LivPrb DiscFac CRRA Rfree PermGroFac
    BoroCnstArt aXtraGrid ShareGrid vFuncBool AdjustPrb ShareLimit
  = Ok (sol, out) ->
  let n := length aXtraGrid + 2 in
  length (x_knots (cFuncAdj sol)) = n /\
  length (y_knots (cFuncAdj sol)) = n /\
  x_knots (ShareFuncAdj sol) = x_knots (cFuncAdj sol) /\
  length (y_knots (ShareFuncAdj sol)) = n /\
  exists cs ds,
    cFuncFxd sol = LinearInterpOnInterp1D cs ShareGrid /\
    dvdsFuncFxd sol = LinearInterpOnInterp1D ds ShareGrid /\
    length cs = length ShareGrid /\ length ds = length ShareGrid /\
    Forall (fun f => length (x_knots f) = n /\ length (y_knots f) = n) cs /\
    Forall (fun f => length (x_knots f) = n /\ length (y_knots f) = n) ds.
Proof.
  intros Hsol n.
  apply solve_Ok_inv in Hsol as (_ & E & st & HE & Hst & -> & _).
  destruct (expectations_shape _ _ _ _ _ _ _ _ _ _ _ _ HE)
    as (HS & HA & HN).
  destruct (share_selection_spec _ _ _ _ _ _ HS HA HN Hst) as (HlS & Hlc & _).
  destruct HS as [HnS _]. destruct HA as [HnA _].
  assert (HnN : length (EndOfPrddvdaNvrs E) = S (length aXtraGrid)).
  { rewrite HN. unfold map2d. rewrite length_fmap. exact HnA. }
  unfold build_solution, PortfolioSolution_init.
  cbn [cFuncAdj ShareFuncAdj cFuncFxd dvdsFuncFxd default from_option].
  unfold id, aNrmGrid, Share_N. cbn [x_knots y_knots]. subst n.
  split. { cbn [length]. rewrite length_zip_with. cbn [length]. lia. }
  split. { cbn [length]. lia. }
  split; [reflexivity|].
  split. { cbn [length]. lia. }
  eexists. eexists.
  split; [reflexivity|]. split; [reflexivity|].
  split. { rewrite length_fmap, length_seq. reflexivity. }
  split. { rewrite length_fmap, length_seq. reflexivity. }
  split.
  - apply Forall_fmap, Forall_forall. intros j _.
    cbn [compose x_knots y_knots length]. unfold column.
    rewrite length_zip_with, !length_fmap. cbn [length]. lia.
  - apply Forall_fmap, Forall_forall. intros j _.
    cbn [compose x_knots y_knots length]. unfold column.
    rewrite length_zip_with, !length_fmap. cbn [length]. lia.
Qed.


End SolverFacts.

Lemma solve_unequal_shock_arrays_witness :
  solveConsPortfolio npow_int (updateSolutionTerminal one)
    (mkShockDstn [one] [one; one] [one] [one])
    one one one one one (Some zero) [one] [zero; one] false one one
  = Raise ValueError_reshape.
Proof.
  apply (solve_unequal_shock_arrays npow_int).
  left. simpl. lia.
Defined.

Lemma solve_returns_witness :
  exists sol out, period_A false = Ok (sol, out).
Proof.
  eapply (solve_returns_unless_share_grid_empty npow_int
           (updateSolutionTerminal one) risky_half_or_double
           one one one one one [one; of_Z 3] [zero; of_frac 1 2; one]
           false one (of_frac 1 2)).
  - discriminate.
  - reflexivity.
  - reflexivity.
  - reflexivity.
  - vm_compute. reflexivity.
Defined.

Lemma solve_after_terminal_witness :
  exists sol out, period_A true = Ok (sol, out).
Proof.
  apply (solve_after_terminal_returns npow_int one risky_half_or_double
           one one one one one [one; of_Z 3] [zero; of_frac 1 2; one]
           true one (of_frac 1 2)).
  - discriminate.
  - reflexivity.
  - reflexivity.
  - reflexivity.
  - discriminate.
Defined.

Lemma solve_reads_five_fields_witness :
  period_A false
  = solveConsPortfolio npow_int unused_fields_dropped
      risky_half_or_double one one one one one (Some zero)
      [one; of_Z 3] [zero; of_frac 1 2; one] false one (of_frac 1 2).
Proof.
  apply (solve_reads_five_fields npow_int).
  - reflexivity.
  - intros H. vm_compute in H. discriminate H.
  - discriminate.
  - discriminate.
Defined.

Lemma solve_flag_witness :
  period_A false = Ok (returned no_solution (period_A true)).
Proof.
  apply (solve_flag_changes_nothing npow_int (updateSolutionTerminal one)
           risky_half_or_double one one one one one (Some zero)
           [one; of_Z 3] [zero; of_frac 1 2; one] one (of_frac 1 2)
           (returned no_solution (period_A true)).1
           (returned no_solution (period_A true)).2).
  vm_compute. reflexivity.
Defined.

Lemma solve_prints_in_order_witness :
  (returned no_solution period_B).2
  `sublist_of` map NoOptimalControls [of_Z 2; of_Z 3].
Proof.
  apply (solve_prints_grid_levels_in_order npow_int next_B sure_unit_shocks
           one one one one one (Some zero)
           [of_Z 2; of_Z 3] [zero; of_frac 1 2; one] false
           (of_frac 1 2) (of_frac 1 2)
           (returned no_solution period_B).1).
  vm_compute. reflexivity.
Defined.

Lemma solve_prints_only_unbracketed_witness :
  exists j FOC_row FOC_top,
    j <> 0 /\
    (zero :: [of_Z 2; of_Z 3]) !! j = Some (of_Z 3) /\
    EndOfPrddvds (returned no_expectations expectations_B) !! j
    = Some FOC_row /\
    last FOC_row = Some FOC_top /\
    ngt FOC_top zero = false /\
    (forall idx, ~ crossing_at FOC_row idx) /\
    share_at (returned no_solution period_B).1 j = Some zero /\
    cNrm_at (returned no_solution period_B).1 j = Some zero.
Proof.
  apply (solve_prints_only_unbracketed_levels npow_int next_B
           sure_unit_shocks one one one one one (Some zero)
           [of_Z 2; of_Z 3] [zero; of_frac 1 2; one] false
           (of_frac 1 2) (of_frac 1 2)
           (returned no_solution period_B).1
           (returned no_solution period_B).2
           (returned no_expectations expectations_B) (of_Z 3)).
  - vm_compute. reflexivity.
  - vm_compute. reflexivity.
  - vm_compute. right. left.
Defined.

Lemma solve_single_share_witness :
  share_at (returned no_solution period_D).1 1 = Some one \/
  (share_at (returned no_solution period_D).1 1 = Some zero /\
   cNrm_at (returned no_solution period_D).1 1 = Some zero /\
   NoOptimalControls (default NaN ((zero :: [one; of_Z 3]) !! 1))
   ∈ (returned no_solution period_D).2).
Proof.
  apply (solve_single_share_never_interpolates npow_int
           (updateSolutionTerminal one) risky_half_or_double
           one one one one one (Some zero) [one; of_Z 3] [of_frac 1 2]
           false one (of_frac 1 2)
           (returned no_solution period_D).1
           (returned no_solution period_D).2).
  - reflexivity.
  - vm_compute. reflexivity.
  - simpl. lia.
Defined.

Lemma solve_knots_witness :
  length (x_knots (cFuncAdj (returned no_solution (period_A false)).1)) = 4.
Proof.
  apply (solve_interpolants_have_matching_knots npow_int
           (updateSolutionTerminal one) risky_half_or_double
           one one one one one (Some zero)
           [one; of_Z 3] [zero; of_frac 1 2; one] false one (of_frac 1 2)
           (returned no_solution (period_A false)).1
           (returned no_solution (period_A false)).2).
  vm_compute. reflexivity.
Defined.

(* ================================================================== *)
(** * The constructor, the share grid and the bracket *)
(* ================================================================== *)

(** ** The constructor of a solution, on the store *)

Lemma or_new_NullFunc_spec (arg : option loc) (σ : state) :
  exists r σ',
    or_new_NullFunc arg σ = (Ok r, σ') /\
    heap σ ⊆ heap σ' /\ console σ' = console σ /\
    match arg with
    | Some r' => r = r'
    | None => heap σ !! r = None /\ heap σ' !! r = Some (Function NullFunc)
    end.
Proof.
  destruct arg as [r'|]; simpl.
  - exists r', σ. auto.
  - eexists _, _. split; [reflexivity|]. simpl.
    assert (Hf : heap σ !! fresh (dom (heap σ)) = None)
      by (apply not_elem_of_dom, is_fresh).
    split; [apply insert_subseteq; exact Hf|].
    split; [reflexivity|]. split; [exact Hf | apply lookup_insert_eq].
Qed.

(** The references that [or_new_NullFunc] returns for a list of arguments:
    an argument given is returned as it is, an argument left out gets a
    place of its own. *)
Lemma or_new_NullFunc_list (args : list (option loc)) : forall σ,
  exists rs σ',
    mapM_st or_new_NullFunc args σ = (Ok rs, σ') /\
    heap σ ⊆ heap σ' /\ console σ' = console σ /\
    Forall2 (fun arg r =>
               match arg with
               | Some r' => r = r'
               | None => heap σ !! r = None /\
                         heap σ' !! r = Some (Function NullFunc)
               end) args rs /\
    (forall i j r, i <> j -> rs !! i = Some r -> rs !! j = Some r ->
                   Some r ∈ args).
Proof.
  induction args as [|arg args IH]; intros σ.
  - exists [], σ. repeat split; auto. intros i j r _ Hi. discriminate.
  - destruct (or_new_NullFunc_spec arg σ) as (r & σ1 & Hr & Hsub & Hc & Harg).
    destruct (IH σ1) as (rs & σ' & Hrs & Hsub' & Hc' & Hall & Hshare).
    exists (r :: rs), σ'.
    split.
    { cbn [mapM_st]. unfold mbind, M_bind. rewrite Hr, Hrs. reflexivity. }
    split; [etrans; eassumption|].
    split; [congruence|].
    split.
    { constructor.
      - destruct arg as [r'|]; [exact Harg|].
        destruct Harg as [Hn Hs]. split; [exact Hn|].
        eapply lookup_weaken; eassumption.
      - eapply Forall2_impl; [exact Hall|].
        intros [r'|] r0; [auto|]. intros [Hn Hs]. split; [|exact Hs].
        destruct (heap σ !! r0) as [o|] eqn:Ho; [|reflexivity].
        rewrite (lookup_weaken _ _ _ _ Ho Hsub) in Hn. discriminate. }
    assert (Hhead : forall k, rs !! k = Some r -> Some r ∈ arg :: args).
    { intros k Hk.
      destruct arg as [r'|]; [subst; left|].
      destruct Harg as [Hn Hs].
      destruct (Forall2_lookup_r _ _ _ _ _ Hall Hk) as (a & Ha & Hspec).
      destruct a as [r'|].
      - subst. right. eapply list_elem_of_lookup_2, Ha.
      - destruct Hspec as [Hn' _]. congruence. }
    intros [|i] [|j] r0 Hij Hi Hj; simpl in Hi, Hj.
    + congruence.
    + injection Hi as <-. eapply Hhead, Hj.
    + injection Hj as <-. eapply Hhead, Hi.
    + right. eapply (Hshare i j); [congruence | assumption | assumption].
Qed.

Lemma new_PortfolioSolution_steps a1 a2 a3 a4 a5 a6 a7 a8 a9 σ
    r1 r5 r2 r6 r3 r7 r4 r8 r9 σ1 :
  mapM_st or_new_NullFunc [a1; a5; a2; a6; a3; a7; a4; a8; a9] σ
  = (Ok [r1; r5; r2; r6; r3; r7; r4; r8; r9], σ1) ->
  new_PortfolioSolution a1 a2 a3 a4 a5 a6 a7 a8 a9 σ
  = alloc (Instance
      (<["cFuncAdj" := r1]> (<["cFuncFxd" := r5]>
      (<["ShareFuncAdj" := r2]> (<["ShareFuncFxd" := r6]>
      (<["vFuncAdj" := r3]> (<["vFuncFxd" := r7]>
      (<["vPfuncAdj" := r4]> (<["dvdmFuncFxd" := r8]>
      (<["dvdsFuncFxd" := r9]> ∅)))))))))) σ1.
Proof.
  unfold new_PortfolioSolution. cbn [mapM_st]. unfold mbind, M_bind, mret, M_ret.
  destruct (or_new_NullFunc a1 σ) as [[x1|e] s1]; [|discriminate].
  destruct (or_new_NullFunc a5 s1) as [[x5|e] s5]; [|discriminate].
  destruct (or_new_NullFunc a2 s5) as [[x2|e] s2]; [|discriminate].
  destruct (or_new_NullFunc a6 s2) as [[x6|e] s6]; [|discriminate].
  destruct (or_new_NullFunc a3 s6) as [[x3|e] s3]; [|discriminate].
  destruct (or_new_NullFunc a7 s3) as [[x7|e] s7]; [|discriminate].
  destruct (or_new_NullFunc a4 s7) as [[x4|e] s4]; [|discriminate].
  destruct (or_new_NullFunc a8 s4) as [[x8|e] s8]; [|discriminate].
  destruct (or_new_NullFunc a9 s8) as [[x9|e] s9]; [|discriminate].
  intros [= -> -> -> -> -> -> -> -> -> ->]. reflexivity.
Qed.

(** X10.  [PortfolioSolution.__init__] on the store (lines 77-118).  The
    call returns a new instance with the nine attributes; an argument given
    is stored as it is (the same object, not a copy); an argument left out
    becomes a [NullFunc] object that the call creates; nothing that was on
    the store changes.  Two attributes of the new instance refer to one
    object only if that object was passed as an argument: the [NullFunc]
    placeholders are never shared. *)
Theorem PortfolioSolution_init_on_store
    (cFuncAdj' ShareFuncAdj' vFuncAdj' vPfuncAdj' cFuncFxd' ShareFuncFxd'
     vFuncFxd' dvdmFuncFxd' dvdsFuncFxd' : option loc) (σ : state) :
  let given :=
    [("cFuncAdj", cFuncAdj'); ("ShareFuncAdj", ShareFuncAdj');
     ("vFuncAdj", vFuncAdj'); ("vPfuncAdj", vPfuncAdj');
     ("cFuncFxd", cFuncFxd'); ("ShareFuncFxd", ShareFuncFxd');
     ("vFuncFxd", vFuncFxd'); ("dvdmFuncFxd", dvdmFuncFxd');
     ("dvdsFuncFxd", dvdsFuncFxd')] in
  exists sol σ' attrs,
    new_PortfolioSolution cFuncAdj' ShareFuncAdj' vFuncAdj' vPfuncAdj'
      cFuncFxd' ShareFuncFxd' vFuncFxd' dvdmFuncFxd' dvdsFuncFxd' σ
    = (Ok sol, σ') /\
    heap σ !! sol = None /\
    heap σ' !! sol = Some (Instance attrs) /\
    (forall l o, heap σ !! l = Some o -> heap σ' !! l = Some o) /\
    (forall name arg, (name, arg) ∈ given ->
       exists r, attrs !! name = Some r /\
         match arg with
         | Some r' => r = r'
         | None => heap σ !! r = None /\
                   heap σ' !! r = Some (Function NullFunc)
         end) /\
    (forall name name' r,
       name <> name' -> attrs !! name = Some r -> attrs !! name' = Some r ->
       exists n, (n, Some r) ∈ given).
Proof.
  intros given.
  destruct (or_new_NullFunc_list
              [cFuncAdj'; cFuncFxd'; ShareFuncAdj'; ShareFuncFxd'; vFuncAdj';
               vFuncFxd'; vPfuncAdj'; dvdmFuncFxd'; dvdsFuncFxd'] σ)
    as (rs & σ1 & Hrs & Hsub & _ & Hall & Hshare).
  pose proof (Forall2_length _ _ _ Hall) as Hlen.
  destruct rs as [|r1 [|r5 [|r2 [|r6 [|r3 [|r7 [|r4 [|r8 [|r9 [|? ?]]]]]]]]]];
    try discriminate Hlen.
  clear Hlen.
  pose proof (new_PortfolioSolution_steps _ _ _ _ _ _ _ _ _ _ _ _ _ _ _ _ _ _
                _ _ Hrs) as Hnew.
  set (attrs := <["cFuncAdj" := r1]> (<["cFuncFxd" := r5]>
      (<["ShareFuncAdj" := r2]> (<["ShareFuncFxd" := r6]>
      (<["vFuncAdj" := r3]> (<["vFuncFxd" := r7]>
      (<["vPfuncAdj" := r4]> (<["dvdmFuncFxd" := r8]>
      (<["dvdsFuncFxd" := r9]> (∅ : gmap string loc)))))))))) in *.
  set (sol := fresh (dom (heap σ1))).
  assert (Hsol1 : heap σ1 !! sol = None) by (apply not_elem_of_dom, is_fresh).
  exists sol, (mkState (<[sol := Instance attrs]> (heap σ1)) (console σ1)),
    attrs.
  assert (Hsub' : heap σ1 ⊆ <[sol := Instance attrs]> (heap σ1))
    by (apply insert_subseteq; exact Hsol1).
  split; [exact Hnew|]. cbn [heap].
  split.
  { destruct (heap σ !! sol) as [o|] eqn:Ho; [|reflexivity].
    rewrite (lookup_weaken _ _ _ _ Ho Hsub) in Hsol1. discriminate. }
  split; [apply lookup_insert_eq|].
  split.
  { intros l o Hl. eapply lookup_weaken; [|exact Hsub'].
    eapply lookup_weaken; eassumption. }
  assert (Hfix : forall (arg : option loc) r,
            match arg with
            | Some r' => r = r'
            | None => heap σ !! r = None /\
                      heap σ1 !! r = Some (Function NullFunc)
            end ->
            match arg with
            | Some r' => r = r'
            | None => heap σ !! r = None /\
                      <[sol := Instance attrs]> (heap σ1) !! r
                      = Some (Function NullFunc)
            end).
  { intros [r'|] r; [auto|]. intros [Hn Hs]. split; [exact Hn|].
    eapply lookup_weaken; eassumption. }
  split.
  - intros name arg Hin. subst given.
    repeat (apply Forall2_cons_1 in Hall as [?%Hfix Hall]).
    repeat (apply elem_of_cons in Hin as [[= -> ->]|Hin];
            [eexists; split; [reflexivity|assumption]|]).
    apply elem_of_nil in Hin. contradiction.
  - intros name name' r Hne H1 H2.
    set (names := ["cFuncAdj"; "cFuncFxd"; "ShareFuncAdj"; "ShareFuncFxd";
                   "vFuncAdj"; "vFuncFxd"; "vPfuncAdj"; "dvdmFuncFxd";
                   "dvdsFuncFxd"]).
    assert (Hpos : forall n x, attrs !! n = Some x ->
              exists i, names !! i = Some n /\
                        [r1; r5; r2; r6; r3; r7; r4; r8; r9] !! i = Some x).
    { intros n x Hn. subst attrs.
      apply lookup_insert_Some in Hn as [[<- <-]|[_ Hn]];
        [exists 0; split; reflexivity|].
      apply lookup_insert_Some in Hn as [[<- <-]|[_ Hn]];
        [exists 1; split; reflexivity|].
      apply lookup_insert_Some in Hn as [[<- <-]|[_ Hn]];
        [exists 2; split; reflexivity|].
      apply lookup_insert_Some in Hn as [[<- <-]|[_ Hn]];
        [exists 3; split; reflexivity|].
      apply lookup_insert_Some in Hn as [[<- <-]|[_ Hn]];
        [exists 4; split; reflexivity|].
      apply lookup_insert_Some in Hn as [[<- <-]|[_ Hn]];
        [exists 5; split; reflexivity|].
      apply lookup_insert_Some in Hn as [[<- <-]|[_ Hn]];
        [exists 6; split; reflexivity|].
      apply lookup_insert_Some in Hn as [[<- <-]|[_ Hn]];
        [exists 7; split; reflexivity|].
      apply lookup_insert_Some in Hn as [[<- <-]|[_ Hn]];
        [exists 8; split; reflexivity|].
      rewrite lookup_empty in Hn. discriminate. }
    destruct (Hpos _ _ H1) as (i & Hi & Hri).
    destruct (Hpos _ _ H2) as (j & Hj & Hrj).
    assert (Hij : i <> j) by (intros ->; congruence).
    pose proof (Hshare i j r Hij Hri Hrj) as Hin.
    apply list_elem_of_lookup_1 in Hin as [k Hk].
    subst given.
    do 9 (destruct k as [|k];
          [injection Hk as <-; eexists; repeat first [left | right]|]).
    discriminate Hk.
Qed.

(** ** The share grid *)

Lemma Q2Qc_inj_ne (a b : Z) : a <> b -> Q2Qc (inject_Z a) <> Q2Qc (inject_Z b).
Proof.
  intros Hne Heq. apply Hne.
  assert (H : (inject_Z a == inject_Z b)%Q).
  { rewrite <- (Qred_correct (inject_Z a)), <- (Qred_correct (inject_Z b)).
    change (this (Q2Qc (inject_Z a)) == this (Q2Qc (inject_Z b)))%Q.
    rewrite Heq. reflexivity. }
  unfold Qeq in H. simpl in H. lia.
Qed.

Lemma even_point_step (d : Z) (i : nat) :
  (0 < d)%Z ->
  (even_point d (S i) + - even_point d i = Q2Qc 1 / Q2Qc (inject_Z d))%Qc.
Proof.
  intros Hd. unfold even_point.
  assert (Hne : Q2Qc (inject_Z d) <> Q2Qc 0)
    by (apply (Q2Qc_inj_ne d 0); lia).
  assert (HS : Q2Qc (inject_Z (Z.of_nat (S i)))
               = (Q2Qc (inject_Z (Z.of_nat i)) + Q2Qc 1)%Qc).
  { apply Qc_is_canon. simpl. rewrite !Qred_correct.
    rewrite Nat2Z.inj_succ. unfold Z.succ. rewrite inject_Z_plus.
    reflexivity. }
  rewrite HS. field. exact Hne.
Qed.

Lemma even_point_last (d : Z) :
  (0 < d)%Z -> even_point d (Z.to_nat d) = Q2Qc 1.
Proof.
  intros Hd. unfold even_point. rewrite Z2Nat.id by lia.
  assert (Hne : Q2Qc (inject_Z d) <> Q2Qc 0)
    by (apply (Q2Qc_inj_ne d 0); lia).
  field. exact Hne.
Qed.

Lemma even_point_first (d : Z) : (0 < d)%Z -> even_point d 0 = Q2Qc 0.
Proof.
  intros Hd. unfold even_point.
  assert (Hne : Q2Qc (inject_Z d) <> Q2Qc 0)
    by (apply (Q2Qc_inj_ne d 0); lia).
  change (Q2Qc (inject_Z (Z.of_nat 0))) with (Q2Qc 0). field. exact Hne.
Qed.

Lemma Qc_eqb_false (a b : Qc) : a <> b -> Qc_eqb a b = false.
Proof.
  intros Hne. destruct (Qc_eqb a b) eqn:H; [|reflexivity].
  apply Qc_eqb_eq in H. contradiction.
Qed.

Lemma neqb_zero_false (q : Qc) : q <> Q2Qc 0 -> neqb (Fin q) zero = false.
Proof.
  intros Hne. destruct (neqb (Fin q) zero) eqn:H; [|reflexivity].
  apply neqb_zero_iff in H. injection H as ->. contradiction.
Qed.

(** The points of the share grid, for two points or more. *)
Lemma updateShareGrid_points (n : Z) :
  (2 <= n)%Z ->
  exists g,
    updateShareGrid n = inr g /\
    length g = Z.to_nat n /\
    forall i, i < Z.to_nat n -> g !! i = Some (Fin (even_point (n - 1) i)).
Proof.
  intros Hn. unfold updateShareGrid, np_linspace.
  assert (Hd : (0 < n - 1)%Z) by lia.
  assert (Hne : Q2Qc (inject_Z (n - 1)) <> Q2Qc 0)
    by (apply (Q2Qc_inj_ne (n - 1) 0); lia).
  rewrite (proj2 (Z.ltb_ge n 0)) by lia.
  rewrite (proj2 (Z.ltb_lt 0 (n - 1))) by lia.
  rewrite (proj2 (Z.ltb_lt 1 n)) by lia.
  cbv zeta.
  assert (Hstep : ((one - zero) / of_Z (n - 1))%num
                  = Fin (Q2Qc 1 / Q2Qc (inject_Z (n - 1)))).
  { unfold of_Z. simpl. rewrite (Qc_eqb_false _ _ Hne). f_equal. }
  rewrite Hstep.
  assert (Hnz : (Q2Qc 1 / Q2Qc (inject_Z (n - 1)))%Qc <> Q2Qc 0).
  { intros Hz.
    assert (H1 : (Q2Qc 1 / Q2Qc (inject_Z (n - 1)) * Q2Qc (inject_Z (n - 1))
                  = Q2Qc 1)%Qc) by (field; exact Hne).
    rewrite Hz in H1.
    assert (H0 : (Q2Qc 0 * Q2Qc (inject_Z (n - 1)) = Q2Qc 0)%Qc) by ring.
    rewrite H0 in H1. discriminate H1. }
  rewrite (neqb_zero_false _ Hnz).
  eexists. split; [reflexivity|].
  split.
  { rewrite length_insert, !length_fmap, length_seq. reflexivity. }
  intros i Hi.
  destruct (decide (i = Z.to_nat n - 1)) as [->|Hne'].
  - rewrite list_lookup_insert_eq
      by (rewrite !length_fmap, length_seq; lia).
    replace (Z.to_nat n - 1) with (Z.to_nat (n - 1)) by lia.
    rewrite (even_point_last _ Hd). reflexivity.
  - rewrite list_lookup_insert_ne by auto.
    rewrite !list_lookup_fmap, lookup_seq_lt by exact Hi. simpl.
    f_equal. f_equal. unfold even_point. field. exact Hne.
Qed.

Lemma increasing_from_points (l : arr1) : forall (f : nat -> Qc),
  (forall i, i < length l -> l !! i = Some (Fin (f i))) ->
  (forall i, S i < length l -> (f i < f (S i))%Qc) ->
  increasing l = true.
Proof.
  induction l as [|x l IH]; intros f Hp Hlt; [reflexivity|].
  cbn [increasing].
  pose proof (Hp 0 ltac:(simpl; lia)) as H0. simpl in H0.
  injection H0 as ->. cbn [is_fin andb].
  rewrite (IH (fun i => f (S i))).
  - destruct l as [|y l]; [reflexivity|].
    pose proof (Hp 1 ltac:(simpl; lia)) as H1. simpl in H1.
    injection H1 as ->. rewrite andb_true_r. apply nlt_fin.
    apply Hlt. simpl. lia.
  - intros i Hi. apply (Hp (S i)). simpl. lia.
  - intros i Hi. apply (Hlt (S i)). simpl. lia.
Qed.

Lemma Q2Qc_inject_pos (d : Z) : (0 < d)%Z -> (0 < Q2Qc (inject_Z d))%Qc.
Proof.
  intros Hd. unfold Qclt. simpl. rewrite !Qred_correct.
  unfold Qlt. simpl. lia.
Qed.

Lemma even_point_lt (d : Z) (i : nat) :
  (0 < d)%Z -> (even_point d i < even_point d (S i))%Qc.
Proof.
  intros Hd. pose proof (even_point_step d i Hd) as Hs.
  assert (Hpos : (0 < Q2Qc 1 / Q2Qc (inject_Z d))%Qc).
  { unfold Qcdiv.
    assert (H1 : (Q2Qc 1 * / Q2Qc (inject_Z d) = / Q2Qc (inject_Z d))%Qc)
      by ring.
    rewrite H1. apply Qcinv_pos, Q2Qc_inject_pos, Hd. }
  rewrite <- Hs in Hpos.
  set (a := even_point d (S i)) in *. set (b := even_point d i) in *.
  clearbody a b. clear Hs. qc2q. lra.
Qed.

Lemma even_point_in_unit (d : Z) (i : nat) :
  (0 < d)%Z -> (Z.of_nat i <= d)%Z ->
  (0 <= even_point d i)%Qc /\ (even_point d i <= 1)%Qc.
Proof.
  intros Hd Hi. unfold even_point, Qcdiv, Qcle. simpl.
  rewrite !Qred_correct.
  assert (Hdq : (0 < inject_Z d)%Q) by (unfold Qlt; simpl; lia).
  assert (Hiq : (0 <= inject_Z (Z.of_nat i))%Q) by (unfold Qle; simpl; lia).
  assert (Hle : (inject_Z (Z.of_nat i) <= inject_Z d)%Q)
    by (unfold Qle; simpl; lia).
  split.
  - apply Qle_shift_div_l; [exact Hdq|]. lra.
  - apply Qle_shift_div_r; [exact Hdq|]. lra.
Qed.

(** X11.  [updateShareGrid] (line 297) fails exactly when [ShareCount] is
    negative; otherwise the grid it stores has exactly [ShareCount] points,
    all finite, strictly increasing and within [0,1]. *)
Theorem updateShareGrid_grid (ShareCount : Z) :
  match updateShareGrid ShareCount with
  | inl _ => (ShareCount < 0)%Z
  | inr g =>
      (0 <= ShareCount)%Z /\
      length g = Z.to_nat ShareCount /\
      increasing g = true /\
      Forall (fun s => in_unit_interval s = true) g
  end.
Proof.
  destruct (Z_lt_le_dec ShareCount 0) as [Hneg|Hnn].
  { unfold updateShareGrid, np_linspace.
    rewrite (proj2 (Z.ltb_lt ShareCount 0)) by lia. exact Hneg. }
  destruct (Z_lt_le_dec ShareCount 2) as [Hsmall|Hbig].
  { assert (Hc : ShareCount = 0%Z \/ ShareCount = 1%Z) by lia.
    destruct Hc as [-> | ->]; vm_compute; repeat split; try discriminate;
      repeat constructor. }
  destruct (updateShareGrid_points ShareCount Hbig) as (g & -> & Hlen & Hpts).
  split; [lia|]. split; [exact Hlen|]. split.
  - apply (increasing_from_points g (even_point (ShareCount - 1))).
    + intros i Hi. apply Hpts. lia.
    + intros i _. apply even_point_lt. lia.
  - apply Forall_lookup. intros i s Hs.
    pose proof (lookup_lt_Some _ _ _ Hs) as Hi. rewrite Hlen in Hi.
    rewrite (Hpts i Hi) in Hs. injection Hs as <-.
    apply in_unit_fin. eexists. split; [reflexivity|].
    apply even_point_in_unit; lia.
Qed.



(** ** Interpolation stays within the bracket *)

Lemma interpolated_between (b t s1 s2 : Qc) :
  (0 <= b)%Qc -> (t <= 0)%Qc -> (b <> 0 \/ t <> 0)%Qc ->
  exists v, interpolated (Fin b) (Fin t) (Fin s1) (Fin s2) = Fin v /\
            (((s1 <= v)%Qc /\ (v <= s2)%Qc) \/
             ((s2 <= v)%Qc /\ (v <= s1)%Qc)).
Proof.
  intros Hb Ht Hnz.
  assert (Hd : (t + - b < 0)%Qc).
  { destruct Hnz as [Hnz|Hnz].
    - assert (0 < b)%Qc
        by (apply Qcle_lt_or_eq in Hb as [?|?]; [assumption|congruence]).
      qc2q. lra.
    - assert (t < 0)%Qc
        by (apply Qcle_lt_or_eq in Ht as [?|?]; [assumption|congruence]).
      qc2q. lra. }
  assert (Hne : b <> t).
  { intros ->. qc2q. lra. }
  unfold interpolated. simpl. rewrite (Qc_sub_ne _ _ Hne). simpl.
  eexists. split; [reflexivity|].
  assert (Hdw : ((t + - b) * / (t + - b) = 1)%Qc).
  { apply Qcmult_inv_r. intros Hz. rewrite Hz in Hd.
    eapply Qclt_not_eq; [exact Hd | reflexivity]. }
  unfold Qcdiv.
  set (w := (/ (t + - b))%Qc) in *. clearbody w.
  assert (Hd' : (this ((t + - b) * w)%Qc == this 1%Qc)%Q)
    by (rewrite Hdw; reflexivity).
  clear Hdw.
  destruct (Qclt_le_dec s2 s1) as [Hs|Hs].
  - right. qc2q.
    assert (Hw : (w < 0)%Q) by nra.
    assert (Hu0 : (0 <= t * w)%Q) by nra.
    assert (Hu1 : (t * w <= 1)%Q) by nra.
    set (u := (t * w)%Q) in *. clearbody u.
    split; nra.
  - left. qc2q.
    assert (Hw : (w < 0)%Q) by nra.
    assert (Hu0 : (0 <= t * w)%Q) by nra.
    assert (Hu1 : (t * w <= 1)%Q) by nra.
    set (u := (t * w)%Q) in *. clearbody u.
    split; nra.
Qed.

Lemma interpolated_between_num bot_f top_f lo hi :
  nge bot_f zero = true -> nle top_f zero = true ->
  is_fin bot_f && is_fin top_f && negb (neqb bot_f zero && neqb top_f zero)
  = true ->
  is_fin lo = true -> is_fin hi = true ->
  between lo hi (interpolated bot_f top_f lo hi) = true.
Proof.
  intros Hb Ht Hreg Hlo Hhi.
  apply andb_true_iff in Hreg as [Hfin Hnz].
  apply andb_true_iff in Hfin as [Hfb Hft].
  apply is_fin_Fin in Hfb as [b ->]. apply is_fin_Fin in Hft as [t ->].
  apply is_fin_Fin in Hlo as [s1 ->]. apply is_fin_Fin in Hhi as [s2 ->].
  apply nge_fin in Hb. apply nle_fin in Ht.
  assert (Hnz' : b <> Q2Qc 0 \/ t <> Q2Qc 0).
  { apply negb_true_iff, andb_false_iff in Hnz as [Hz|Hz].
    - left. intros ->. revert Hz. change (Fin (Q2Qc 0)) with zero.
      rewrite neqb_zero_zero. discriminate.
    - right. intros ->. revert Hz. change (Fin (Q2Qc 0)) with zero.
      rewrite neqb_zero_zero. discriminate. }
  destruct (interpolated_between b t s1 s2 Hb Ht Hnz') as (v & -> & Hv).
  unfold between. apply orb_true_iff.
  destruct Hv as [[H1 H2]|[H1 H2]]; [left|right];
    apply andb_true_iff; split; apply nle_fin; assumption.
Qed.

Section Bracket.

Variable pw : num -> num -> num.


End Bracket.


(** ** The first step with the grid and the terminal solution *)

Section Pipeline.
Variable pw : num -> num -> num.

(** X14.  The share grid that [updateShareGrid] builds, handed to the
    solver together with the solution that [updateSolutionTerminal] builds:
    with [ShareCount = 0] the grid is built without complaint and the solver
    then fails with an IndexError; with any larger [ShareCount] the step
    back from the terminal period returns a solution (borrowing constraint
    at 0, risk aversion not 0, shock arrays of one length). *)
Theorem first_step_with_built_share_grid
    (ShareCount : Z) (g : arr1) (CRRA_T : num) (sd : ShockDstn_t)
    (LivPrb DiscFac CRRA Rfree PermGroFac : num)
    (aXtraGrid : arr1) (vFuncBool : bool) (AdjustPrb ShareLimit : num) :
  updateShareGrid ShareCount = inr g ->
  CRRA <> zero ->
  length (PermShks sd) = length (ShockPrbs sd) ->
  length (TranShks sd) = length (ShockPrbs sd) ->
  length (Risky sd) = length (ShockPrbs sd) ->
  if decide (ShareCount = 0%Z) then
    solveConsPortfolio pw (updateSolutionTerminal CRRA_T) sd LivPrb DiscFac
      CRRA Rfree PermGroFac (Some zero) aXtraGrid g vFuncBool
      AdjustPrb ShareLimit = Raise IndexError
  else
    exists sol out,
      solveConsPortfolio pw (updateSolutionTerminal CRRA_T) sd LivPrb DiscFac
        CRRA Rfree PermGroFac (Some zero) aXtraGrid g vFuncBool
        AdjustPrb ShareLimit = Ok (sol, out).
Proof.
  intros Hg _ HP HT HR.
  destruct (next_values_terminal pw CRRA_T vFuncBool AdjustPrb
              (mNrm_next_grid sd Rfree PermGroFac aXtraGrid g)
              (Share_tiled sd aXtraGrid g)) as [nxt Hnext].
  pose proof (solve_returns_with pw nxt _ sd LivPrb DiscFac CRRA Rfree
                PermGroFac aXtraGrid g vFuncBool AdjustPrb ShareLimit
                Hnext HP HT HR) as H.
  assert (Hlen : length g = Z.to_nat ShareCount).
  { destruct (Z_lt_le_dec ShareCount 0) as [Hneg|Hnn].
    { unfold updateShareGrid, np_linspace in Hg.
      rewrite (proj2 (Z.ltb_lt ShareCount 0)) in Hg by lia. discriminate. }
    destruct (Z_lt_le_dec ShareCount 2) as [Hsmall|Hbig].
    { assert (Hc : ShareCount = 0%Z \/ ShareCount = 1%Z) by lia.
      destruct Hc as [-> | ->]; vm_compute in Hg; injection Hg as <-;
        reflexivity. }
    destruct (updateShareGrid_points ShareCount Hbig) as (g' & Hg' & Hl & _).
    congruence. }
  assert (Hnn : (0 <= ShareCount)%Z).
  { destruct (Z_lt_le_dec ShareCount 0) as [Hneg|Hnn]; [|exact Hnn].
    unfold updateShareGrid, np_linspace in Hg.
    rewrite (proj2 (Z.ltb_lt ShareCount 0)) in Hg by lia. discriminate. }
  destruct (decide (ShareCount = 0%Z)) as [->|Hne].
  - destruct g; [exact H | discriminate Hlen].
  - destruct g; [simpl in Hlen; lia | exact H].
Qed.

End Pipeline.

Lemma first_step_with_built_share_grid_witness :
  exists sol out,
    solveConsPortfolio npow_int (updateSolutionTerminal one)
      risky_half_or_double one one one one one (Some zero) [one; of_Z 3]
      (match updateShareGrid 3 with inr g => g | inl _ => [] end)
      false one (of_frac 1 2) = Ok (sol, out).
Proof.
  apply (first_step_with_built_share_grid npow_int 3 _ one
           risky_half_or_double one one one one one [one; of_Z 3] false one
           (of_frac 1 2)).
  - vm_compute. reflexivity.
  - discriminate.
  - reflexivity.
  - reflexivity.
  - reflexivity.
Defined.

(* ================================================================== *)
(** * Degenerate shock distributions *)
(* ================================================================== *)

(** ** An empty shock distribution *)

Lemma zip3d_no_shock {A B C} (f : A -> B -> C) X Y :
  Forall (Forall (fun c => c = [])) X ->
  Forall (Forall (fun c => c = [])) (zip3d f X Y).
Proof.
  unfold zip3d. intros HX. revert Y.
  induction HX as [|row X Hrow _ IH]; intros Y; [constructor|].
  destruct Y as [|yrow Y]; [constructor|]. simpl. constructor; [|apply IH].
  clear IH. revert yrow.
  induction Hrow as [|c row Hc _ IHr]; intros yrow; [constructor|].
  destruct yrow as [|y yrow]; [constructor|]. simpl.
  constructor; [|apply IHr]. subst c. reflexivity.
Qed.

Lemma tile_no_shock n m :
  Forall (Forall (fun c : arr1 => c = [])) (replicate n (replicate m [])).
Proof.
  apply Forall_replicate, Forall_replicate. reflexivity.
Qed.

Lemma sum_no_shock DiscFac X :
  Forall (Forall (fun c => c = [])) X ->
  Forall (Forall (fun x => x = (DiscFac * zero)%num))
         (map2d (nmul DiscFac) (sum_axis2 X)).
Proof.
  intros HX. unfold map2d, sum_axis2, map2d.
  apply Forall_fmap, Forall_fmap. eapply Forall_impl; [exact HX|].
  intros row Hrow. simpl. apply Forall_fmap, Forall_fmap.
  eapply Forall_impl; [exact Hrow|]. intros c ->. reflexivity.
Qed.

Section NoShock.

Variable pw : num -> num -> num.

Lemma expectations_no_shock sn DiscFac CRRA Rfree PermGroFac aX SG vB
    AdjustPrb E :
  expectations pw sn (mkShockDstn [] [] [] []) DiscFac CRRA Rfree PermGroFac
    aX SG vB AdjustPrb = Ok E ->
  Forall (Forall (fun x => x = (DiscFac * zero)%num)) (EndOfPrddvds E).
Proof.
  unfold expectations, expectations_with.
  cbn [ShockPrbs PermShks TranShks Risky Shock_N length].
  rewrite !(reshape_shock_same_length [] 0 eq_refl). cbn [obind]. cbv zeta.
  destruct (next_values pw sn vB AdjustPrb _ _) as [nxt|];
    [cbn [obind]|discriminate].
  intros HE%Ok_inj. subst E. cbn [EndOfPrddvds].
  apply sum_no_shock, zip3d_no_shock.
  unfold tile_shock. apply tile_no_shock.
Qed.


Lemma interpolated_zero_zero lo hi : interpolated zero zero lo hi = NaN.
Proof. destruct lo, hi; reflexivity. Qed.

Lemma highest_crossing_zeros (row : arr1) :
  2 <= length row -> Forall (fun x => x = zero) row ->
  highest_crossing row (length row - 2).
Proof.
  intros Hlen Hz. rewrite Forall_lookup in Hz. split.
  - destruct (lookup_lt_is_Some_2 row (length row - 2)) as [lo Hlo]; [lia|].
    destruct (lookup_lt_is_Some_2 row (S (length row - 2))) as [hi Hhi];
      [lia|].
    pose proof (Hz _ _ Hlo) as ->. pose proof (Hz _ _ Hhi) as ->.
    exists zero, zero. split; [exact Hlo|]. split; [exact Hhi|].
    split; reflexivity.
  - intros i Hi (lo & hi & _ & Hhi & _). apply lookup_lt_Some in Hhi. lia.
Qed.

(** X15.  An empty shock distribution is not rejected.  With four empty
    shock arrays (borrowing constraint at 0, risk aversion not 0, a finite
    discount factor, a share grid of two points or more, next period's
    functions returning on the empty arrays of future resources), every
    expectation is an empty sum, so every first-order condition is 0; the
    solver returns, prints nothing, and at every asset level beyond the
    first the share and the consumption it returns are nan (the weight
    [alpha] of line 480 is [1 - 0/0]). *)
Theorem solve_empty_shock_distribution
    (sn : PortfolioSolution)
    (LivPrb DiscFac CRRA Rfree PermGroFac : num)
    (aXtraGrid ShareGrid : arr1) (vFuncBool : bool)
    (AdjustPrb ShareLimit : num) (nxt : arr3 * arr3 * arr3) :
  CRRA <> zero ->
  is_fin DiscFac = true ->
  2 <= length ShareGrid ->
  next_values pw sn vFuncBool AdjustPrb
    (mNrm_next_grid (mkShockDstn [] [] [] []) Rfree PermGroFac
       aXtraGrid ShareGrid)
    (Share_tiled (mkShockDstn [] [] [] []) aXtraGrid ShareGrid) = Ok nxt ->
  exists sol out,
    solveConsPortfolio pw sn (mkShockDstn [] [] [] []) LivPrb DiscFac CRRA
      Rfree PermGroFac (Some zero) aXtraGrid ShareGrid vFuncBool AdjustPrb
      ShareLimit = Ok (sol, out) /\
    out = [] /\
    forall j, 1 <= j <= length aXtraGrid ->
      share_at sol j = Some NaN /\ cNrm_at sol j = Some NaN.
Proof.
  intros _ Hfin HSG Hnext.
  pose proof (solve_returns_with pw nxt sn (mkShockDstn [] [] [] []) LivPrb
                DiscFac CRRA Rfree PermGroFac aXtraGrid ShareGrid vFuncBool
                AdjustPrb ShareLimit Hnext eq_refl eq_refl eq_refl) as Hret.
  destruct ShareGrid as [|s0 SG']; [simpl in HSG; lia|].
  destruct Hret as (sol & out & Hsol).
  set (SG := s0 :: SG') in *.
  exists sol, out. split; [exact Hsol|].
  pose proof Hsol as Hsol'.
  apply solve_Ok_inv in Hsol' as (_ & E & st & HE & Hst & _ & Hout).
  destruct (expectations_shape _ _ _ _ _ _ _ _ _ _ _ _ HE) as (HS & HA & HN).
  pose proof (expectations_no_shock _ _ _ _ _ _ _ _ _ _ HE) as Hcells.
  apply is_fin_Fin in Hfin as [d ->].
  assert (Hz : (Fin d * zero)%num = zero)
    by (unfold zero; simpl; f_equal; ring).
  rewrite Hz in Hcells. rewrite Forall_lookup in Hcells.
  destruct HS as [HnS HmS]. rewrite Forall_lookup in HmS.
  assert (Hrow : forall j frow,
            EndOfPrddvds E !! j = Some frow ->
            last frow = Some zero /\
            exists nrow,
              EndOfPrddvdaNvrs E !! j = Some nrow /\
              interior_controls SG frow nrow = Some (NaN, NaN)).
  { intros j frow Hfrow.
    pose proof (HmS _ _ Hfrow) as Hlf. pose proof (Hcells _ _ Hfrow) as Hzs.
    assert (Hlast : last frow = Some zero).
    { destruct (last frow) as [x|] eqn:Hx.
      - rewrite Forall_forall in Hzs.
        rewrite (Hzs x) by (eapply last_Some_elem_of, Hx). reflexivity.
      - apply last_None in Hx. subst frow. simpl in Hlf, HSG. lia. }
    split; [exact Hlast|].
    destruct (solve_Ok_Nvrs_row _ _ _ _ _ _ _ _ _ _ _ _ _ _ _ HE Hfrow Hlast)
      as (nrow & ntop & Hnrow & Hntop).
    exists nrow. split; [exact Hnrow|].
    destruct (solve_Ok_levels _ _ _ _ _ _ _ _ _ _ _ _ _ _ _ _ _ Hsol HE
                j frow nrow zero ntop Hfrow Hnrow Hlast Hntop)
      as (Hlf' & Hln & _).
    destruct (interior_controls_Some SG frow nrow (length frow - 2)
                ltac:(lia) ltac:(lia)
                (highest_crossing_zeros frow ltac:(lia) Hzs))
      as (bs & ts & bf & tf & bc & tc & _ & _ & Hbf & Htf & _ & _ & Hint).
    rewrite Forall_lookup in Hzs.
    rewrite (Hzs _ _ Hbf), (Hzs _ _ Htf) in Hint.
    rewrite !interpolated_zero_zero in Hint. exact Hint. }
  split.
  - subst out.
    destruct (share_selection_start pw _ _ _ _ _ (conj HnS (proj2 (Forall_lookup _ _) HmS))
                HA Hst)
      as (st0 & Hfold & Hout0 & HlS & Hlc & H0 & _).
    destruct (loop_spec aXtraGrid SG E (seq 0 (S (length aXtraGrid))) st0)
      as (_ & _ & Hout); [apply NoDup_seq | lia |].
    rewrite <- Hfold in Hout. rewrite Hout, Hout0, app_nil_l.
    destruct (omap (printed aXtraGrid SG E st0)
                (seq 0 (S (length aXtraGrid)))) as [|m l] eqn:Hom;
      [reflexivity|].
    exfalso.
    assert (Hin : m ∈ omap (printed aXtraGrid SG E st0)
                    (seq 0 (S (length aXtraGrid))))
      by (rewrite Hom; left).
    apply list_elem_of_omap in Hin as (j & Hj & Hp).
    apply elem_of_seq in Hj as [_ Hj]. simpl in Hj.
    apply printed_inv in Hp as (_ & Hfound & _).
    destruct (lookup_lt_is_Some_2 (EndOfPrddvds E) j) as [frow Hfrow]; [lia|].
    destruct (Hrow j frow Hfrow) as (_ & nrow & Hnrow & Hint).
    unfold found in Hfound. rewrite Hfrow in Hfound. simpl in Hfound.
    rewrite Hnrow in Hfound. simpl in Hfound. congruence.
  - intros j Hj.
    destruct (lookup_lt_is_Some_2 (EndOfPrddvds E) j) as [frow Hfrow]; [lia|].
    destruct (Hrow j frow Hfrow) as (Hlast & nrow & Hnrow & Hint).
    destruct (solve_Ok_Nvrs_row _ _ _ _ _ _ _ _ _ _ _ _ _ _ _ HE Hfrow Hlast)
      as (nrow' & ntop & Hnrow' & Hntop).
    assert (nrow' = nrow) by congruence. subst nrow'.
    destruct (solve_Ok_levels _ _ _ _ _ _ _ _ _ _ _ _ _ _ _ _ _ Hsol HE
                j frow nrow zero ntop Hfrow Hnrow Hlast Hntop)
      as (_ & _ & Hcase).
    rewrite decide_False in Hcase by lia.
    replace (ngt zero zero) with false in Hcase by reflexivity.
    rewrite Hint in Hcase. exact Hcase.
Qed.

End NoShock.

Lemma solve_empty_shock_witness :
  exists sol out,
    solveConsPortfolio npow_int (updateSolutionTerminal one)
      (mkShockDstn [] [] [] []) one one one one one (Some zero)
      [one; of_Z 3] [zero; of_frac 1 2; one] false one (of_frac 1 2)
    = Ok (sol, out) /\
    out = [] /\
    forall j, 1 <= j <= length [one; of_Z 3] ->
      share_at sol j = Some NaN /\ cNrm_at sol j = Some NaN.
Proof.
  eapply (solve_empty_shock_distribution npow_int
            (updateSolutionTerminal one) one one one one one
            [one; of_Z 3] [zero; of_frac 1 2; one] false one (of_frac 1 2)).
  - discriminate.
  - reflexivity.
  - simpl. lia.
  - vm_compute. reflexivity.
Defined.
